(** * The WebKit [FrameManager]: frame registry, execution contexts and
      protocol event routing

    A shallow embedding of [FrameManager] (the class that keeps the
    client-side frame tree of a page in step with the inspector protocol)
    and the properties its specification states about it.

    JavaScript objects with identity ([Frame], [ExecutionContext]) live in an
    explicit store; a method is a function from the manager's state to an
    outcome (returned, threw, or the model ran out of recursion budget). *)

From Stdlib Require Import Ascii.
From stdpp Require Import base gmap list strings pretty.


(** ** Values and protocol payloads *)

(** A reference to a [Frame] object: its index in the store. *)
Abbreviation handle := nat (only parsing).

(** The JavaScript values a protocol field typed [any] can carry. *)
Inductive JsValue :=
| JsUndefined
| JsNull
| JsBool (b : bool)
| JsNumber (z : Z)
| JsString (s : string).

#[global] Instance JsValue_eq_dec : EqDecision JsValue.
Proof. solve_decision. Defined.

(** [x === s] for a string literal [s]. *)
Definition strict_eq_string (x : JsValue) (s : string) : bool :=
  match x with
  | JsString t => bool_decide (t = s)
  | _ => false
  end.

(** Truthiness of an optional string ([undefined], [null] and [''] are falsy). *)
Definition truthy (s : option string) : bool :=
  match s with
  | Some t => negb (bool_decide (t = ""))
  | None => false
  end.

(** [Protocol.Page.Frame] *)
Record FramePayload := {
  fp_id : string;
  fp_parentId : option string;
  fp_loaderId : string;
  fp_name : option string;
  fp_url : string;
}.

(** [Protocol.Runtime.ExecutionContextDescription] *)
Record ExecutionContextDescription := {
  ecd_id : Z;
  ecd_isPageContext : bool;
  ecd_name : string;
  ecd_frameId : string;
}.

#[global] Instance ExecutionContextDescription_eq_dec :
  EqDecision ExecutionContextDescription.
Proof. solve_decision. Defined.

(** [Protocol.Runtime.RemoteObject], the fields the manager reads. *)
Record RemoteObject := {
  ro_value : JsValue;
  ro_objectId : option string;
}.

(** [Protocol.Console.ConsoleMessage] *)
Record ConsoleMessagePayload := {
  cm_type : string;
  cm_level : string;
  cm_text : string;
  cm_parameters : option (list RemoteObject);
  cm_url : option string;
  cm_line : Z;
  cm_column : Z;
}.

Definition UTILITY_WORLD_NAME : string := "__playwright_utility_world__".
Definition BINDING_CALL_MESSAGE : string := "__playwright_binding_call__".

(** ** Objects *)

(** A [js.ExecutionContext] built by [_onExecutionContextCreated]: the
    payload held by its delegate ([_contextId] is the payload's id), the
    frame of its DOM world, and a serial number standing for the object's
    identity under [===]. *)
Record ExecutionContext := {
  ctx_serial : nat;
  ctx_payload : ExecutionContextDescription;
  ctx_frame : handle;
}.

#[global] Instance ExecutionContext_eq_dec : EqDecision ExecutionContext.
Proof. solve_decision. Defined.

Definition _contextId (c : ExecutionContext) : Z := ecd_id (ctx_payload c).

(** Modelled from the spec: the [Frame] class of [../frames], which is not
    part of this source file.  The spec (section 3) gives a Frame a parent
    back-reference, an ordered set of child frames, the last committed url
    and name, the last document id, the set of lifecycle events fired for
    the current document, a detached flag and one current context per
    world.  [frameData_id] is the [FrameData] record the manager itself
    hangs on the frame under [frameDataSymbol]. *)
Record Frame := {
  frameData_id : string;
  _parentFrame : option handle;
  _childFrames : list handle;
  _firedLifecycleEvents : gset string;
  _detached : bool;
  _url : string;
  _name : option string;
  _lastDocumentId : string;
  _mainContext : option ExecutionContext;
  _utilityContext : option ExecutionContext;
}.

Inductive World := main | utility.

(** The handle [context._createHandle(p)] returns. *)
Record JSHandle := {
  jsh_context : ExecutionContext;
  jsh_remote : RemoteObject;
}.

(** ** What the manager makes observable *)

(** [FrameManagerEvents] *)
Inductive FrameManagerEvent :=
| FrameNavigatedWithinDocument
| FrameAttached
| FrameDetached
| FrameNavigated
| LifecycleEvent.

(** The members of [Events.Page] the manager emits on its page. *)
Inductive PageEvent :=
| Page_FrameAttached
| Page_FrameDetached
| Page_FrameNavigated
| Page_DOMContentLoaded
| Page_Load.

#[global] Instance FrameManagerEvent_eq_dec : EqDecision FrameManagerEvent.
Proof. solve_decision. Defined.
#[global] Instance PageEvent_eq_dec : EqDecision PageEvent.
Proof. solve_decision. Defined.

Record ConsoleLocation := {
  loc_url : option string;
  loc_lineNumber : Z;
  loc_columnNumber : Z;
}.

(** One entry per call the manager makes on a collaborator, in the order
    the calls happen. *)
Inductive Call :=
| Emit (e : FrameManagerEvent) (frame : handle)
    (* this.emit(FrameManagerEvents.e, frame) *)
| PageEmit (e : PageEvent) (frame : option handle)
    (* this._page.emit(Events.Page.e[, frame]) *)
| ExpectedNewDocument (frame : handle) (documentId : string)
    (* frame._onExpectedNewDocumentNavigation(documentId) *)
| CommittedNewDocument (frame : handle) (documentId : string)
    (* frame._onCommittedNewDocumentNavigation(url, name, documentId) *)
| BindingCalled (payload : JsValue) (context : option ExecutionContext)
    (* this._page._onBindingCalled(payload, context) *)
| AddConsoleMessage (type : string) (handles : list JSHandle)
    (location : ConsoleLocation) (text : option string).
    (* this._page._addConsoleMessage(type, handles, location, text) *)

(** ** The manager's state

    [_frames], [_contextIdToContext] and [_mainFrame] are the fields of the
    class; [lastDocumentId] is the module-level counter as the manager
    finds and leaves it (see [Process] for several managers sharing it);
    [store] holds the Frame objects; [contextsCreated] numbers the context
    objects; [calls] is the log of collaborator calls. *)
Record FrameManager := {
  _frames : gmap string handle;
  _contextIdToContext : gmap Z ExecutionContext;
  _mainFrame : option handle;
  lastDocumentId : N;
  store : list Frame;
  contextsCreated : nat;
  calls : list Call;
}.

(** The state the constructor leaves ([_mainFrame] is [undefined]). *)
Definition new_FrameManager : FrameManager :=
  {| _frames := ∅; _contextIdToContext := ∅; _mainFrame := None;
     lastDocumentId := 0; store := []; contextsCreated := 0; calls := [] |}.

(** ** Outcomes and the method monad *)

Inductive JsError :=
| AssertionError
| TypeError (what : string)
| SyntaxError.

(** A call returns a value, throws, or the model stops: [OutOfFuel] when
    the recursion budget of [_removeFramesRecursively] is spent, [Dangling]
    when a handle names no object of the store (no JavaScript execution
    does either). *)
Inductive Outcome (A : Type) :=
| Done (a : A) (m : FrameManager)
| Threw (e : JsError) (m : FrameManager)
| OutOfFuel
| Dangling.
Arguments Done {A} a m.
Arguments Threw {A} e m.
Arguments OutOfFuel {A}.
Arguments Dangling {A}.

Definition M (A : Type) : Type := FrameManager → Outcome A.

#[global] Instance M_ret : MRet M := λ A a m, Done a m.
#[global] Instance M_bind : MBind M := λ A B f c m,
  match c m with
  | Done a m' => f a m'
  | Threw e m' => Threw e m'
  | OutOfFuel => OutOfFuel
  | Dangling => Dangling
  end.

Definition throw {A} (e : JsError) : M A := λ m, Threw e m.
Definition get_state : M FrameManager := λ m, Done m m.
Definition modify (f : FrameManager → FrameManager) : M unit :=
  λ m, Done () (f m).

(** [for (const x of xs) body(x)] *)
Fixpoint for_each {A} (xs : list A) (body : A → M unit) : M unit :=
  match xs with
  | [] => mret ()
  | x :: xs' => body x ;; for_each xs' body
  end.

(** [assert(cond)] from [../helper]. *)
Definition assert (cond : bool) : M unit :=
  if cond then mret () else throw AssertionError.

(** *** Field updates *)

Definition set_frames (f : gmap string handle → gmap string handle)
    (m : FrameManager) : FrameManager :=
  {| _frames := f (_frames m); _contextIdToContext := _contextIdToContext m;
     _mainFrame := _mainFrame m; lastDocumentId := lastDocumentId m;
     store := store m; contextsCreated := contextsCreated m;
     calls := calls m |}.

Definition set_contexts
    (f : gmap Z ExecutionContext → gmap Z ExecutionContext)
    (m : FrameManager) : FrameManager :=
  {| _frames := _frames m; _contextIdToContext := f (_contextIdToContext m);
     _mainFrame := _mainFrame m; lastDocumentId := lastDocumentId m;
     store := store m; contextsCreated := contextsCreated m;
     calls := calls m |}.

Definition set_mainFrame (h : handle) (m : FrameManager) : FrameManager :=
  {| _frames := _frames m; _contextIdToContext := _contextIdToContext m;
     _mainFrame := Some h; lastDocumentId := lastDocumentId m;
     store := store m; contextsCreated := contextsCreated m;
     calls := calls m |}.

Definition set_lastDocumentId (n : N) (m : FrameManager) : FrameManager :=
  {| _frames := _frames m; _contextIdToContext := _contextIdToContext m;
     _mainFrame := _mainFrame m; lastDocumentId := n;
     store := store m; contextsCreated := contextsCreated m;
     calls := calls m |}.

Definition set_store (f : list Frame → list Frame) (m : FrameManager)
    : FrameManager :=
  {| _frames := _frames m; _contextIdToContext := _contextIdToContext m;
     _mainFrame := _mainFrame m; lastDocumentId := lastDocumentId m;
     store := f (store m); contextsCreated := contextsCreated m;
     calls := calls m |}.

Definition set_contextsCreated (n : nat) (m : FrameManager) : FrameManager :=
  {| _frames := _frames m; _contextIdToContext := _contextIdToContext m;
     _mainFrame := _mainFrame m; lastDocumentId := lastDocumentId m;
     store := store m; contextsCreated := n; calls := calls m |}.

Definition add_call (c : Call) (m : FrameManager) : FrameManager :=
  {| _frames := _frames m; _contextIdToContext := _contextIdToContext m;
     _mainFrame := _mainFrame m; lastDocumentId := lastDocumentId m;
     store := store m; contextsCreated := contextsCreated m;
     calls := calls m ++ [c] |}.

Definition log (c : Call) : M unit := modify (add_call c).

(** Reading and writing a Frame object through its handle. *)
Definition read (h : handle) : M Frame := λ m,
  match store m !! h with
  | Some f => Done f m
  | None => Dangling
  end.

Definition update (h : handle) (f : Frame → Frame) : M unit :=
  fr ← read h; modify (set_store (<[h := f fr]>)).

(** ** The [Frame] class

    The methods of [Frame] the manager calls.  [../frames] is not part of
    this source file, so each is modelled from the spec (sections 3 and
    4.1).  Navigation watchers subscribed to a frame are outside this
    model; the two new-document callbacks are logged because their argument
    is the allocated document id. *)

Definition with_frameData (id : string) (f : Frame) : Frame :=
  {| frameData_id := id; _parentFrame := _parentFrame f;
     _childFrames := _childFrames f;
     _firedLifecycleEvents := _firedLifecycleEvents f;
     _detached := _detached f; _url := _url f; _name := _name f;
     _lastDocumentId := _lastDocumentId f; _mainContext := _mainContext f;
     _utilityContext := _utilityContext f |}.

Definition with_childFrames (g : list handle → list handle) (f : Frame)
    : Frame :=
  {| frameData_id := frameData_id f; _parentFrame := _parentFrame f;
     _childFrames := g (_childFrames f);
     _firedLifecycleEvents := _firedLifecycleEvents f;
     _detached := _detached f; _url := _url f; _name := _name f;
     _lastDocumentId := _lastDocumentId f; _mainContext := _mainContext f;
     _utilityContext := _utilityContext f |}.

Definition with_fired (g : gset string → gset string) (f : Frame) : Frame :=
  {| frameData_id := frameData_id f; _parentFrame := _parentFrame f;
     _childFrames := _childFrames f;
     _firedLifecycleEvents := g (_firedLifecycleEvents f);
     _detached := _detached f; _url := _url f; _name := _name f;
     _lastDocumentId := _lastDocumentId f; _mainContext := _mainContext f;
     _utilityContext := _utilityContext f |}.

Definition with_detached (f : Frame) : Frame :=
  {| frameData_id := frameData_id f; _parentFrame := None;
     _childFrames := _childFrames f;
     _firedLifecycleEvents := _firedLifecycleEvents f;
     _detached := true; _url := _url f; _name := _name f;
     _lastDocumentId := _lastDocumentId f; _mainContext := _mainContext f;
     _utilityContext := _utilityContext f |}.

Definition with_document (url : string) (name : option string)
    (documentId : string) (f : Frame) : Frame :=
  {| frameData_id := frameData_id f; _parentFrame := _parentFrame f;
     _childFrames := _childFrames f; _firedLifecycleEvents := ∅;
     _detached := _detached f; _url := url; _name := name;
     _lastDocumentId := documentId; _mainContext := _mainContext f;
     _utilityContext := _utilityContext f |}.

Definition with_url (url : string) (f : Frame) : Frame :=
  {| frameData_id := frameData_id f; _parentFrame := _parentFrame f;
     _childFrames := _childFrames f;
     _firedLifecycleEvents := _firedLifecycleEvents f;
     _detached := _detached f; _url := url; _name := _name f;
     _lastDocumentId := _lastDocumentId f; _mainContext := _mainContext f;
     _utilityContext := _utilityContext f |}.

Definition with_context (w : World) (c : option ExecutionContext)
    (f : Frame) : Frame :=
  {| frameData_id := frameData_id f; _parentFrame := _parentFrame f;
     _childFrames := _childFrames f;
     _firedLifecycleEvents := _firedLifecycleEvents f;
     _detached := _detached f; _url := _url f; _name := _name f;
     _lastDocumentId := _lastDocumentId f;
     _mainContext := match w with main => c | utility => _mainContext f end;
     _utilityContext :=
       match w with main => _utilityContext f | utility => c end |}.

(** [Set.prototype.add] and [Set.prototype.delete] on an insertion-ordered
    set of handles. *)
Definition set_add (h : handle) (l : list handle) : list handle :=
  if bool_decide (h ∈ l) then l else l ++ [h].
Definition set_delete (h : handle) (l : list handle) : list handle :=
  filter (λ x, x ≠ h) l.

(** Modelled from the spec: the fields of a Frame as the constructor of the
    missing [Frame] class leaves them (no url, no document, nothing fired,
    not detached, no context). *)
Definition fresh_Frame (parentFrame : option handle) : Frame :=
  {| frameData_id := ""; _parentFrame := parentFrame; _childFrames := [];
     _firedLifecycleEvents := ∅; _detached := false; _url := "";
     _name := None; _lastDocumentId := ""; _mainContext := None;
     _utilityContext := None |}.

(** Modelled from the spec: [new Frame(page, parentFrame)] of the missing
    [Frame] class, a fresh object linked under its parent when there is
    one. *)
Definition new_Frame (parentFrame : option handle) : M handle :=
  m ← get_state;
  let this := length (store m) in
  modify (set_store (λ s, s ++ [fresh_Frame parentFrame]));;
  match parentFrame with
  | Some p => update p (with_childFrames (set_add this))
  | None => mret ()
  end;;
  mret this.

(** Modelled from the spec: [frame.childFrames()] of the missing [Frame]
    class, a snapshot array of the ordered child set. *)
Definition childFrames (this : handle) : M (list handle) :=
  f ← read this; mret (_childFrames f).

(** Modelled from the spec: [frame._onDetached()] of the missing [Frame]
    class; it sets the detached flag, unlinks the frame from its parent's
    child set and clears the back-reference. *)
Definition _onDetached (this : handle) : M unit :=
  f ← read this;
  match _parentFrame f with
  | Some p => update p (with_childFrames (set_delete this))
  | None => mret ()
  end;;
  update this with_detached.

(** Modelled from the spec: [frame._lifecycleEvent(event)] of the missing
    [Frame] class adds the event to the fired set. *)
Definition _lifecycleEvent (this : handle) (event : string) : M unit :=
  update this (with_fired (λ s, {[event]} ∪ s)).

(** Modelled from the spec: [frame._onExpectedNewDocumentNavigation] of the
    missing [Frame] class only informs the watchers. *)
Definition _onExpectedNewDocumentNavigation (this : handle)
    (documentId : string) : M unit :=
  log (ExpectedNewDocument this documentId).

(** Modelled from the spec: [frame._onCommittedNewDocumentNavigation] of the
    missing [Frame] class records url, name and document id; the new
    document starts with no lifecycle event fired. *)
Definition _onCommittedNewDocumentNavigation (this : handle) (url : string)
    (name : option string) (documentId : string) : M unit :=
  update this (with_document url name documentId);;
  log (CommittedNewDocument this documentId).

(** Modelled from the spec: [frame._onCommittedSameDocumentNavigation] of
    the missing [Frame] class records the url. *)
Definition _onCommittedSameDocumentNavigation (this : handle) (url : string)
    : M unit :=
  update this (with_url url).

(** Modelled from the spec: [frame._contextCreated(world, context)] of the
    missing [Frame] class makes [context] the current one of its world. *)
Definition _contextCreated (this : handle) (w : World)
    (context : ExecutionContext) : M unit :=
  update this (with_context w (Some context)).

(** Modelled from the spec: [frame._contextDestroyed(context)] of the
    missing [Frame] class clears the worlds whose current context it is. *)
Definition _contextDestroyed (this : handle) (context : ExecutionContext)
    : M unit :=
  f ← read this;
  (if bool_decide (_mainContext f = Some context)
   then update this (with_context main None) else mret ());;
  f ← read this;
  (if bool_decide (_utilityContext f = Some context)
   then update this (with_context utility None) else mret ()).

(** Modelled from the spec: [frame.executionContext()] of the missing
    [Frame] class is a promise of the frame's current main-world context;
    [None] stands for the promise staying pending while there is none. *)
Definition executionContext (this : handle) : M (option ExecutionContext) :=
  f ← read this; mret (_mainContext f).

(** ** The [FrameManager] class *)

(** [mainFrame()] *)
Definition mainFrame (m : FrameManager) : option handle := _mainFrame m.

(** [frame(frameId)]: [this._frames.get(frameId) || null] *)
Definition frame (frameId : string) (m : FrameManager) : option handle :=
  _frames m !! frameId.

(** [_frameData(frame).id] *)
Definition _frameData (frame : handle) : M string :=
  f ← read frame; mret (frameData_id f).

(** [_onFrameAttached(frameId, parentFrameId)] *)
Definition _onFrameAttached (frameId : string)
    (parentFrameId : option string) : M handle :=
  m ← get_state;
  assert (negb (bool_decide (is_Some (_frames m !! frameId))));;
  let parentFrame :=
    if truthy parentFrameId
    then _frames m !! default "" parentFrameId
    else None in
  frame ← new_Frame parentFrame;
  update frame (with_frameData frameId);;
  modify (set_frames (<[frameId := frame]>));;
  (if parentFrame is None then modify (set_mainFrame frame) else mret ());;
  log (Emit FrameAttached frame);;
  log (PageEmit Page_FrameAttached (Some frame));;
  mret frame.

(** [_removeFramesRecursively(frame)].  The recursion follows the object
    graph, so the model carries a budget: [fuel] bounds the depth. *)
Fixpoint _removeFramesRecursively (fuel : nat) (frame : handle) : M unit :=
  match fuel with
  | 0 => λ _, OutOfFuel
  | S fuel' =>
      children ← childFrames frame;
      for_each children (_removeFramesRecursively fuel');;
      _onDetached frame;;
      id ← _frameData frame;
      modify (set_frames (delete id));;
      log (Emit FrameDetached frame);;
      log (PageEmit Page_FrameDetached (Some frame))
  end.

(** [_onFrameDetached(frameId)] *)
Definition _onFrameDetached (fuel : nat) (frameId : string) : M unit :=
  m ← get_state;
  match _frames m !! frameId with
  | Some frame => _removeFramesRecursively fuel frame
  | None => mret ()
  end.

(** [++lastDocumentId] on a JavaScript number: integers are exact up to
    2^53, where adding one rounds back to 2^53. *)
Definition js_increment (n : N) : N :=
  if (n <? 2 ^ 53)%N then (n + 1)%N else n.

(** [framePayload.loaderId + '::' + (++lastDocumentId)]; a number below
    10^21 prints as its decimal digits. *)
Definition newDocumentId (loaderId : string) : M string :=
  m ← get_state;
  let n := js_increment (lastDocumentId m) in
  modify (set_lastDocumentId n);;
  mret (loaderId +:+ "::" +:+ pretty n).

(** The loop of [_onFrameNavigated] over [this._contextIdToContext.values()]:
    every context of [frame] is dropped from the map and the frame is told.
    (The order of the entries does not show in the resulting state.) *)
Definition disposeContextsOf (frame : handle) : M unit :=
  m ← get_state;
  for_each (map snd (map_to_list (_contextIdToContext m))) (λ context,
    if bool_decide (ctx_frame context = frame) then
      modify (set_contexts (delete (_contextId context)));;
      _contextDestroyed frame context
    else mret ()).

(** [_onFrameNavigated(framePayload, initial)] *)
Definition _onFrameNavigated (fuel : nat) (framePayload : FramePayload)
    (initial : bool) : M unit :=
  m ← get_state;
  let isMainFrame := negb (truthy (fp_parentId framePayload)) in
  let frame :=
    if isMainFrame then _mainFrame m else _frames m !! fp_id framePayload in
  match frame with
  | None => throw (TypeError "frame.childFrames: frame is undefined")
  | Some frame =>
      (* Detach all child frames first. *)
      children ← childFrames frame;
      for_each children (_removeFramesRecursively fuel);;
      (if isMainFrame then
         (* Update frame id to retain frame identity. *)
         id ← _frameData frame;
         modify (set_frames (delete id));;
         update frame (with_frameData (fp_id framePayload));;
         modify (set_frames (<[fp_id framePayload := frame]>))
       else mret ());;
      disposeContextsOf frame;;
      documentId ← newDocumentId (fp_loaderId framePayload);
      (if initial then mret ()
       else _onExpectedNewDocumentNavigation frame documentId);;
      _onCommittedNewDocumentNavigation frame (fp_url framePayload)
        (fp_name framePayload) documentId;;
      log (Emit FrameNavigated frame);;
      log (PageEmit Page_FrameNavigated (Some frame))
  end.

(** [_onFrameNavigatedWithinDocument(frameId, url)] *)
Definition _onFrameNavigatedWithinDocument (frameId url : string) : M unit :=
  m ← get_state;
  match _frames m !! frameId with
  | None => mret ()
  | Some frame =>
      _onCommittedSameDocumentNavigation frame url;;
      log (Emit FrameNavigatedWithinDocument frame);;
      log (Emit FrameNavigated frame);;
      log (PageEmit Page_FrameNavigated (Some frame))
  end.

(** [_onFrameStoppedLoading(frameId)] *)
Definition _onFrameStoppedLoading (frameId : string) : M unit :=
  m ← get_state;
  match _frames m !! frameId with
  | None => mret ()
  | Some frame =>
      f ← read frame;
      let hasDOMContentLoaded :=
        bool_decide ("domcontentloaded" ∈ _firedLifecycleEvents f) in
      let hasLoad := bool_decide ("load" ∈ _firedLifecycleEvents f) in
      _lifecycleEvent frame "domcontentloaded";;
      _lifecycleEvent frame "load";;
      log (Emit LifecycleEvent frame);;
      m ← get_state;
      (if bool_decide (Some frame = mainFrame m) && negb hasDOMContentLoaded
       then log (PageEmit Page_DOMContentLoaded None) else mret ());;
      (if bool_decide (Some frame = mainFrame m) && negb hasLoad
       then log (PageEmit Page_Load None) else mret ())
  end.

(** [_onLifecycleEvent(frameId, event)] *)
Definition _onLifecycleEvent (frameId event : string) : M unit :=
  m ← get_state;
  match _frames m !! frameId with
  | None => mret ()
  | Some frame =>
      _lifecycleEvent frame event;;
      log (Emit LifecycleEvent frame);;
      m ← get_state;
      if bool_decide (Some frame = mainFrame m) then
        (if bool_decide (event = "load")
         then log (PageEmit Page_Load None) else mret ());;
        (if bool_decide (event = "domcontentloaded")
         then log (PageEmit Page_DOMContentLoaded None) else mret ())
      else mret ()
  end.

(** [new js.ExecutionContext(...)] with its DOM world bound to [frame]. *)
Definition new_ExecutionContext (payload : ExecutionContextDescription)
    (frame : handle) : M ExecutionContext :=
  m ← get_state;
  modify (set_contextsCreated (S (contextsCreated m)));;
  mret {| ctx_serial := contextsCreated m; ctx_payload := payload;
          ctx_frame := frame |}.

(** [_onExecutionContextCreated(contextPayload)] *)
Definition _onExecutionContextCreated
    (contextPayload : ExecutionContextDescription) : M unit :=
  m ← get_state;
  if bool_decide (is_Some (_contextIdToContext m !! ecd_id contextPayload))
  then mret ()
  else
    match _frames m !! ecd_frameId contextPayload with
    | None => mret ()
    | Some frame =>
        context ← new_ExecutionContext contextPayload frame;
        (if ecd_isPageContext contextPayload
         then _contextCreated frame main context
         else if bool_decide (ecd_name contextPayload = UTILITY_WORLD_NAME)
         then _contextCreated frame utility context
         else mret ());;
        modify (set_contexts (<[ecd_id contextPayload := context]>))
    end.

(** [executionContextById(contextId)] *)
Definition executionContextById (contextId : Z) : M ExecutionContext :=
  m ← get_state;
  match _contextIdToContext m !! contextId with
  | Some context => mret context
  | None => throw AssertionError
  end.

(** ** Protocol events

    The calls [_addSessionListeners] and [_handleFrameTree] make on the
    registry, as data. *)
Inductive Op :=
| OnFrameAttached (frameId : string) (parentFrameId : option string)
| OnFrameNavigated (framePayload : FramePayload) (initial : bool)
| OnFrameNavigatedWithinDocument (frameId url : string)
| OnFrameDetached (frameId : string)
| OnFrameStoppedLoading (frameId : string)
| OnLifecycleEvent (frameId event : string)
| OnExecutionContextCreated (contextPayload : ExecutionContextDescription).

(** A recursion budget that suffices in every state the manager reaches
    (see [call_returns_or_throws]): the number of Frame objects. *)
Definition budget (m : FrameManager) : nat := length (store m).

Definition call (op : Op) : M unit :=
  match op with
  | OnFrameAttached frameId parentFrameId =>
      _onFrameAttached frameId parentFrameId;; mret ()
  | OnFrameNavigated framePayload initial =>
      m ← get_state; _onFrameNavigated (budget m) framePayload initial
  | OnFrameNavigatedWithinDocument frameId url =>
      _onFrameNavigatedWithinDocument frameId url
  | OnFrameDetached frameId =>
      m ← get_state; _onFrameDetached (budget m) frameId
  | OnFrameStoppedLoading frameId => _onFrameStoppedLoading frameId
  | OnLifecycleEvent frameId event => _onLifecycleEvent frameId event
  | OnExecutionContextCreated contextPayload =>
      _onExecutionContextCreated contextPayload
  end.

(** The state a call leaves behind, whether it returned or threw. *)
Definition after (op : Op) (m : FrameManager) : FrameManager :=
  match call op m with
  | Done _ m' => m'
  | Threw _ m' => m'
  | OutOfFuel => m
  | Dangling => m
  end.

Definition run (ops : list Op) (m : FrameManager) : FrameManager :=
  foldl (λ m op, after op m) m ops.

(** The states of a manager that started fresh. *)
Definition reachable (m : FrameManager) : Prop :=
  ∃ ops, m = run ops new_FrameManager.

(** ** A process with several pages

    [lastDocumentId] is a variable of the module, shared by the managers of
    all pages of the process: a manager runs on the current value of the
    counter and leaves its new value behind. *)
Record Process := {
  counter : N;
  managers : list FrameManager;
}.

Definition fresh_Process (pages : nat) : Process :=
  {| counter := 0; managers := replicate pages new_FrameManager |}.

(** The event [op] arrives at the manager of page [i]. *)
Definition deliver (p : Process) (event : nat * Op) : Process :=
  match managers p !! event.1 with
  | None => p
  | Some m =>
      let m' := after event.2 (set_lastDocumentId (counter p) m) in
      {| counter := lastDocumentId m';
         managers := <[event.1 := m']> (managers p) |}
  end.

Definition deliver_all (events : list (nat * Op)) (p : Process) : Process :=
  foldl deliver p events.

(** ** Console routing *)

Section Console.
(** [JSON.parse(objectId).injectedScriptId], the key handed to
    [this._contextIdToContext.get]: [None] when evaluating the expression
    throws, [Some None] when it yields something that is not a number,
    [Some (Some k)] for the number [k].  [JSON.parse] is the platform's;
    the manager is modelled for any such decoder. *)
Variable injectedScriptId : string → option (option Z).

(** [this._contextIdToContext.get(JSON.parse(objectId).injectedScriptId)] *)
Definition contextOfObjectId (objectId : option string)
    : M (option ExecutionContext) :=
  match objectId with
  | None => throw SyntaxError
  | Some s =>
      match injectedScriptId s with
      | None => throw SyntaxError
      | Some key =>
          m ← get_state;
          mret (key ≫= λ k, _contextIdToContext m !! k)
      end
  end.

(** [xs.map(f)] for an [f] that may throw. *)
Fixpoint map_M {A B} (f : A → M B) (xs : list A) : M (list B) :=
  match xs with
  | [] => mret []
  | x :: xs' => y ← f x; ys ← map_M f xs'; mret (y :: ys)
  end.

(** How far an [async] method got: it ran to its end, or it is still
    waiting on a promise nothing has resolved. *)
Inductive Progress := Finished | Waiting.

(** The guard of the binding branch:
    [level === 'debug' && parameters && parameters[0].value === BINDING_CALL_MESSAGE] *)
Definition isBindingCall (message : ConsoleMessagePayload) : M bool :=
  if bool_decide (cm_level message = "debug") then
    match cm_parameters message with
    | None => mret false
    | Some parameters =>
        match parameters !! 0 with
        | None => throw (TypeError "parameters[0] is undefined")
        | Some p0 => mret (strict_eq_string (ro_value p0) BINDING_CALL_MESSAGE)
        end
    end
  else mret false.

Definition derivedType (message : ConsoleMessagePayload) : string :=
  if bool_decide (cm_type message = "log") then cm_level message
  else if bool_decide (cm_type message = "timing") then "timeEnd"
  else cm_type message.

(** The execution context a console parameter is turned into a handle in. *)
Definition handleOf (mainFrameContext : ExecutionContext) (p : RemoteObject)
    : M JSHandle :=
  context ←
    (if truthy (ro_objectId p) then contextOfObjectId (ro_objectId p)
     else mret (Some mainFrameContext));
  match context with
  | None => throw (TypeError "context is undefined")
  | Some context => mret {| jsh_context := context; jsh_remote := p |}
  end.

(** [_onConsoleMessage(event)]; it is left [Waiting] when the promise of
    the main frame's context is pending. *)
Definition _onConsoleMessage (message : ConsoleMessagePayload)
    : M Progress :=
  let parameters := cm_parameters message in
  binding ← isBindingCall message;
  if (binding : bool) then
    let parameters := default [] parameters in
    match parameters !! 1 with
    | None => throw (TypeError "parameters[1] is undefined")
    | Some p1 =>
        context ← contextOfObjectId (ro_objectId p1);
        match parameters !! 2 with
        | None => throw (TypeError "parameters[2] is undefined")
        | Some p2 =>
            log (BindingCalled (ro_value p2) context);;
            mret Finished
        end
    end
  else
    m ← get_state;
    match mainFrame m with
    | None => throw (TypeError "mainFrame() is undefined")
    | Some mf =>
        awaited ← executionContext mf;
        match awaited with
        | None => mret Waiting
        | Some mainFrameContext =>
            handles ← map_M (handleOf mainFrameContext)
                             (default [] parameters);
            log (AddConsoleMessage (derivedType message) handles
                   {| loc_url := cm_url message;
                      loc_lineNumber := cm_line message - 1;
                      loc_columnNumber := cm_column message - 1 |}
                   (if bool_decide (handles = []) then Some (cm_text message)
                    else None));;
            mret Finished
        end
    end.
End Console.

(** ** Waiting for a navigation *)

(** [frames.GotoOptions] / [frames.NavigateOptions]: both fields optional. *)
Record NavigateOptions := {
  opt_timeout : option Z;
  opt_waitUntil : option (list string);
}.

(** Modelled from the spec: the [LifecycleWatcher] class of [../frames],
    which is not part of this source file.  The spec (sections 3 and 4.3):
    a watcher is made for one frame, a set of required lifecycle events
    and a timeout; [dispose] unsubscribes it; its lifecycle condition holds
    when every required event has fired for the current document. *)
Record LifecycleWatcher := {
  lw_frame : handle;
  lw_expectedLifecycle : list string;
  lw_timeout : Z;
  lw_disposed : bool;
}.

(** Modelled from the spec: [new LifecycleWatcher(frame, waitUntil,
    timeout)] of the missing class; the watcher starts subscribed. *)
Definition new_LifecycleWatcher (frame : handle) (waitUntil : list string)
    (timeout : Z) : LifecycleWatcher :=
  {| lw_frame := frame; lw_expectedLifecycle := waitUntil;
     lw_timeout := timeout; lw_disposed := false |}.

(** Modelled from the spec: [watchDog.dispose()] of the missing class
    unsubscribes the watcher. *)
Definition dispose (w : LifecycleWatcher) : LifecycleWatcher :=
  {| lw_frame := lw_frame w; lw_expectedLifecycle := lw_expectedLifecycle w;
     lw_timeout := lw_timeout w; lw_disposed := true |}.

(** Modelled from the spec: the lifecycle condition of the missing class
    holds when every required event is in the fired set (section 4.3). *)
Definition lifecycleSatisfied (w : LifecycleWatcher) (fired : gset string)
    : bool :=
  forallb (λ e, bool_decide (e ∈ fired)) (lw_expectedLifecycle w).

(** How an awaited promise settles. *)
Inductive Settled (A : Type) :=
| Resolved (a : A)
| Rejected (error : string).
Arguments Resolved {A} a.
Arguments Rejected {A} error.

(** What a navigation method leaves behind: how its own promise settled
    and the watcher it created, as it is when the method exits. *)
Record Navigation (A : Type) := {
  nav_result : Settled A;
  nav_watchDog : LifecycleWatcher;
}.
Arguments nav_result {A} _.
Arguments nav_watchDog {A} _.

Section Navigation.
(** [this._page._timeoutSettings.navigationTimeout()] *)
Variable navigationTimeout : Z.
(** The network response type; [watchDog.navigationResponse()] yields one
    or [null]. *)
Variable Response : Type.

(** [navigateFrame(frame, url, options)].  [sent] is how
    [this._session.send('Page.navigate', ...)] settles, [raced] the value
    the race over the watcher's promises resolves with ([None] for
    [null]), [response] what [navigationResponse()] returns. *)
Definition navigateFrame (frame : handle) (url : string)
    (options : NavigateOptions) (sent : Settled unit)
    (raced : option string) (response : option Response)
    : Navigation (option Response) :=
  let timeout := default navigationTimeout (opt_timeout options) in
  let waitUntil := default ["load"] (opt_waitUntil options) in
  let watchDog := new_LifecycleWatcher frame waitUntil timeout in
  match sent with
  | Rejected e => {| nav_result := Rejected e; nav_watchDog := watchDog |}
  | Resolved _ =>
      let error := raced in
      let watchDog := dispose watchDog in
      match error with
      | Some e => {| nav_result := Rejected e; nav_watchDog := watchDog |}
      | None =>
          {| nav_result := Resolved response; nav_watchDog := watchDog |}
      end
  end.

(** [waitForFrameNavigation(frame, options)] *)
Definition waitForFrameNavigation (frame : handle)
    (options : NavigateOptions) (raced : option string)
    (response : option Response) : Navigation (option Response) :=
  let timeout := default navigationTimeout (opt_timeout options) in
  let waitUntil := default ["load"] (opt_waitUntil options) in
  let watchDog := new_LifecycleWatcher frame waitUntil timeout in
  let error := raced in
  let watchDog := dispose watchDog in
  match error with
  | Some e => {| nav_result := Rejected e; nav_watchDog := watchDog |}
  | None => {| nav_result := Resolved response; nav_watchDog := watchDog |}
  end.

(** [setFrameContent(frame, html, options)].  [evaluated] is how
    [frame.evaluate(...)] settles. *)
Definition setFrameContent (frame : handle) (html : string)
    (options : NavigateOptions) (evaluated : Settled unit)
    (raced : option string) : Navigation unit :=
  let timeout := default navigationTimeout (opt_timeout options) in
  let waitUntil := default ["load"] (opt_waitUntil options) in
  let watchDog := new_LifecycleWatcher frame waitUntil timeout in
  match evaluated with
  | Rejected e => {| nav_result := Rejected e; nav_watchDog := watchDog |}
  | Resolved _ =>
      let error := raced in
      let watchDog := dispose watchDog in
      match error with
      | Some e => {| nav_result := Rejected e; nav_watchDog := watchDog |}
      | None => {| nav_result := Resolved (); nav_watchDog := watchDog |}
      end
  end.
End Navigation.

(** * Specification vocabulary *)

(** ** The frame tree held in the store *)

Definition parent (s : list Frame) (h : handle) : option handle :=
  s !! h ≫= _parentFrame.

Definition children (s : list Frame) (h : handle) : list handle :=
  default [] (_childFrames <$> s !! h).

Definition frameId_of (s : list Frame) (h : handle) : option string :=
  frameData_id <$> s !! h.

(** [p] is the parent of [c]. *)
Definition child_step (s : list Frame) (p c : handle) : Prop :=
  parent s c = Some p.

(** [h] lies in the subtree rooted at [r] ([r] itself included). *)
Definition in_subtree (s : list Frame) (r h : handle) : Prop :=
  rtc (child_step s) r h.

(** The chain of ancestors of [h], nearest first; [n] bounds its length. *)
Fixpoint ancestors (n : nat) (s : list Frame) (h : handle) : list handle :=
  match n with
  | 0 => []
  | S n' =>
      match parent s h with
      | Some p => p :: ancestors n' s p
      | None => []
      end
  end.

(** The transitive descendants of [r]: the frames with [r] among their
    ancestors. *)
Definition descendants (s : list Frame) (r : handle) : list handle :=
  filter (λ h, r ∈ ancestors (length s) s h) (seq 0 (length s)).

(** Parent links and child sets agree, a child is younger than its parent,
    and no child is listed twice. *)
Record wf_store (s : list Frame) : Prop := {
  wf_parent : ∀ h p, parent s h = Some p → p < h ∧ h ∈ children s p;
  wf_child : ∀ p c, c ∈ children s p → parent s c = Some p;
  wf_nodup : ∀ p, NoDup (children s p);
}.

(** Every handle the manager holds names an object of the store. *)
Record wf (m : FrameManager) : Prop := {
  wf_tree : wf_store (store m);
  wf_frames : ∀ id h, _frames m !! id = Some h → h < length (store m);
  wf_mainFrame : ∀ h, _mainFrame m = Some h → h < length (store m);
  wf_contexts : ∀ k c,
    _contextIdToContext m !! k = Some c → ctx_frame c < length (store m);
}.

(** ** Reading the call log *)

(** The frames [FrameManagerEvents.e] was emitted for, in order. *)
Definition emitted (e : FrameManagerEvent) (cs : list Call) : list handle :=
  omap (λ c, match c with
             | Emit e' h => if bool_decide (e' = e) then Some h else None
             | _ => None
             end) cs.

(** The arguments [Events.Page.e] was emitted with on the page, in order. *)
Definition page_emitted (e : PageEvent) (cs : list Call)
    : list (option handle) :=
  omap (λ c, match c with
             | PageEmit e' h => if bool_decide (e' = e) then Some h else None
             | _ => None
             end) cs.

(** The document ids committed so far, in order. *)
Definition documentIds (cs : list Call) : list string :=
  omap (λ c, match c with
             | CommittedNewDocument _ d => Some d
             | _ => None
             end) cs.

(** [x] occurs in [l] at an earlier position than some occurrence of [y]. *)
Definition before {A} (x y : A) (l : list A) : Prop :=
  ∃ l1 l2 l3, l = l1 ++ x :: l2 ++ y :: l3.

(** ** The effect of detaching a set of frames *)

(** The calls one detached frame costs. *)
Definition detach_calls (h : handle) : list Call :=
  [Emit FrameDetached h; PageEmit Page_FrameDetached (Some h)].

(** The store once the frames [D] are detached: they lose their parent and
    are flagged, and no child set lists them any more. *)
Definition prune (D : list handle) (s : list Frame) : list Frame :=
  imap (λ h f,
    (if bool_decide (h ∈ D) then with_detached else id)
      (with_childFrames (filter (λ c, c ∉ D)) f)) s.

(** [m'] is [m] after the frames [D] were removed, in that order. *)
Record removed (m : FrameManager) (D : list handle) (m' : FrameManager)
    : Prop := {
  rm_calls : calls m' = calls m ++ flat_map detach_calls D;
  rm_store : store m' = prune D (store m);
  rm_frames : ∀ id,
    _frames m' !! id =
      if bool_decide (Some id ∈ frameId_of (store m) <$> D) then None
      else _frames m !! id;
  rm_mainFrame : _mainFrame m' = _mainFrame m;
  rm_contexts : _contextIdToContext m' = _contextIdToContext m;
  rm_lastDocumentId : lastDocumentId m' = lastDocumentId m;
  rm_contextsCreated : contextsCreated m' = contextsCreated m;
}.

(** [D] lists the subtree of [r] once each, children before parents. *)
Record subtree_order (s : list Frame) (r : handle) (D : list handle)
    : Prop := {
  so_nodup : NoDup D;
  so_elem : ∀ h, h ∈ D ↔ in_subtree s r h;
  so_order : ∀ c p, c ∈ D → p ∈ D → parent s c = Some p → before c p D;
}.

(** ** Reasoning about a call

    [wp T c Q E m]: run from [m], the call [c] returns a value and a state
    satisfying [Q], or throws in a state satisfying [E]; [T] says whether it
    may also stop short ([T := False] demands that it settles). *)
Definition wp (T : Prop) {A} (c : M A) (Q : A → FrameManager → Prop)
    (E : FrameManager → Prop) (m : FrameManager) : Prop :=
  match c m with
  | Done a m' => Q a m'
  | Threw _ m' => E m'
  | OutOfFuel => T
  | Dangling => T
  end.

(** A Frame update that leaves the tree links alone. *)
Definition keeps_links (g : Frame → Frame) : Prop :=
  ∀ f, _parentFrame (g f) = _parentFrame f
       ∧ _childFrames (g f) = _childFrames f.

(** [m'] has the registry, the main frame, the frame ids and the tree of
    [m]. *)
Record same_registry (m m' : FrameManager) : Prop := {
  sr_frames : _frames m' = _frames m;
  sr_mainFrame : _mainFrame m' = _mainFrame m;
  sr_length : length (store m') = length (store m);
  sr_frameId : ∀ h, frameId_of (store m') h = frameId_of (store m) h;
  sr_parent : ∀ h, parent (store m') h = parent (store m) h;
  sr_children : ∀ h, children (store m') h = children (store m) h;
}.

(** [m'] has committed the documents of [m] and no other, and the counter
    stands where it stood. *)
Record same_documents (m m' : FrameManager) : Prop := {
  sd_documentIds : documentIds (calls m') = documentIds (calls m);
  sd_lastDocumentId : lastDocumentId m' = lastDocumentId m;
}.

(** The document ids committed by the pages of a process. *)
Definition process_documentIds (p : Process) : list string :=
  mjoin ((λ m, documentIds (calls m)) <$> managers p).

(** The document id made of a loader id and a counter value. *)
Definition documentId_of (loaderId : string) (n : N) : string :=
  loaderId +:+ "::" +:+ pretty n.

(** Every committed document id was made from a counter value the counter
    has reached, and no two are the same. *)
Record documents_ok (m : FrameManager) : Prop := {
  do_nodup : NoDup (documentIds (calls m));
  do_counter : ∀ d, d ∈ documentIds (calls m) →
    ∃ loaderId n, d = documentId_of loaderId n ∧ (n ≤ lastDocumentId m)%N;
}.

(** Whether the character [:] occurs in a string. *)
Fixpoint has_colon (s : string) : bool :=
  match s with
  | EmptyString => false
  | String c s' => bool_decide (c = ":"%char) || has_colon s'
  end.

(** ** One main frame *)

(** The frame is in the registry. *)
Definition registered (m : FrameManager) (h : handle) : Prop :=
  ∃ id, _frames m !! id = Some h.

(** What [_onFrameAttached] resolves [parentFrameId] to. *)
Definition resolvedParent (m : FrameManager) (parentFrameId : option string)
    : option handle :=
  if truthy parentFrameId then _frames m !! default "" parentFrameId
  else None.

(** The events that keep one tree: an attach names a registered parent
    unless it is the first, and no detach names the main frame. *)
Definition tame (m : FrameManager) (op : Op) : Prop :=
  match op with
  | OnFrameAttached _ parentFrameId =>
      mainFrame m = None ∨ is_Some (resolvedParent m parentFrameId)
  | OnFrameDetached frameId =>
      ∀ F, mainFrame m = Some F → frame frameId m ≠ Some F
  | _ => True
  end.

Fixpoint tame_run (m : FrameManager) (ops : list Op) : Prop :=
  match ops with
  | [] => True
  | op :: ops' => tame m op ∧ tame_run (after op m) ops'
  end.

(** The registry holds one tree: a frame is registered under the id it
    carries, the main frame is registered and has no parent, every other
    registered frame has a registered parent, and the children of a
    registered frame are registered. *)
Record single_root (m : FrameManager) : Prop := {
  sr_keys : ∀ id h, _frames m !! id = Some h →
    frameId_of (store m) h = Some id;
  sr_none : _mainFrame m = None → _frames m = ∅;
  sr_main : ∀ F, _mainFrame m = Some F →
    registered m F ∧ parent (store m) F = None;
  sr_others : ∀ h, registered m h → _mainFrame m ≠ Some h →
    ∃ p, parent (store m) h = Some p ∧ registered m p;
  sr_kids : ∀ p c, registered m p → c ∈ children (store m) p →
    registered m c;
}.

(** ** Console parameters *)

(** The context whose id the parameter's [objectId] carries, if it is
    registered. *)
Definition namedContext (injectedScriptId : string → option (option Z))
    (m : FrameManager) (p : RemoteObject) : option ExecutionContext :=
  objectId ← ro_objectId p;
  key ← injectedScriptId objectId;
  k ← key;
  _contextIdToContext m !! k.

(** The handle a console parameter is to be hydrated into: in the context
    its [objectId] names when it carries one, in [mainFrameContext]
    otherwise. *)
Definition hydrated (injectedScriptId : string → option (option Z))
    (m : FrameManager) (mainFrameContext : ExecutionContext)
    (p : RemoteObject) : option JSHandle :=
  context ←
    (if truthy (ro_objectId p) then namedContext injectedScriptId m p
     else Some mainFrameContext);
  Some {| jsh_context := context; jsh_remote := p |}.

(** The call [_onConsoleMessage] makes for a binding signal. *)
Definition bindingCall (injectedScriptId : string → option (option Z))
    (m : FrameManager) (p1 p2 : RemoteObject) : Call :=
  BindingCalled (ro_value p2) (namedContext injectedScriptId m p1).

(** The call [_onConsoleMessage] makes for a console message. *)
Definition consoleCall (message : ConsoleMessagePayload)
    (handles : list JSHandle) : Call :=
  AddConsoleMessage (derivedType message) handles
    {| loc_url := cm_url message; loc_lineNumber := cm_line message - 1;
       loc_columnNumber := cm_column message - 1 |}
    (if bool_decide (handles = []) then Some (cm_text message) else None).

(** ** States used as examples *)

(** A main frame [a] with the children [b] and [d]; [b] has the child [c]. *)
Definition example_tree : FrameManager :=
  run [OnFrameAttached "a" None; OnFrameAttached "b" (Some "a");
       OnFrameAttached "c" (Some "b"); OnFrameAttached "d" (Some "a")]
      new_FrameManager.

Definition example_payload (id : string) (parentId : option string)
    (loaderId : string) : FramePayload :=
  {| fp_id := id; fp_parentId := parentId; fp_loaderId := loaderId;
     fp_name := None; fp_url := "about:blank" |}.

(** The main frame [a] after [domcontentloaded] fired but not [load]. *)
Definition example_loading : FrameManager :=
  run [OnFrameAttached "a" None;
       OnFrameNavigated (example_payload "a" None "L") false;
       OnLifecycleEvent "a" "domcontentloaded"]
      new_FrameManager.

Definition example_context (id : Z) (frameId : string)
    : ExecutionContextDescription :=
  {| ecd_id := id; ecd_isPageContext := true; ecd_name := "";
     ecd_frameId := frameId |}.

(** [example_tree] with the main-world context 1 of frame [a]. *)
Definition example_contexts : FrameManager :=
  run [OnExecutionContextCreated (example_context 1 "a")] example_tree.

Definition default_options : NavigateOptions :=
  {| opt_timeout := None; opt_waitUntil := None |}.

(** A decoder for the examples: the object id [ctx1] carries context 1. *)
Definition example_decoder (objectId : string) : option (option Z) :=
  if bool_decide (objectId = "ctx1") then Some (Some 1%Z) else None.

(** A console message whose parameters are the binding sentinel, an object
    of context 1 and the number 7. *)
Definition example_message (level : string) : ConsoleMessagePayload :=
  {| cm_type := "log"; cm_level := level;
     cm_text := BINDING_CALL_MESSAGE;
     cm_parameters := Some [
       {| ro_value := JsString BINDING_CALL_MESSAGE; ro_objectId := None |};
       {| ro_value := JsUndefined; ro_objectId := Some "ctx1" |};
       {| ro_value := JsNumber 7; ro_objectId := None |}];
     cm_url := None; cm_line := 1; cm_column := 1 |}.

(** The main-world context of frame [a] in [example_contexts]. *)
Definition example_main_context : ExecutionContext :=
  {| ctx_serial := 0; ctx_payload := example_context 1 "a"; ctx_frame := 0 |}.

(** The parameters of [example_message], each hydrated in
    [example_main_context]. *)
Definition example_handles : list JSHandle :=
  (λ p, {| jsh_context := example_main_context; jsh_remote := p |})
    <$> default [] (cm_parameters (example_message "log")).

(** An attach of [b] under the unregistered parent [ghost], after the main
    frame [a]. *)
Definition example_orphan : FrameManager :=
  run [OnFrameAttached "a" None; OnFrameAttached "b" (Some "ghost")]
      new_FrameManager.

(** Once a Frame object was made the manager has a main frame. *)
Definition has_main (m : FrameManager) : Prop :=
  store m ≠ [] → is_Some (_mainFrame m).

(** * Invariants of the call log *)

(** The page-level frame events repeat the manager-level ones: the same
    frames, in the same order. *)
Definition mirrored (cs : list Call) : Prop :=
  page_emitted Page_FrameAttached cs = Some <$> emitted FrameAttached cs
  ∧ page_emitted Page_FrameDetached cs = Some <$> emitted FrameDetached cs
  ∧ page_emitted Page_FrameNavigated cs = Some <$> emitted FrameNavigated cs.

(** [m'] has as many Frame objects as [m] and the main frame of [m], and
    its log continues the log of [m] with calls that announce no new frame
    and are mirrored. *)
Record quiet (m m' : FrameManager) : Prop := {
  q_length : length (store m') = length (store m);
  q_mainFrame : _mainFrame m' = _mainFrame m;
  q_calls : ∃ extra,
    calls m' = calls m ++ extra
    ∧ emitted FrameAttached extra = [] ∧ mirrored extra;
}.

(** The log is mirrored, and [FrameAttached] was emitted once for each Frame
    object, in the order the objects were made. *)
Record log_ok (m : FrameManager) : Prop := {
  lo_mirrored : mirrored (calls m);
  lo_attached : emitted FrameAttached (calls m) = seq 0 (length (store m));
}.


(** * Invariants of the registry *)

(** [c] is the current context of one of the worlds of [f]. *)
Definition current (f : Frame) (c : ExecutionContext) : Prop :=
  _mainContext f = Some c ∨ _utilityContext f = Some c.

(** A frame is registered under the id it carries, the main frame has no
    parent, a context is registered under its own id, and the current
    context of a frame's world belongs to that frame and is registered. *)
Record registry_ok (m : FrameManager) : Prop := {
  ro_keys : ∀ id h, _frames m !! id = Some h →
    ∃ f, store m !! h = Some f ∧ frameData_id f = id;
  ro_main : ∀ F, _mainFrame m = Some F →
    ∃ f, store m !! F = Some f ∧ _parentFrame f = None;
  ro_contexts : ∀ k c,
    _contextIdToContext m !! k = Some c → _contextId c = k;
  ro_current : ∀ h f c, store m !! h = Some f → current f c →
    ctx_frame c = h ∧ _contextIdToContext m !! _contextId c = Some c;
}.

(** A Frame update that keeps the id and the current contexts, and keeps the
    parent link or clears it. *)
Definition keeps_registry (g : Frame → Frame) : Prop :=
  ∀ f, frameData_id (g f) = frameData_id f
       ∧ (_parentFrame (g f) = _parentFrame f ∨ _parentFrame (g f) = None)
       ∧ _mainContext (g f) = _mainContext f
       ∧ _utilityContext (g f) = _utilityContext f.

(** [registry_ok] while [x] is being disposed of: [x] has left the map of
    contexts and may still be current. *)
Record disposing (x : ExecutionContext) (m : FrameManager) : Prop := {
  di_keys : ∀ id h, _frames m !! id = Some h →
    ∃ f, store m !! h = Some f ∧ frameData_id f = id;
  di_main : ∀ F, _mainFrame m = Some F →
    ∃ f, store m !! F = Some f ∧ _parentFrame f = None;
  di_contexts : ∀ k c,
    _contextIdToContext m !! k = Some c → _contextId c = k;
  di_current : ∀ h f c, store m !! h = Some f → current f c →
    ctx_frame c = h
    ∧ (c = x ∨ _contextIdToContext m !! _contextId c = Some c);
}.


(** * Leaving the target *)

(** [disconnectFromTarget()]: the frame of every registered context is told
    that the context is gone; the map of contexts itself is left as it is.
    ([_dispose] acts on the delegate of the context, which is no part of
    the manager's state, as in [disposeContextsOf].) *)
Definition disconnectFromTarget : M unit :=
  m ← get_state;
  for_each (map snd (map_to_list (_contextIdToContext m))) (λ context,
    _contextDestroyed (ctx_frame context) context).

(** [didClose()], the session listeners left aside. *)
Definition didClose : M unit := disconnectFromTarget.


(** * Seeding from the resource tree *)

(** The [frameTree] of [Page.getResourceTree]: a frame payload with an
    optional array of child trees. *)
#[local] Unset Elimination Schemes.
Inductive FrameTree :=
| Build_FrameTree (frame : FramePayload)
    (childFrames : option (list FrameTree)).
#[local] Set Elimination Schemes.

(** [_handleFrameTree(frameTree)]; the loop over [frameTree.childFrames] is
    [for_each] written out, for the recursion to be structural. *)
Fixpoint _handleFrameTree (frameTree : FrameTree) : M unit :=
  match frameTree with
  | Build_FrameTree frame childFrames =>
      _onFrameAttached (fp_id frame) (fp_parentId frame);;
      (m ← get_state; _onFrameNavigated (budget m) frame true);;
      match childFrames with
      | None => mret ()
      | Some children =>
          (fix for_of (children : list FrameTree) : M unit :=
             match children with
             | [] => mret ()
             | child :: rest => _handleFrameTree child;; for_of rest
             end) children
      end
  end.

(** The protocol events a frame tree stands for: each frame is attached and
    then navigated, a parent before its children. *)
Fixpoint tree_events (frameTree : FrameTree) : list Op :=
  match frameTree with
  | Build_FrameTree frame childFrames =>
      OnFrameAttached (fp_id frame) (fp_parentId frame)
      :: OnFrameNavigated frame true
      :: match childFrames with
         | None => []
         | Some children =>
             (fix events (children : list FrameTree) : list Op :=
                match children with
                | [] => []
                | child :: rest => tree_events child ++ events rest
                end) children
         end
  end.

(** The frame ids of a frame tree, a parent before its children. *)
Fixpoint tree_ids (frameTree : FrameTree) : list string :=
  match frameTree with
  | Build_FrameTree frame childFrames =>
      fp_id frame
      :: match childFrames with
         | None => []
         | Some children =>
             (fix ids (children : list FrameTree) : list string :=
                match children with
                | [] => []
                | child :: rest => tree_ids child ++ ids rest
                end) children
         end
  end.

(** A root [a] with the children [b] and [c]. *)
Definition example_frameTree : FrameTree :=
  Build_FrameTree (example_payload "a" None "L")
    (Some [Build_FrameTree (example_payload "b" (Some "a") "L") None;
           Build_FrameTree (example_payload "c" (Some "a") "L") (Some [])]).


(** * Isolated worlds and bootstrap scripts *)

(** The commands the methods below give to [this._session.send]. *)
Inductive Command :=
| Page_createIsolatedWorld (name source : string)
| Page_setBootstrapScript (source : string).

(** The fields of the manager that the protocol handlers never touch, with
    what the methods below do to the outside: the commands given to the
    session and the scripts [frame.evaluate] was called with, in order. *)
Record SessionSide := {
  _isolatedWorlds : gset string;
  _bootstrapScripts : list string;
  commands : list Command;
  evaluations : list (handle * string);
}.

(** The state the constructor leaves. *)
Definition new_SessionSide : SessionSide :=
  {| _isolatedWorlds := ∅; _bootstrapScripts := []; commands := [];
     evaluations := [] |}.

(** [Array.prototype.join(separator)] on an array of strings. *)
Fixpoint join (separator : string) (l : list string) : string :=
  match l with
  | [] => ""
  | [x] => x
  | x :: l' => x +:+ separator +:+ join separator l'
  end.

Section SessionSide.
(** [EVALUATION_SCRIPT_URL] of [./ExecutionContext]. *)
Variable EVALUATION_SCRIPT_URL : string.

(** [_ensureIsolatedWorld(name)]; [sent] is how
    [this._session.send('Page.createIsolatedWorld', ...)] settles. *)
Definition _ensureIsolatedWorld (name : string) (sent : Settled unit)
    (s : SessionSide) : Settled unit * SessionSide :=
  if bool_decide (name ∈ _isolatedWorlds s) then (Resolved (), s)
  else
    (sent,
     {| _isolatedWorlds := {[name]} ∪ _isolatedWorlds s;
        _bootstrapScripts := _bootstrapScripts s;
        commands := commands s ++
          [Page_createIsolatedWorld name
             ("//# sourceURL=" +:+ EVALUATION_SCRIPT_URL)];
        evaluations := evaluations s |}).

(** The script [exposeBinding] makes of a binding. *)
Definition bindingScript (name bindingFunction : string) : string :=
  "self." +:+ name +:+ " = (param) => console.debug('"
  +:+ BINDING_CALL_MESSAGE +:+ "', {}, param); " +:+ bindingFunction.

(** [exposeBinding(name, bindingFunction)]; [sent] is how
    [this._session.send('Page.setBootstrapScript', ...)] settles, [frames]
    what [this.frames()] returns.  (A failing [frame.evaluate] is caught.) *)
Definition exposeBinding (name bindingFunction : string)
    (sent : Settled unit) (frames : list handle) (s : SessionSide)
    : Settled unit * SessionSide :=
  let script := bindingScript name bindingFunction in
  let scripts := script :: _bootstrapScripts s in
  let source := join ";" scripts in
  let commands := commands s ++ [Page_setBootstrapScript source] in
  match sent with
  | Rejected e =>
      (Rejected e,
       {| _isolatedWorlds := _isolatedWorlds s;
          _bootstrapScripts := scripts; commands := commands;
          evaluations := evaluations s |})
  | Resolved _ =>
      (Resolved (),
       {| _isolatedWorlds := _isolatedWorlds s;
          _bootstrapScripts := scripts; commands := commands;
          evaluations :=
            evaluations s ++ ((λ frame, (frame, script)) <$> frames) |})
  end.

(** [evaluateOnNewDocument(script)]; [sent] is how
    [this._session.send('Page.setBootstrapScript', ...)] settles. *)
Definition evaluateOnNewDocument (script : string) (sent : Settled unit)
    (s : SessionSide) : Settled unit * SessionSide :=
  let scripts := _bootstrapScripts s ++ [script] in
  let source := join ";" scripts in
  (sent,
   {| _isolatedWorlds := _isolatedWorlds s; _bootstrapScripts := scripts;
      commands := commands s ++ [Page_setBootstrapScript source];
      evaluations := evaluations s |}).

(** [setSession(session)], the listeners, the input devices and the network
    manager left aside: the contexts are disconnected and the set of
    isolated worlds starts empty; the method itself sends no command. *)
Definition setSession (s : SessionSide) : M SessionSide :=
  disconnectFromTarget;;
  mret {| _isolatedWorlds := ∅; _bootstrapScripts := _bootstrapScripts s;
          commands := commands s; evaluations := evaluations s |}.

(** Calls of the two methods that register bootstrap scripts. *)
Inductive BootstrapCall :=
| ExposeBinding (name bindingFunction : string) (sent : Settled unit)
    (frames : list handle)
| EvaluateOnNewDocument (script : string) (sent : Settled unit).

Definition bootstrap_call (s : SessionSide) (c : BootstrapCall)
    : SessionSide :=
  match c with
  | ExposeBinding name bindingFunction sent frames =>
      (exposeBinding name bindingFunction sent frames s).2
  | EvaluateOnNewDocument script sent =>
      (evaluateOnNewDocument script sent s).2
  end.

Definition bootstrap_calls (cs : list BootstrapCall) (s : SessionSide)
    : SessionSide :=
  foldl bootstrap_call s cs.

(** The scripts of the bindings exposed by [cs], in the order of the
    calls. *)
Definition exposed (cs : list BootstrapCall) : list string :=
  omap (λ c, match c with
             | ExposeBinding name bindingFunction _ _ =>
                 Some (bindingScript name bindingFunction)
             | EvaluateOnNewDocument _ _ => None
             end) cs.

(** The scripts given to [evaluateOnNewDocument] by [cs], in the order of
    the calls. *)
Definition added (cs : list BootstrapCall) : list string :=
  omap (λ c, match c with
             | ExposeBinding _ _ _ _ => None
             | EvaluateOnNewDocument script _ => Some script
             end) cs.
End SessionSide.


(** * History navigation *)

(** What a promise rejects with: an [Error] object with its message, or
    another value. *)
Inductive Thrown :=
| ErrorObject (message : string)
| OtherValue.

(** How a promise settles. *)
Inductive Promised (A : Type) :=
| Fulfilled (a : A)
| RejectedWith (error : Thrown).
Arguments Fulfilled {A} a.
Arguments RejectedWith {A} error.

(** [String.prototype.startsWith] and [String.prototype.includes]. *)
Fixpoint startsWith (s searchString : string) {struct searchString}
    : bool :=
  match searchString, s with
  | EmptyString, _ => true
  | String a searchString', String b s' =>
      bool_decide (a = b) && startsWith s' searchString'
  | String _ _, EmptyString => false
  end.

Fixpoint includes (s searchString : string) : bool :=
  startsWith s searchString
  || match s with
     | EmptyString => false
     | String _ s' => includes s' searchString
     end.

Section History.
(** The network response type. *)
Variable Response : Type.

(** [_go(command, options)]; [all] is how the [Promise.all] of
    [this._page.waitForNavigation(options)] and
    [this._session.send(command).then(() => null)] settles. *)
Definition _go (command : string) (all : Promised (option Response * unit))
    : Promised (option Response) :=
  match all with
  | Fulfilled (response, _) => Fulfilled response
  | RejectedWith error =>
      match error with
      | ErrorObject message =>
          if includes message
               ("Protocol error (" +:+ command +:+ "): Failed to go")
          then Fulfilled None
          else RejectedWith error
      | OtherValue => RejectedWith error
      end
  end.

(** [goBack(options)] and [goForward(options)] *)
Definition goBack (all : Promised (option Response * unit))
    : Promised (option Response) :=
  _go "Page.goBack" all.

Definition goForward (all : Promised (option Response * unit))
    : Promised (option Response) :=
  _go "Page.goForward" all.
End History.

(** * Proofs *)

(** ** Pruned stores *)

Lemma prune_length D s : length (prune D s) = length s.
Proof. unfold prune. by rewrite length_imap. Qed.

Lemma prune_lookup D s h :
  prune D s !! h =
    (λ f, (if bool_decide (h ∈ D) then with_detached else id)
            (with_childFrames (filter (λ c, c ∉ D)) f)) <$> s !! h.
Proof. unfold prune. by rewrite list_lookup_imap. Qed.

Lemma parent_prune D s h :
  parent (prune D s) h = if bool_decide (h ∈ D) then None else parent s h.
Proof.
  unfold parent. rewrite prune_lookup.
  destruct (s !! h) as [f|]; simpl; by case_bool_decide.
Qed.

Lemma children_prune D s h :
  children (prune D s) h = filter (λ c, c ∉ D) (children s h).
Proof.
  unfold children. rewrite prune_lookup.
  destruct (s !! h) as [f|]; simpl; [by case_bool_decide | done].
Qed.

Lemma frameId_of_prune D s h : frameId_of (prune D s) h = frameId_of s h.
Proof.
  unfold frameId_of. rewrite prune_lookup.
  destruct (s !! h) as [f|]; simpl; [by case_bool_decide | done].
Qed.

Lemma wf_store_prune D s : wf_store s → wf_store (prune D s).
Proof.
  intros [Hp Hc Hn]. split.
  - intros h p. rewrite parent_prune, children_prune.
    case_bool_decide; [done|]. intros Hh.
    destruct (Hp _ _ Hh) as [? ?]. split; [done|].
    by apply list_elem_of_filter.
  - intros p c. rewrite parent_prune, children_prune.
    intros [? ?]%list_elem_of_filter. rewrite bool_decide_eq_false_2 by done.
    eauto.
  - intros p. rewrite children_prune. by apply NoDup_filter.
Qed.

Lemma prune_app D1 D2 s : prune D2 (prune D1 s) = prune (D1 ++ D2) s.
Proof.
  apply list_eq; intros h. rewrite !prune_lookup.
  destruct (s !! h) as [f|]; simpl; [|done]. f_equal.
  assert (filter (λ c, c ∉ D2) (filter (λ c, c ∉ D1) (_childFrames f))
          = filter (λ c, c ∉ D1 ++ D2) (_childFrames f)) as Hf.
  { rewrite list_filter_filter. apply list_filter_iff. set_solver. }
  destruct f; unfold with_childFrames, with_detached; simpl in *.
  repeat case_bool_decide; simpl; rewrite ?Hf; try done; set_solver.
Qed.

(** ** The frame tree *)

Section tree.
Context (s : list Frame) (Hwf : wf_store s).

Lemma child_step_lt p c : child_step s p c → p < c.
Proof. intros H. by destruct (wf_parent _ Hwf _ _ H). Qed.

Lemma in_subtree_le r h : in_subtree s r h → r ≤ h.
Proof.
  induction 1 as [|x y z Hxy _ IH]; [done|].
  apply child_step_lt in Hxy. lia.
Qed.

Lemma in_subtree_child r p c :
  in_subtree s r p → parent s c = Some p → in_subtree s r c.
Proof. intros Hr Hc. by eapply rtc_r. Qed.

Lemma in_subtree_inv r h :
  in_subtree s r h →
  h = r ∨ ∃ c, parent s c = Some r ∧ in_subtree s c h.
Proof. intros [->|(c & Hc & ?)]%rtc_inv; [by left|right; eauto]. Qed.

Lemma in_subtree_comparable a b y :
  in_subtree s a y → in_subtree s b y →
  in_subtree s a b ∨ in_subtree s b a.
Proof.
  intros Ha. revert b. pattern y. revert y Ha.
  apply rtc_ind_r; [by right|].
  intros x y Hax Hxy IH b Hb.
  apply rtc_inv_r in Hb as [->|(x' & Hbx' & Hx'y)].
  - left. by eapply rtc_r.
  - unfold child_step in *. assert (x' = x) as -> by congruence.
    by apply IH.
Qed.

(** The subtrees of two different children of one frame share nothing. *)
Lemma siblings_disjoint r c1 c2 y :
  parent s c1 = Some r → parent s c2 = Some r → c1 ≠ c2 →
  in_subtree s c1 y → in_subtree s c2 y → False.
Proof.
  intros H1 H2 Hne Hy1 Hy2.
  assert (∀ a b, parent s a = Some r → parent s b = Some r → a ≠ b →
                 in_subtree s a b → False) as Hno.
  { intros a b Ha Hb Hab [->|(x & Hax & Hxb)]%rtc_inv_r; [done|].
    unfold child_step in Hxb. assert (x = r) as -> by congruence.
    apply in_subtree_le in Hax. apply child_step_lt in Ha. lia. }
  destruct (in_subtree_comparable _ _ _ Hy1 Hy2); eauto.
Qed.
End tree.

(** Pruning frames that are not between [r] and [h] leaves the path. *)
Lemma in_subtree_prune_1 D s r h :
  in_subtree (prune D s) r h → in_subtree s r h.
Proof.
  induction 1 as [|x y z Hxy _ IH]; [constructor|].
  eapply rtc_l; [|done]. unfold child_step in *.
  rewrite parent_prune in Hxy. by case_bool_decide.
Qed.

Lemma in_subtree_prune_2 D s r h :
  in_subtree s r h → (∀ y, in_subtree s r y → y ∉ D) →
  in_subtree (prune D s) r h.
Proof.
  intros Hrh HD. pattern h. revert h Hrh.
  apply rtc_ind_r; [constructor|].
  intros x h Hrx Hxh IH. eapply rtc_r; [done|]. unfold child_step in *.
  rewrite parent_prune, bool_decide_eq_false_2; [done|].
  apply HD. by eapply rtc_r.
Qed.

(** ** Running methods *)

Lemma bind_run {A B} (c : M A) (k : A → M B) m a m' :
  c m = Done a m' → (c ≫= k) m = k a m'.
Proof. unfold mbind, M_bind. by intros ->. Qed.

Lemma read_run m h f : store m !! h = Some f → read h m = Done f m.
Proof. unfold read. by intros ->. Qed.

Lemma update_run m h g f :
  store m !! h = Some f →
  update h g m = Done () (set_store (<[h := g f]>) m).
Proof. intros H. unfold update. by rewrite (bind_run _ _ _ _ _ (read_run _ _ _ H)). Qed.

Lemma frame_eq (f g : Frame) :
  frameData_id f = frameData_id g → _parentFrame f = _parentFrame g →
  _childFrames f = _childFrames g →
  _firedLifecycleEvents f = _firedLifecycleEvents g →
  _detached f = _detached g → _url f = _url g → _name f = _name g →
  _lastDocumentId f = _lastDocumentId g → _mainContext f = _mainContext g →
  _utilityContext f = _utilityContext g → f = g.
Proof. destruct f, g; simpl; congruence. Qed.

Lemma filter_all {A} (P : A → Prop) `{!∀ x, Decision (P x)} (l : list A) :
  (∀ x, x ∈ l → P x) → filter P l = l.
Proof.
  intros HP. induction l as [|x l IH]; [done|].
  rewrite filter_cons_True by (apply HP; set_solver).
  f_equal. apply IH. intros; apply HP; set_solver.
Qed.

Lemma filter_not_elem (h : handle) (l : list handle) :
  h ∉ l → filter (λ c, c ∉ [h]) l = l.
Proof.
  intros Hh. induction l as [|x l IH]; [done|].
  rewrite filter_cons. rewrite decide_True by set_solver.
  f_equal. apply IH. set_solver.
Qed.

Lemma onDetached_run F m :
  wf_store (store m) → F < length (store m) →
  _onDetached F m = Done () (set_store (prune [F]) m).
Proof.
  intros Hwf HF. destruct (lookup_lt_is_Some_2 _ _ HF) as [f Hf].
  assert (F ∉ _childFrames f) as HFf.
  { intros Hin. assert (parent (store m) F = Some F) as HFF.
    { apply (wf_child _ Hwf). unfold children. by rewrite Hf. }
    apply (wf_parent _ Hwf) in HFF. lia. }
  unfold _onDetached. rewrite (bind_run _ _ _ _ _ (read_run _ _ _ Hf)).
  destruct (_parentFrame f) as [p|] eqn:Hp.
  - assert (parent (store m) F = Some p) as HpF
      by (unfold parent; by rewrite Hf).
    destruct (wf_parent _ Hwf _ _ HpF) as [Hlt Hin].
    unfold children in Hin.
    destruct (store m !! p) as [fp|] eqn:Hfp; [|by apply elem_of_nil in Hin].
    erewrite bind_run by (by apply update_run).
    erewrite update_run; last first.
    { simpl. rewrite list_lookup_insert_ne by lia. done. }
    f_equal. destruct m; unfold set_store; simpl in *. f_equal.
    apply list_eq. intros h. rewrite prune_lookup.
    destruct (decide (h = F)) as [->|HhF].
    { rewrite list_lookup_insert_eq by (by rewrite length_insert).
      rewrite Hf. simpl. rewrite bool_decide_eq_true_2 by set_solver.
      f_equal. apply frame_eq; simpl; try done.
      by rewrite filter_not_elem. }
    rewrite list_lookup_insert_ne by done.
    destruct (decide (h = p)) as [->|Hhp].
    { rewrite list_lookup_insert_eq by (by eapply lookup_lt_Some).
      rewrite Hfp. simpl. rewrite bool_decide_eq_false_2 by set_solver.
      f_equal. apply frame_eq; simpl; try done.
      unfold set_delete. apply list_filter_iff. set_solver. }
    rewrite list_lookup_insert_ne by done.
    destruct (store0 !! h) as [fh|] eqn:Hfh; [|done]. simpl.
    rewrite bool_decide_eq_false_2 by set_solver. f_equal.
    apply frame_eq; simpl; try done. rewrite filter_not_elem; [done|].
    intros Hin'. assert (parent store0 F = Some h) as HFh.
    { apply (wf_child _ Hwf). unfold children. by rewrite Hfh. }
    congruence.
  - unfold mret at 1, M_ret at 1.
    erewrite bind_run by reflexivity.
    erewrite update_run by done.
    f_equal. destruct m; unfold set_store; simpl in *. f_equal.
    apply list_eq. intros h. rewrite prune_lookup.
    destruct (decide (h = F)) as [->|HhF].
    { rewrite list_lookup_insert_eq by done.
      rewrite Hf. simpl. rewrite bool_decide_eq_true_2 by set_solver.
      f_equal. apply frame_eq; simpl; try done.
      by rewrite filter_not_elem. }
    rewrite list_lookup_insert_ne by done.
    destruct (store0 !! h) as [fh|] eqn:Hfh; [|done]. simpl.
    rewrite bool_decide_eq_false_2 by set_solver. f_equal.
    apply frame_eq; simpl; try done. rewrite filter_not_elem; [done|].
    intros Hin'. assert (parent store0 F = Some h) as HFh.
    { apply (wf_child _ Hwf). unfold children. by rewrite Hfh. }
    unfold parent in HFh. rewrite Hf in HFh. simpl in HFh. congruence.
Qed.

(** What [_removeFramesRecursively] does to a frame once its children are
    gone. *)
Lemma remove_tail F m :
  wf_store (store m) → F < length (store m) →
  ∃ m',
    (_onDetached F;;
     id ← _frameData F;
     modify (set_frames (delete id));;
     log (Emit FrameDetached F);;
     log (PageEmit Page_FrameDetached (Some F))) m = Done () m'
    ∧ removed m [F] m'.
Proof.
  intros Hwf HF. destruct (lookup_lt_is_Some_2 _ _ HF) as [f Hf].
  erewrite bind_run by (by apply onDetached_run).
  unfold _frameData.
  erewrite bind_run; last first.
  { erewrite bind_run; [reflexivity|].
    apply read_run. simpl. rewrite prune_lookup, Hf. reflexivity. }
  eexists; split; [reflexivity|].
  split; simpl; try done.
  { by rewrite <- app_assoc. }
  intros id. unfold frameId_of. rewrite Hf. simpl.
  rewrite (bool_decide_eq_true_2 (F ∈ [F])) by set_solver. simpl.
  case_bool_decide as Hid.
  - apply list_elem_of_singleton in Hid. simplify_eq. apply lookup_delete_eq.
  - apply lookup_delete_ne. intros Heq. apply Hid. rewrite Heq. set_solver.
Qed.

Lemma before_app_l {A} (x y : A) l l' : before x y l → before x y (l ++ l').
Proof.
  intros (l1 & l2 & l3 & ->). exists l1, l2, (l3 ++ l').
  by rewrite <- !app_assoc, <- !app_comm_cons, <- app_assoc.
Qed.

Lemma before_app_r {A} (x y : A) l l' : before x y l → before x y (l' ++ l).
Proof.
  intros (l1 & l2 & l3 & ->). exists (l' ++ l1), l2, l3.
  by rewrite <- !app_assoc.
Qed.

Lemma before_last {A} (x y : A) l : x ∈ l → before x y (l ++ [y]).
Proof.
  intros (l1 & l2 & ->)%list_elem_of_split. exists l1, l2, [].
  by rewrite <- !app_assoc.
Qed.

Lemma removed_nil m : removed m [] m.
Proof.
  split; simpl; try done.
  - by rewrite app_nil_r.
  - apply list_eq. intros h. rewrite prune_lookup.
    destruct (store m !! h) as [f|]; [|done]. simpl. f_equal.
    apply frame_eq; simpl; try done.
    symmetry. apply filter_all. intros; set_solver.
Qed.

Lemma removed_app m D1 m1 D2 m2 :
  removed m D1 m1 → removed m1 D2 m2 → removed m (D1 ++ D2) m2.
Proof.
  intros [Hc1 Hs1 Hf1 ? ? ? ?] [Hc2 Hs2 Hf2 ? ? ? ?].
  split; try congruence.
  - by rewrite Hc2, Hc1, flat_map_app, app_assoc.
  - by rewrite Hs2, Hs1, prune_app.
  - intros id. rewrite Hf2, Hf1, fmap_app.
    assert (frameId_of (store m1) <$> D2 = frameId_of (store m) <$> D2) as ->.
    { apply list_fmap_ext. intros _ h _. rewrite Hs1. apply frameId_of_prune. }
    repeat case_bool_decide; set_solver.
Qed.

Lemma removed_wf_store m D m' :
  wf_store (store m) → removed m D m' → wf_store (store m').
Proof. intros Hwf [_ -> _ _ _ _ _]. by apply wf_store_prune. Qed.

Lemma removed_length m D m' :
  removed m D m' → length (store m') = length (store m).
Proof. intros [_ -> _ _ _ _ _]. apply prune_length. Qed.

Lemma parent_lt_length s c p : parent s c = Some p → c < length s.
Proof.
  unfold parent. destruct (s !! c) eqn:H; [|done].
  intros _. by eapply lookup_lt_Some.
Qed.

(** The loop of [_removeFramesRecursively] over the children of [F], given
    that the recursive calls behave. *)
Lemma remove_children_spec fuel F :
  (∀ c m, wf_store (store m) → c < length (store m) →
     length (store m) ≤ fuel + c →
     ∃ m' D, _removeFramesRecursively fuel c m = Done () m'
             ∧ removed m D m' ∧ subtree_order (store m) c D) →
  ∀ cs m, wf_store (store m) → NoDup cs →
    (∀ c, c ∈ cs → parent (store m) c = Some F) →
    length (store m) ≤ S fuel + F →
    ∃ m' D, for_each cs (_removeFramesRecursively fuel) m = Done () m'
      ∧ removed m D m' ∧ NoDup D
      ∧ (∀ h, h ∈ D ↔ ∃ c, c ∈ cs ∧ in_subtree (store m) c h)
      ∧ (∀ c p, c ∈ D → p ∈ D → parent (store m) c = Some p → before c p D).
Proof.
  intros Hrec cs. induction cs as [|c cs IH]; intros m Hwf Hnd Hpar Hlen.
  { exists m, []. split_and!; [done|apply removed_nil|constructor| |].
    - intros h. split; [by intros ?%elem_of_nil|].
      by intros (c & ?%elem_of_nil & _).
    - by intros c p ?%elem_of_nil. }
  apply NoDup_cons in Hnd as [Hc Hnd].
  assert (parent (store m) c = Some F) as HcF by (apply Hpar; set_solver).
  assert (F < c) by (by eapply child_step_lt).
  destruct (Hrec c m) as (m1 & D1 & Hrun1 & Hrm1 & [Hnd1 Hel1 Hord1]);
    [done|by eapply parent_lt_length|lia|].
  assert (∀ c' y, c' ∈ cs → in_subtree (store m) c' y → y ∉ D1) as Hdisj.
  { intros c' y Hc' Hy HyD. apply Hel1 in HyD.
    eapply (siblings_disjoint _ Hwf F c c' y); eauto.
    - apply Hpar. set_solver.
    - intros ->. done. }
  destruct (IH m1) as (m2 & D2 & Hrun2 & Hrm2 & Hnd2 & Hel2 & Hord2).
  { by eapply removed_wf_store. }
  { done. }
  { intros c' Hc'. rewrite (rm_store _ _ _ Hrm1), parent_prune.
    rewrite bool_decide_eq_false_2; [apply Hpar; set_solver|].
    eapply Hdisj; [done|]. constructor. }
  { by rewrite (removed_length _ _ _ Hrm1). }
  assert (∀ h, h ∈ D2 ↔ ∃ c', c' ∈ cs ∧ in_subtree (store m) c' h) as Hel2'.
  { intros h. rewrite Hel2. split; intros (c' & Hc' & Hh); exists c';
      (split; [done|]); rewrite (rm_store _ _ _ Hrm1) in *.
    - by eapply in_subtree_prune_1.
    - apply in_subtree_prune_2; [done|]. intros y. by apply Hdisj. }
  exists m2, (D1 ++ D2). split_and!.
  - simpl. by erewrite bind_run by done.
  - by eapply removed_app.
  - apply NoDup_app. split_and!; [done| |done].
    intros x Hx1 (c' & Hc' & Hx2)%Hel2'. by eapply Hdisj.
  - intros h. rewrite elem_of_app, Hel1, Hel2'. split.
    + intros [?|(c' & ? & ?)]; [exists c|exists c']; set_solver.
    + intros (c' & [->|?]%elem_of_cons & ?); [by left|right; eauto].
  - intros x p [Hx|Hx]%elem_of_app [Hp|Hp]%elem_of_app Hxp.
    + apply before_app_l. by apply Hord1.
    + exfalso. apply Hel2' in Hp as (c' & Hc' & Hp).
      eapply (Hdisj c' x); [done| |done]. by eapply in_subtree_child.
    + exfalso. apply Hel2' in Hx as (c' & Hc' & Hx).
      eapply (Hdisj c' x); [done..|].
      apply Hel1. eapply in_subtree_child; [by apply Hel1|done].
    + apply before_app_r. apply Hord2; [done..|].
      rewrite (rm_store _ _ _ Hrm1), parent_prune.
      rewrite bool_decide_eq_false_2; [done|].
      apply Hel2' in Hx as (c' & Hc' & Hx). by eapply Hdisj.
Qed.

Lemma childFrames_run m h f :
  store m !! h = Some f → childFrames h m = Done (children (store m) h) m.
Proof.
  intros H. unfold childFrames, children.
  rewrite (bind_run _ _ _ _ _ (read_run _ _ _ H)), H. reflexivity.
Qed.

(** [_removeFramesRecursively] returns once the budget covers the frames
    younger than [F]; it removes the subtree of [F], children first. *)
Lemma removeFramesRecursively_spec fuel :
  ∀ F m, wf_store (store m) → F < length (store m) →
    length (store m) ≤ fuel + F →
    ∃ m' D, _removeFramesRecursively fuel F m = Done () m'
            ∧ removed m D m' ∧ subtree_order (store m) F D.
Proof.
  induction fuel as [|fuel IH]; intros F m Hwf HF Hlen; [lia|].
  destruct (lookup_lt_is_Some_2 _ _ HF) as [f Hf].
  destruct (remove_children_spec fuel F IH (children (store m) F) m)
    as (m1 & D & Hrun1 & Hrm1 & Hnd & Hel & Hord); try done.
  { apply (wf_nodup _ Hwf). }
  { apply (wf_child _ Hwf). }
  destruct (remove_tail F m1) as (m2 & Hrun2 & Hrm2).
  { by eapply removed_wf_store. }
  { by rewrite (removed_length _ _ _ Hrm1). }
  assert (F ∉ D) as HFD.
  { intros (c & Hc & HcF)%Hel. apply (wf_child _ Hwf) in Hc.
    apply (in_subtree_le _ Hwf) in HcF.
    apply (child_step_lt _ Hwf) in Hc. lia. }
  exists m2, (D ++ [F]). split_and!.
  - simpl. erewrite bind_run by (by eapply childFrames_run).
    by erewrite bind_run by done.
  - by eapply removed_app.
  - split.
    + apply NoDup_app. split_and!; [done|set_solver|apply NoDup_singleton].
    + intros h. rewrite elem_of_app, Hel, list_elem_of_singleton. split.
      * intros [(c & Hc & Hh)| ->]; [|constructor].
        eapply rtc_l; [|done]. by apply (wf_child _ Hwf).
      * intros [->|(c & Hc & Hh)]%in_subtree_inv; [by right|left].
        exists c. split; [|done]. by apply (wf_parent _ Hwf).
    + intros c p Hc Hp Hcp.
      assert (p < c) by (by eapply child_step_lt).
      apply elem_of_app in Hp as [Hp| ->%list_elem_of_singleton].
      * apply before_app_l. apply Hord; [|done..].
        apply Hel in Hp as (c' & Hc' & Hp). apply Hel. exists c'.
        split; [done|]. by eapply in_subtree_child.
      * apply before_last.
        apply elem_of_app in Hc as [Hc| ->%list_elem_of_singleton]; [done|lia].
Qed.

(** ** Rules for [wp] *)

Section wp.
Context (T : Prop).

Lemma wp_ret {A} (a : A) Q E m : Q a m → wp T (mret a) Q E m.
Proof. done. Qed.

Lemma wp_bind {A B} (c : M A) (k : A → M B) Q E m :
  wp T c (λ a m', wp T (k a) Q E m') E m → wp T (c ≫= k) Q E m.
Proof. unfold wp, mbind, M_bind. by destruct (c m). Qed.

Lemma wp_mono {A} (c : M A) (Q Q' : A → FrameManager → Prop)
    (E E' : FrameManager → Prop) m :
  wp T c Q E m → (∀ a m', Q a m' → Q' a m') → (∀ m', E m' → E' m') →
  wp T c Q' E' m.
Proof. unfold wp. destruct (c m); eauto. Qed.

Lemma wp_get_state Q E m : Q m m → wp T get_state Q E m.
Proof. done. Qed.

Lemma wp_modify f Q E m : Q () (f m) → wp T (modify f) Q E m.
Proof. done. Qed.

Lemma wp_throw {A} e (Q : A → _) E m : E m → wp T (throw e) Q E m.
Proof. done. Qed.

Lemma wp_assert b Q E m :
  (b = true → Q () m) → (b = false → E m) → wp T (assert b) Q E m.
Proof. destruct b; unfold wp; simpl; eauto. Qed.

Lemma wp_read h Q E m :
  (T ∨ is_Some (store m !! h)) →
  (∀ f, store m !! h = Some f → Q f m) → wp T (read h) Q E m.
Proof.
  unfold wp, read. intros HT HQ.
  destruct (store m !! h) as [f|]; [by apply HQ|].
  destruct HT as [?|[? ?]]; done.
Qed.

Lemma wp_update h g Q E m :
  (T ∨ is_Some (store m !! h)) →
  (∀ f, store m !! h = Some f → Q () (set_store (<[h := g f]>) m)) →
  wp T (update h g) Q E m.
Proof.
  intros HT HQ. unfold update. apply wp_bind, wp_read; [done|].
  intros f Hf. by apply wp_modify, HQ.
Qed.

Lemma wp_for_each {A} (xs : list A) (body : A → M unit)
    (I : FrameManager → Prop) Q E m :
  I m →
  (∀ x m', x ∈ xs → I m' → wp T (body x) (λ _, I) E m') →
  (∀ m', I m' → Q () m') →
  wp T (for_each xs body) Q E m.
Proof.
  intros HI Hbody HQ. revert m HI.
  induction xs as [|x xs IH]; intros m HI; simpl.
  - by apply wp_ret, HQ.
  - apply wp_bind. eapply wp_mono; [apply Hbody; [set_solver|done]| |done].
    intros u m' HI'. apply IH; [|done].
    intros y m'' ? ?. apply Hbody; [set_solver|done].
Qed.
End wp.

Lemma wp_Done {A} (c : M A) Q E m a m' :
  c m = Done a m' → Q a m' → wp False c Q E m.
Proof. unfold wp. by intros ->. Qed.

Lemma wp_log T c Q E m : Q () (add_call c m) → wp T (log c) Q E m.
Proof. done. Qed.

(** ** Well-formedness is kept *)

Lemma wf_ext m m' :
  store m' = store m → _frames m' = _frames m →
  _mainFrame m' = _mainFrame m →
  _contextIdToContext m' = _contextIdToContext m → wf m → wf m'.
Proof.
  intros Hs Hf Hm Hc [? ? ? ?]. split; rewrite ?Hs, ?Hf, ?Hm, ?Hc; done.
Qed.

Lemma wf_add_call c m : wf m → wf (add_call c m).
Proof. by apply wf_ext. Qed.

Lemma wf_set_lastDocumentId n m : wf m → wf (set_lastDocumentId n m).
Proof. by apply wf_ext. Qed.

Lemma wf_set_contextsCreated n m : wf m → wf (set_contextsCreated n m).
Proof. by apply wf_ext. Qed.

Lemma wf_delete_frame id m : wf m → wf (set_frames (delete id) m).
Proof.
  intros [? Hf ? ?]. split; simpl; try done.
  intros id' h [_ ?]%lookup_delete_Some. eauto.
Qed.

Lemma wf_insert_frame id h m :
  h < length (store m) → wf m → wf (set_frames (<[id := h]>) m).
Proof.
  intros Hh [? Hf ? ?]. split; simpl; try done.
  intros id' h' [[_ <-]|[_ ?]]%lookup_insert_Some; eauto.
Qed.

Lemma wf_set_mainFrame h m :
  h < length (store m) → wf m → wf (set_mainFrame h m).
Proof.
  intros Hh [? ? ? ?]. split; simpl; try done. by intros ? [= <-].
Qed.

Lemma wf_delete_context k m : wf m → wf (set_contexts (delete k) m).
Proof.
  intros [? ? ? Hc]. split; simpl; try done.
  intros k' c [_ ?]%lookup_delete_Some. eauto.
Qed.

Lemma wf_insert_context k c m :
  ctx_frame c < length (store m) → wf m → wf (set_contexts (<[k := c]>) m).
Proof.
  intros Hh [? ? ? Hc]. split; simpl; try done.
  intros k' c' [[_ <-]|[_ ?]]%lookup_insert_Some; eauto.
Qed.

Lemma wf_store_update s h f g :
  s !! h = Some f → keeps_links g → wf_store s → wf_store (<[h := g f]> s).
Proof.
  intros Hh Hg Hwf.
  assert (∀ x, parent (<[h := g f]> s) x = parent s x) as Hpar.
  { intros x. unfold parent. destruct (decide (x = h)) as [->|].
    - rewrite list_lookup_insert_eq by (by eapply lookup_lt_Some).
      rewrite Hh. simpl. apply Hg.
    - by rewrite list_lookup_insert_ne. }
  assert (∀ x, children (<[h := g f]> s) x = children s x) as Hch.
  { intros x. unfold children. destruct (decide (x = h)) as [->|].
    - rewrite list_lookup_insert_eq by (by eapply lookup_lt_Some).
      rewrite Hh. simpl. apply Hg.
    - by rewrite list_lookup_insert_ne. }
  destruct Hwf as [Hp Hc Hn]. split.
  - intros x p. rewrite Hpar, Hch. apply Hp.
  - intros p c. rewrite Hpar, Hch. apply Hc.
  - intros p. rewrite Hch. apply Hn.
Qed.

Lemma wf_update h f g m :
  store m !! h = Some f → keeps_links g → wf m →
  wf (set_store (<[h := g f]>) m).
Proof.
  intros Hh Hg [? ? ? ?]. split; simpl; rewrite ?length_insert; try done.
  by apply wf_store_update.
Qed.

Lemma wf_removed m D m' : wf m → removed m D m' → wf m'.
Proof.
  intros [? Hf Hm Hc] Hrm. pose proof (removed_length _ _ _ Hrm) as Hlen.
  split.
  - by eapply removed_wf_store.
  - intros id h. rewrite (rm_frames _ _ _ Hrm), Hlen.
    case_bool_decide; [done|]. apply Hf.
  - rewrite (rm_mainFrame _ _ _ Hrm), Hlen. apply Hm.
  - rewrite (rm_contexts _ _ _ Hrm), Hlen. apply Hc.
Qed.

Lemma keeps_links_with_frameData id : keeps_links (with_frameData id).
Proof. done. Qed.
Lemma keeps_links_with_fired g : keeps_links (with_fired g).
Proof. done. Qed.
Lemma keeps_links_with_document u n d : keeps_links (with_document u n d).
Proof. done. Qed.
Lemma keeps_links_with_url u : keeps_links (with_url u).
Proof. done. Qed.
Lemma keeps_links_with_context w c : keeps_links (with_context w c).
Proof. done. Qed.

Create HintDb wf.
#[local] Hint Resolve wf_add_call wf_set_lastDocumentId
  wf_set_contextsCreated wf_delete_frame wf_delete_context wf_update
  keeps_links_with_frameData keeps_links_with_fired
  keeps_links_with_document keeps_links_with_url keeps_links_with_context
  : wf.

(** A handle is still good after updates in place. *)
Ltac solve_valid :=
  apply lookup_lt_is_Some_2; simpl;
  rewrite ?length_insert, ?length_app, ?prune_length; simpl;
  first [ done | lia
        | by eapply lookup_lt_Some
        | by apply lookup_lt_is_Some_1 ].

(** One step of symbolic execution. *)
Ltac wp_step :=
  lazymatch goal with
  | |- wp _ (_ ≫= _) _ _ _ => apply wp_bind
  | |- wp _ (mret _) _ _ _ => apply wp_ret
  | |- wp _ get_state _ _ _ => apply wp_get_state
  | |- wp _ (modify _) _ _ _ => apply wp_modify
  | |- wp _ (log _) _ _ _ => apply wp_log
  | |- wp _ (throw _) _ _ _ => apply wp_throw
  | |- wp _ (read _) _ _ _ =>
      apply wp_read; [first [by left|right; solve_valid]|intros ? ?]
  | |- wp _ (update _ _) _ _ _ =>
      apply wp_update; [first [by left|right; solve_valid]|intros ? ?]
  | |- wp _ (if ?b then _ else _) _ _ _ => destruct b eqn:?
  end.

Lemma frames_lookup_valid m id h :
  wf m → _frames m !! id = Some h → is_Some (store m !! h).
Proof. intros Hwf H. by eapply lookup_lt_is_Some_2, wf_frames. Qed.

Lemma onFrameStoppedLoading_wf frameId m :
  wf m → wp False (_onFrameStoppedLoading frameId) (λ _, wf) wf m.
Proof.
  intros Hwf. unfold _onFrameStoppedLoading. do 2 wp_step.
  destruct (_frames m !! frameId) as [h|] eqn:Hh; [|by wp_step].
  pose proof (frames_lookup_valid _ _ _ Hwf Hh).
  unfold _lifecycleEvent. repeat wp_step; eauto 10 with wf.
Qed.

Lemma onLifecycleEvent_wf frameId event m :
  wf m → wp False (_onLifecycleEvent frameId event) (λ _, wf) wf m.
Proof.
  intros Hwf. unfold _onLifecycleEvent. do 2 wp_step.
  destruct (_frames m !! frameId) as [h|] eqn:Hh; [|by wp_step].
  pose proof (frames_lookup_valid _ _ _ Hwf Hh).
  unfold _lifecycleEvent. repeat wp_step; eauto 10 with wf.
Qed.

Lemma onFrameNavigatedWithinDocument_wf frameId url m :
  wf m →
  wp False (_onFrameNavigatedWithinDocument frameId url) (λ _, wf) wf m.
Proof.
  intros Hwf. unfold _onFrameNavigatedWithinDocument. do 2 wp_step.
  destruct (_frames m !! frameId) as [h|] eqn:Hh; [|by wp_step].
  pose proof (frames_lookup_valid _ _ _ Hwf Hh).
  unfold _onCommittedSameDocumentNavigation. repeat wp_step; eauto 10 with wf.
Qed.

Lemma onFrameDetached_wf frameId m :
  wf m →
  wp False (_onFrameDetached (budget m) frameId) (λ _, wf) wf m.
Proof.
  intros Hwf. unfold _onFrameDetached. do 2 wp_step.
  destruct (_frames m !! frameId) as [h|] eqn:Hh; [|by wp_step].
  destruct (removeFramesRecursively_spec (budget m) h m)
    as (m' & D & Hrun & Hrm & _).
  { apply Hwf. }
  { by eapply wf_frames. }
  { unfold budget. lia. }
  eapply wp_Done; [done|]. by eapply wf_removed.
Qed.

Lemma onExecutionContextCreated_wf contextPayload m :
  wf m →
  wp False (_onExecutionContextCreated contextPayload) (λ _, wf) wf m.
Proof.
  intros Hwf. unfold _onExecutionContextCreated. do 3 wp_step; [by wp_step|].
  destruct (_frames m !! _) as [h|] eqn:Hh; [|by wp_step].
  pose proof (frames_lookup_valid _ _ _ Hwf Hh) as Hv.
  apply lookup_lt_is_Some_1 in Hv.
  unfold new_ExecutionContext, _contextCreated.
  repeat wp_step; apply wf_insert_context; simpl; rewrite ?length_insert;
    eauto 10 with wf.
Qed.

(** ** Attaching a frame *)

Lemma parent_app s nf x :
  parent (s ++ [nf]) x =
    if decide (x = length s) then _parentFrame nf else parent s x.
Proof.
  unfold parent. case_decide as Hx.
  - subst. by rewrite lookup_app_r, Nat.sub_diag by lia.
  - destruct (decide (x < length s)).
    + by rewrite lookup_app_l.
    + rewrite !lookup_ge_None_2; [done|lia|rewrite length_app; simpl; lia].
Qed.

Lemma children_app s nf x :
  children (s ++ [nf]) x =
    if decide (x = length s) then _childFrames nf else children s x.
Proof.
  unfold children. case_decide as Hx.
  - subst. by rewrite lookup_app_r, Nat.sub_diag by lia.
  - destruct (decide (x < length s)).
    + by rewrite lookup_app_l.
    + rewrite !lookup_ge_None_2; [done|lia|rewrite length_app; simpl; lia].
Qed.

Lemma children_lt s p c : wf_store s → c ∈ children s p → c < length s.
Proof. intros Hwf Hc. eapply parent_lt_length. by apply (wf_child _ Hwf). Qed.

Lemma wf_store_new_root s nf :
  wf_store s → _parentFrame nf = None → _childFrames nf = [] →
  wf_store (s ++ [nf]).
Proof.
  intros Hwf Hp Hc. split.
  - intros h p. rewrite parent_app, children_app.
    case_decide; [congruence|]. intros Hh.
    destruct (wf_parent _ Hwf _ _ Hh) as [? Hin]. split; [done|].
    case_decide; [|done]. subst. apply (children_lt _ _ _ Hwf) in Hin.
    apply parent_lt_length in Hh. lia.
  - intros p c. rewrite parent_app, children_app.
    case_decide; [rewrite Hc; by intros ?%elem_of_nil|]. intros Hin.
    pose proof (children_lt _ _ _ Hwf Hin). case_decide; [lia|].
    by apply (wf_child _ Hwf).
  - intros p. rewrite children_app. case_decide; [rewrite Hc; constructor|].
    apply (wf_nodup _ Hwf).
Qed.

Lemma wf_store_new_child s nf p fp :
  wf_store s → s !! p = Some fp →
  _parentFrame nf = Some p → _childFrames nf = [] →
  wf_store (<[p := with_childFrames (set_add (length s)) fp]> (s ++ [nf])).
Proof.
  intros Hwf Hfp Hp Hc.
  pose proof (lookup_lt_Some _ _ _ Hfp) as Hlt.
  assert (length s ∉ children s p) as Hfresh.
  { intros ?%(children_lt _ _ _ Hwf). lia. }
  assert (∀ x, parent (<[p := with_childFrames (set_add (length s)) fp]>
                         (s ++ [nf])) x
               = if decide (x = length s) then Some p else parent s x) as Hpar.
  { intros x. rewrite <- Hp, <- parent_app. unfold parent.
    destruct (decide (x = p)) as [->|].
    - rewrite list_lookup_insert_eq by (rewrite length_app; lia).
      by rewrite lookup_app_l, Hfp.
    - by rewrite list_lookup_insert_ne. }
  assert (∀ x, children (<[p := with_childFrames (set_add (length s)) fp]>
                           (s ++ [nf])) x
               = if decide (x = p) then children s p ++ [length s]
                 else if decide (x = length s) then [] else children s x)
    as Hch.
  { intros x. case_decide as Hx.
    - subst. unfold children.
      rewrite list_lookup_insert_eq by (rewrite length_app; lia).
      rewrite Hfp. simpl. unfold set_add.
      rewrite bool_decide_eq_false_2; [done|].
      unfold children in Hfresh. by rewrite Hfp in Hfresh.
    - rewrite <- Hc, <- children_app. unfold children.
      by rewrite list_lookup_insert_ne. }
  split.
  - intros h q. rewrite Hpar, Hch. case_decide as Hh.
    + intros [= <-]. subst. split; [done|].
      rewrite decide_True by done. set_solver.
    + intros Hhq. destruct (wf_parent _ Hwf _ _ Hhq) as [? Hin].
      split; [done|]. case_decide; [subst; set_solver|].
      case_decide; [|done]. subst. apply parent_lt_length in Hhq. lia.
  - intros q c. rewrite Hpar, Hch. case_decide as Hq.
    + subst. intros [Hin| ->%list_elem_of_singleton]%elem_of_app.
      * pose proof (children_lt _ _ _ Hwf Hin). case_decide; [lia|].
        by apply (wf_child _ Hwf).
      * by rewrite decide_True.
    + case_decide; [by intros ?%elem_of_nil|]. intros Hin.
      pose proof (children_lt _ _ _ Hwf Hin). case_decide; [lia|].
      by apply (wf_child _ Hwf).
  - intros q. rewrite Hch. case_decide.
    + apply NoDup_app. split_and!; [apply (wf_nodup _ Hwf)| |apply NoDup_singleton].
      intros x Hx ->%list_elem_of_singleton. done.
    + case_decide; [constructor|apply (wf_nodup _ Hwf)].
Qed.

Lemma onFrameAttached_wf frameId parentFrameId m :
  wf m →
  wp False (_onFrameAttached frameId parentFrameId) (λ _, wf) wf m.
Proof.
  intros Hwf. unfold _onFrameAttached. do 2 wp_step.
  wp_step. apply wp_assert; [intros _|done].
  set (parentFrame := if truthy parentFrameId
                      then _frames m !! default "" parentFrameId else None).
  assert (∀ p, parentFrame = Some p → p < length (store m)) as Hp.
  { intros p. unfold parentFrame. destruct (truthy _); [|done].
    apply (wf_frames _ Hwf). }
  clearbody parentFrame. unfold new_Frame.
  destruct parentFrame as [p|].
  - specialize (Hp p eq_refl).
    repeat wp_step.
    simpl in H. rewrite lookup_app_l in H by done.
    apply wf_add_call, wf_add_call, wf_insert_frame;
      [simpl; rewrite !length_insert, length_app; simpl; lia|].
    destruct Hwf as [Htree Hfr Hmn Hcx].
    split; simpl; rewrite ?length_insert, ?length_app; simpl.
    + eapply wf_store_update; [done|apply keeps_links_with_frameData|].
      by apply wf_store_new_child.
    + intros id h Hh. apply Hfr in Hh. lia.
    + intros h Hh. apply Hmn in Hh. lia.
    + intros k c Hc. apply Hcx in Hc. lia.
  - repeat wp_step.
    apply wf_add_call, wf_add_call, wf_set_mainFrame;
      [simpl; rewrite !length_insert, length_app; simpl; lia|].
    apply wf_insert_frame;
      [simpl; rewrite !length_insert, length_app; simpl; lia|].
    destruct Hwf as [Htree Hfr Hmn Hcx].
    split; simpl; rewrite ?length_insert, ?length_app; simpl.
    + eapply wf_store_update; [done|apply keeps_links_with_frameData|].
      by apply wf_store_new_root.
    + intros id h Hh. apply Hfr in Hh. lia.
    + intros h Hh. apply Hmn in Hh. lia.
    + intros k c Hc. apply Hcx in Hc. lia.
Qed.

(** ** Navigating a frame *)

Lemma contextDestroyed_wf h c m :
  wf m → h < length (store m) →
  wp False (_contextDestroyed h c)
    (λ _ m', wf m' ∧ h < length (store m')) wf m.
Proof.
  intros Hwf Hh. unfold _contextDestroyed.
  repeat wp_step; simpl; rewrite ?length_insert; eauto 10 with wf.
Qed.

Lemma disposeContextsOf_wf h m :
  wf m → h < length (store m) →
  wp False (disposeContextsOf h)
    (λ _ m', wf m' ∧ h < length (store m')) wf m.
Proof.
  intros Hwf Hh. unfold disposeContextsOf. do 2 wp_step.
  apply wp_for_each with (I := λ m', wf m' ∧ h < length (store m'));
    [done| |done].
  intros c m' _ [Hwf' Hh']. wp_step; [|by wp_step].
  do 2 wp_step. eapply wp_mono; [apply contextDestroyed_wf| |]; eauto with wf.
Qed.

Lemma remove_children_run fuel F m :
  wf m → F < length (store m) → budget m ≤ fuel →
  ∃ m' D, for_each (children (store m) F)
            (_removeFramesRecursively fuel) m = Done () m'
          ∧ removed m D m'.
Proof.
  intros Hwf HF Hfuel.
  destruct (remove_children_spec fuel F
              (removeFramesRecursively_spec fuel)
              (children (store m) F) m) as (m' & D & ? & ? & _); eauto.
  - apply Hwf.
  - apply (wf_nodup _ (wf_tree _ Hwf)).
  - apply (wf_child _ (wf_tree _ Hwf)).
  - unfold budget in Hfuel. lia.
Qed.

Lemma onFrameNavigated_wf framePayload initial m :
  wf m →
  wp False (_onFrameNavigated (budget m) framePayload initial)
    (λ _, wf) wf m.
Proof.
  intros Hwf. unfold _onFrameNavigated. do 2 wp_step.
  set (isMainFrame := negb (truthy (fp_parentId framePayload))).
  set (target := if isMainFrame then _mainFrame m
                 else _frames m !! fp_id framePayload).
  assert (∀ h, target = Some h → h < length (store m)) as Hh.
  { intros h. unfold target. destruct isMainFrame.
    - apply (wf_mainFrame _ Hwf).
    - apply (wf_frames _ Hwf). }
  clearbody target isMainFrame. destruct target as [h|]; [|by wp_step].
  specialize (Hh h eq_refl).
  destruct (lookup_lt_is_Some_2 _ _ Hh) as [f Hf].
  wp_step. eapply wp_Done; [by eapply childFrames_run|].
  destruct (remove_children_run (budget m) h m Hwf Hh)
    as (m1 & D & Hrun & Hrm); [done|].
  wp_step. eapply wp_Done; [done|].
  pose proof (wf_removed _ _ _ Hwf Hrm) as Hwf1.
  assert (h < length (store m1)) as Hh1
    by (by rewrite (removed_length _ _ _ Hrm)).
  clear Hrun Hrm Hf f Hwf Hh m D.
  wp_step.
  apply wp_mono with
    (Q := λ _ m', wf m' ∧ h < length (store m')) (E := wf); [| |done].
  { destruct isMainFrame; [|by wp_step].
    unfold _frameData. repeat wp_step.
    split; [|simpl; by rewrite length_insert].
    apply wf_insert_frame; [simpl; by rewrite length_insert|].
    eauto 10 with wf. }
  intros _ m2 [Hwf2 Hh2]. wp_step.
  eapply wp_mono; [by apply disposeContextsOf_wf| |done].
  intros _ m3 [Hwf3 Hh3]. simpl.
  unfold newDocumentId, _onExpectedNewDocumentNavigation,
    _onCommittedNewDocumentNavigation.
  repeat wp_step; eauto 10 with wf.
Qed.

(** *** What a navigation leaves alone *)

Lemma sr_refl m : same_registry m m.
Proof. by split. Qed.

Lemma sr_ext a b b' :
  _frames b' = _frames b → _mainFrame b' = _mainFrame b →
  store b' = store b → same_registry a b → same_registry a b'.
Proof. intros Hf Hm Hs [? ? ? ? ? ?]. split; rewrite ?Hf, ?Hm, ?Hs; done. Qed.

Lemma sr_add_call a b c : same_registry a b → same_registry a (add_call c b).
Proof. by apply sr_ext. Qed.

Lemma sr_set_contexts a b g :
  same_registry a b → same_registry a (set_contexts g b).
Proof. by apply sr_ext. Qed.

Lemma sr_set_lastDocumentId a b n :
  same_registry a b → same_registry a (set_lastDocumentId n b).
Proof. by apply sr_ext. Qed.

Lemma sr_update a b h f g :
  store b !! h = Some f → frameData_id (g f) = frameData_id f →
  keeps_links g →
  same_registry a b → same_registry a (set_store (<[h := g f]>) b).
Proof.
  intros Hh Hg Hk [? ? Hl Hid Hp Hc].
  pose proof (lookup_lt_Some _ _ _ Hh) as Hlt.
  split; simpl; rewrite ?length_insert; try done.
  - intros x. rewrite <- Hid. unfold frameId_of.
    destruct (decide (x = h)) as [->|].
    + rewrite list_lookup_insert_eq by done. rewrite Hh. simpl. by f_equal.
    + by rewrite list_lookup_insert_ne.
  - intros x. rewrite <- Hp. unfold parent.
    destruct (decide (x = h)) as [->|].
    + rewrite list_lookup_insert_eq by done. rewrite Hh. simpl. apply Hk.
    + by rewrite list_lookup_insert_ne.
  - intros x. rewrite <- Hc. unfold children.
    destruct (decide (x = h)) as [->|].
    + rewrite list_lookup_insert_eq by done. rewrite Hh. simpl. apply Hk.
    + by rewrite list_lookup_insert_ne.
Qed.

Lemma sr_set_contextsCreated a b n :
  same_registry a b → same_registry a (set_contextsCreated n b).
Proof. by apply sr_ext. Qed.

Create HintDb sr.
#[local] Hint Resolve sr_refl sr_add_call sr_set_contexts
  sr_set_lastDocumentId sr_set_contextsCreated sr_update
  keeps_links_with_fired keeps_links_with_document keeps_links_with_url
  keeps_links_with_context : sr.

Lemma sr_valid a b h :
  same_registry a b → h < length (store a) → is_Some (store b !! h).
Proof. intros [_ _ Hl _ _ _] ?. apply lookup_lt_is_Some_2. by rewrite Hl. Qed.

Lemma contextDestroyed_registry a h c m :
  same_registry a m → h < length (store a) →
  wp False (_contextDestroyed h c) (λ _, same_registry a) (λ _, False) m.
Proof.
  intros Hsr Hh. pose proof (sr_valid _ _ _ Hsr Hh) as Hv.
  apply lookup_lt_is_Some_1 in Hv.
  unfold _contextDestroyed. repeat wp_step; eauto 10 with sr.
Qed.

Lemma disposeContextsOf_registry h m :
  h < length (store m) →
  wp False (disposeContextsOf h) (λ _, same_registry m) (λ _, False) m.
Proof.
  intros Hh. unfold disposeContextsOf. do 2 wp_step.
  apply wp_for_each with (I := same_registry m); [apply sr_refl| |done].
  intros c m' _ Hsr. wp_step; [|by wp_step].
  do 2 wp_step. apply contextDestroyed_registry; eauto with sr.
Qed.

(** The part of [_onFrameNavigated] after the frame id was rewritten. *)
Lemma navigated_tail_registry h loaderId initial url name m :
  h < length (store m) →
  wp False
    (disposeContextsOf h;;
     documentId ← newDocumentId loaderId;
     (if initial : bool then mret ()
      else _onExpectedNewDocumentNavigation h documentId);;
     _onCommittedNewDocumentNavigation h url name documentId;;
     log (Emit FrameNavigated h);;
     log (PageEmit Page_FrameNavigated (Some h)))
    (λ _, same_registry m) (λ _, False) m.
Proof.
  intros Hh. wp_step.
  eapply wp_mono; [by apply disposeContextsOf_registry| |done].
  intros u m1 Hsr. simpl. pose proof (sr_valid _ _ _ Hsr Hh) as Hv.
  apply lookup_lt_is_Some_1 in Hv.
  unfold newDocumentId, _onExpectedNewDocumentNavigation,
    _onCommittedNewDocumentNavigation.
  repeat wp_step; eauto 10 with sr.
Qed.

(** ** Every reachable state is well formed *)

Lemma wf_new : wf new_FrameManager.
Proof.
  split; simpl; try done.
  split.
  - intros h p. unfold parent. by rewrite lookup_nil.
  - intros p c. unfold children. rewrite lookup_nil. by intros ?%elem_of_nil.
  - intros p. unfold children. rewrite lookup_nil. constructor.
Qed.

(** In a well-formed state every handler returns or throws (the budget
    suffices and no handle dangles), and leaves a well-formed state. *)
Lemma call_returns_or_throws op m :
  wf m → wp False (call op) (λ _, wf) wf m.
Proof.
  intros Hwf. destruct op; unfold call.
  - wp_step. eapply wp_mono; [by apply onFrameAttached_wf| |done].
    intros h m' ?. by wp_step.
  - do 2 wp_step. by apply onFrameNavigated_wf.
  - by apply onFrameNavigatedWithinDocument_wf.
  - do 2 wp_step. by apply onFrameDetached_wf.
  - by apply onFrameStoppedLoading_wf.
  - by apply onLifecycleEvent_wf.
  - by apply onExecutionContextCreated_wf.
Qed.

Lemma after_wf op m : wf m → wf (after op m).
Proof.
  intros Hwf. pose proof (call_returns_or_throws op m Hwf) as H.
  unfold wp in H. unfold after. by destruct (call op m).
Qed.

Lemma run_wf ops m : wf m → wf (run ops m).
Proof.
  revert m. induction ops as [|op ops IH]; intros m Hwf; [done|].
  simpl. by apply IH, after_wf.
Qed.

Lemma reachable_wf m : reachable m → wf m.
Proof. intros [ops ->]. apply run_wf, wf_new. Qed.

Lemma reachable_run ops m : reachable m → reachable (run ops m).
Proof.
  intros [ops0 ->]. exists (ops0 ++ ops). unfold run. by rewrite foldl_app.
Qed.

(** ** Descendants *)

Lemma ancestors_spec s (Hwf : wf_store s) n :
  ∀ h r, h ≤ n → r ∈ ancestors n s h ↔ in_subtree s r h ∧ r ≠ h.
Proof.
  induction n as [|n IH]; intros h r Hh; simpl.
  - split; [by intros ?%elem_of_nil|]. intros [Hr Hne].
    apply (in_subtree_le _ Hwf) in Hr. lia.
  - destruct (parent s h) as [p|] eqn:Hp.
    + pose proof (child_step_lt _ Hwf _ _ Hp) as Hlt.
      rewrite elem_of_cons, IH by lia. split.
      * intros Hr. assert (in_subtree s r p) as Hrp.
        { destruct Hr as [->|[? _]]; [constructor|done]. }
        split; [by eapply in_subtree_child|].
        apply (in_subtree_le _ Hwf) in Hrp. lia.
      * intros [[->|(x & Hrx & Hxh)]%rtc_inv_r Hne]; [done|].
        unfold child_step in Hxh. assert (x = p) as -> by congruence.
        destruct (decide (r = p)); [by left|by right].
    + split; [by intros ?%elem_of_nil|].
      intros [[->|(x & _ & Hxh)]%rtc_inv_r Hne]; [done|].
      unfold child_step in Hxh. congruence.
Qed.

Lemma elem_of_descendants s r h :
  wf_store s → h ∈ descendants s r ↔ in_subtree s r h ∧ r ≠ h.
Proof.
  intros Hwf. unfold descendants.
  rewrite list_elem_of_filter, elem_of_seq. split.
  - intros [Hr [_ Hh]]. apply (ancestors_spec _ Hwf) in Hr; [done|]. simpl in Hh. lia.
  - intros [Hr Hne]. assert (h < length s) as Hlt.
    { apply rtc_inv_r in Hr as [->|(x & _ & Hx)]; [done|].
      by eapply parent_lt_length. }
    split; [|simpl; lia]. apply (ancestors_spec _ Hwf); [lia|done].
Qed.

Lemma NoDup_descendants s r : NoDup (descendants s r).
Proof. apply NoDup_filter, NoDup_seq. Qed.

(** A duplicate-free post-order listing of the subtree of [r] lists [r] and
    its descendants. *)
Lemma subtree_order_descendants s r D :
  wf_store s → subtree_order s r D → D ≡ₚ r :: descendants s r.
Proof.
  intros Hwf [Hnd Hel _]. apply NoDup_Permutation; [done| |].
  - apply NoDup_cons. split; [|apply NoDup_descendants].
    rewrite elem_of_descendants by done. naive_solver.
  - intros h. rewrite Hel, elem_of_cons, elem_of_descendants by done.
    split.
    + intros Hh. destruct (decide (h = r)); [by left|right]. done.
    + intros [->|[? _]]; [constructor|done].
Qed.

Lemma emitted_app e cs cs' : emitted e (cs ++ cs') = emitted e cs ++ emitted e cs'.
Proof. apply omap_app. Qed.

Lemma page_emitted_app e cs cs' :
  page_emitted e (cs ++ cs') = page_emitted e cs ++ page_emitted e cs'.
Proof. apply omap_app. Qed.

Lemma emitted_detach_calls D :
  emitted FrameDetached (flat_map detach_calls D) = D.
Proof.
  induction D as [|h D IH]; [done|].
  change (flat_map detach_calls (h :: D))
    with (detach_calls h ++ flat_map detach_calls D).
  by rewrite emitted_app, IH.
Qed.

Lemma page_emitted_detach_calls D :
  page_emitted Page_FrameDetached (flat_map detach_calls D) = Some <$> D.
Proof.
  induction D as [|h D IH]; [done|].
  change (flat_map detach_calls (h :: D))
    with (detach_calls h ++ flat_map detach_calls D).
  by rewrite page_emitted_app, IH.
Qed.

(** ** Recursive detach *)

(** C2.  In every reachable state, [_onFrameDetached] for the id of a
    registered frame [F] with [N] transitive descendants returns (for any
    budget that covers the store), emits [FrameDetached] exactly [N+1]
    times on the manager and on the page, once for each frame of the
    subtree of [F], each child before its parent, and afterwards
    [frame(id)] is null for the id of each of them; for an id that is not
    registered the call changes nothing. *)
Theorem onFrameDetached_removes_subtree m fuel frameId :
  reachable m → budget m ≤ fuel →
  match frame frameId m with
  | None => _onFrameDetached fuel frameId m = Done () m
  | Some F =>
      ∃ m' D,
        _onFrameDetached fuel frameId m = Done () m'
        ∧ emitted FrameDetached (calls m')
            = emitted FrameDetached (calls m) ++ D
        ∧ page_emitted Page_FrameDetached (calls m')
            = page_emitted Page_FrameDetached (calls m) ++ (Some <$> D)
        ∧ length D = S (length (descendants (store m) F))
        ∧ D ≡ₚ F :: descendants (store m) F
        ∧ (∀ c p, c ∈ D → p ∈ D → parent (store m) c = Some p →
             before c p D)
        ∧ (∀ h id, h ∈ D → frameId_of (store m) h = Some id →
             frame id m' = None)
  end.
Proof.
  intros Hwf%reachable_wf Hfuel. unfold frame, _onFrameDetached.
  destruct (_frames m !! frameId) as [F|] eqn:HF.
  - destruct (removeFramesRecursively_spec fuel F m)
      as (m' & D & Hrun & Hrm & Hso).
    { apply Hwf. }
    { by eapply wf_frames. }
    { unfold budget in Hfuel. lia. }
    pose proof (subtree_order_descendants _ _ _ (wf_tree _ Hwf) Hso) as Hperm.
    exists m', D. split_and!.
    + by rewrite (bind_run _ _ _ _ _ (eq_refl : get_state m = Done m m)), HF.
    + by rewrite (rm_calls _ _ _ Hrm), emitted_app, emitted_detach_calls.
    + by rewrite (rm_calls _ _ _ Hrm), page_emitted_app,
        page_emitted_detach_calls.
    + by rewrite Hperm.
    + done.
    + apply Hso.
    + intros h id Hh Hid. rewrite (rm_frames _ _ _ Hrm).
      rewrite bool_decide_eq_true_2; [done|].
      rewrite <- Hid. by apply list_elem_of_fmap_2.
  - by rewrite (bind_run _ _ _ _ _ (eq_refl : get_state m = Done m m)), HF.
Qed.

(** C2 at [example_tree]: detaching [a] (three descendants). *)
Lemma onFrameDetached_removes_subtree_witness :
  reachable example_tree ∧ budget example_tree ≤ 4 ∧
  ∃ m' D,
    _onFrameDetached 4 "a" example_tree = Done () m'
    ∧ emitted FrameDetached (calls m')
        = emitted FrameDetached (calls example_tree) ++ D
    ∧ page_emitted Page_FrameDetached (calls m')
        = page_emitted Page_FrameDetached (calls example_tree)
          ++ (Some <$> D)
    ∧ length D = S (length (descendants (store example_tree) 0))
    ∧ D ≡ₚ 0 :: descendants (store example_tree) 0
    ∧ (∀ c p, c ∈ D → p ∈ D → parent (store example_tree) c = Some p →
         before c p D)
    ∧ (∀ h id, h ∈ D → frameId_of (store example_tree) h = Some id →
         frame id m' = None).
Proof.
  assert (reachable example_tree) as Hr by (eexists; reflexivity).
  assert (budget example_tree ≤ 4) as Hb by (vm_compute; lia).
  split; [exact Hr|split; [exact Hb|]].
  exact (onFrameDetached_removes_subtree example_tree 4 "a" Hr Hb).
Defined.

Lemma wp_returns {A} (c : M A) Q m :
  wp False c Q (λ _, False) m → ∃ a m', c m = Done a m' ∧ Q a m'.
Proof. unfold wp. destruct (c m); try done. eauto. Qed.

(** ** Identity of the main frame *)

(** C1.  In every reachable state with a main frame, [_onFrameNavigated]
    with a payload that has no [parentId] returns, [mainFrame()] is the same
    Frame object before and after, the frame's stored id is the payload's
    id, [frame(newId)] is that object and [frame(oldId)] is null when the
    two ids differ.  (The state after the call is reachable again, so this
    covers every sequence of such navigations.) *)
Theorem onFrameNavigated_keeps_mainFrame m fuel framePayload initial F oldId :
  reachable m → budget m ≤ fuel →
  mainFrame m = Some F → frameId_of (store m) F = Some oldId →
  fp_parentId framePayload = None →
  ∃ m', _onFrameNavigated fuel framePayload initial m = Done () m'
    ∧ mainFrame m' = Some F
    ∧ frameId_of (store m') F = Some (fp_id framePayload)
    ∧ frame (fp_id framePayload) m' = Some F
    ∧ (oldId ≠ fp_id framePayload → frame oldId m' = None).
Proof.
  intros Hwf%reachable_wf Hfuel Hmain Hold Hparent.
  unfold mainFrame in Hmain.
  pose proof (wf_mainFrame _ Hwf _ Hmain) as HF.
  destruct (lookup_lt_is_Some_2 _ _ HF) as [f Hf].
  destruct (remove_children_run fuel F m Hwf HF Hfuel)
    as (m1 & D & Hrun & Hrm).
  assert (F < length (store m1)) as HF1
    by (by rewrite (removed_length _ _ _ Hrm)).
  assert (frameId_of (store m1) F = Some oldId) as Hold1
    by (by rewrite (rm_store _ _ _ Hrm), frameId_of_prune).
  pose proof (rm_mainFrame _ _ _ Hrm) as Hmain1. rewrite Hmain in Hmain1.
  cut (wp False (_onFrameNavigated fuel framePayload initial)
         (λ _ m', mainFrame m' = Some F
            ∧ frameId_of (store m') F = Some (fp_id framePayload)
            ∧ frame (fp_id framePayload) m' = Some F
            ∧ (oldId ≠ fp_id framePayload → frame oldId m' = None))
         (λ _, False) m).
  { intros ([] & m' & ? & ?)%wp_returns. eauto. }
  unfold _onFrameNavigated. do 2 wp_step. rewrite Hparent, Hmain. simpl.
  wp_step. eapply wp_Done; [by eapply childFrames_run|].
  wp_step. eapply wp_Done; [done|].
  clear Hrun Hrm Hf f Hold HF Hmain Hwf Hfuel.
  unfold _frameData. do 4 wp_step.
  unfold frameId_of in Hold1. rewrite H in Hold1. simpl in Hold1.
  injection Hold1 as ->.
  do 6 wp_step.
  eapply wp_mono; [apply navigated_tail_registry| |done].
  { simpl. by rewrite length_insert. }
  intros _ m' [Hfr Hmn _ Hid _ _]. unfold mainFrame, frame.
  rewrite Hfr, Hmn, Hid. simpl. split_and!.
  - done.
  - unfold frameId_of. by rewrite list_lookup_insert_eq.
  - apply lookup_insert_eq.
  - intros Hne. rewrite lookup_insert_ne by done. apply lookup_delete_eq.
Qed.

(** C1 at [example_tree]: the main frame [a] moves to the id [z]. *)
Lemma onFrameNavigated_keeps_mainFrame_witness :
  reachable example_tree ∧ budget example_tree ≤ 4 ∧
  mainFrame example_tree = Some 0 ∧
  frameId_of (store example_tree) 0 = Some "a" ∧
  fp_parentId (example_payload "z" None "L") = None ∧
  ∃ m', _onFrameNavigated 4 (example_payload "z" None "L") false
          example_tree = Done () m'
    ∧ mainFrame m' = Some 0
    ∧ frameId_of (store m') 0 = Some "z"
    ∧ frame "z" m' = Some 0
    ∧ ("a" ≠ "z" → frame "a" m' = None).
Proof.
  assert (reachable example_tree) as Hr by (eexists; reflexivity).
  assert (budget example_tree ≤ 4) as Hb by (vm_compute; lia).
  split_and!; [exact Hr|exact Hb|reflexivity..|].
  exact (onFrameNavigated_keeps_mainFrame example_tree 4
           (example_payload "z" None "L") false 0 "a"
           Hr Hb eq_refl eq_refl eq_refl).
Defined.

(** ** Document ids *)

Lemma sd_refl m : same_documents m m.
Proof. by split. Qed.

Lemma sd_ext a b b' :
  calls b' = calls b → lastDocumentId b' = lastDocumentId b →
  same_documents a b → same_documents a b'.
Proof. intros Hc Hl [? ?]. split; rewrite ?Hc, ?Hl; done. Qed.

Lemma sd_set_store a b g : same_documents a b → same_documents a (set_store g b).
Proof. by apply sd_ext. Qed.

Lemma sd_set_frames a b g :
  same_documents a b → same_documents a (set_frames g b).
Proof. by apply sd_ext. Qed.

Lemma sd_set_contexts a b g :
  same_documents a b → same_documents a (set_contexts g b).
Proof. by apply sd_ext. Qed.

Lemma sd_set_mainFrame a b h :
  same_documents a b → same_documents a (set_mainFrame h b).
Proof. by apply sd_ext. Qed.

Lemma sd_set_contextsCreated a b n :
  same_documents a b → same_documents a (set_contextsCreated n b).
Proof. by apply sd_ext. Qed.

Lemma documentIds_app cs cs' :
  documentIds (cs ++ cs') = documentIds cs ++ documentIds cs'.
Proof. apply omap_app. Qed.

Lemma sd_add_call a b c :
  documentIds [c] = [] → same_documents a b → same_documents a (add_call c b).
Proof.
  intros Hc [Hd Hl]. split; simpl; [|done].
  by rewrite documentIds_app, Hc, app_nil_r.
Qed.

Create HintDb sd.
#[local] Hint Resolve sd_refl sd_set_store sd_set_frames sd_set_contexts
  sd_set_mainFrame sd_set_contextsCreated : sd.
#[local] Hint Extern 1 (same_documents _ (add_call _ _)) =>
  apply sd_add_call; [reflexivity|] : sd.

Lemma removeFramesRecursively_documents a fuel :
  ∀ F m, same_documents a m →
    wp True (_removeFramesRecursively fuel F)
      (λ _, same_documents a) (same_documents a) m.
Proof.
  induction fuel as [|fuel IH]; intros F m Hsd; [done|].
  simpl. unfold childFrames. do 4 wp_step.
  wp_step. apply wp_for_each with (I := same_documents a); [done| |].
  { intros c m' _ ?. by apply IH. }
  intros m' Hsd'. unfold _onDetached, _frameData.
  do 3 wp_step. destruct (_parentFrame f0); repeat wp_step; eauto 10 with sd.
Qed.

Lemma contextDestroyed_documents a h c m :
  same_documents a m →
  wp True (_contextDestroyed h c) (λ _, same_documents a) (same_documents a) m.
Proof.
  intros Hsd. unfold _contextDestroyed. repeat wp_step; eauto 10 with sd.
Qed.

Lemma disposeContextsOf_documents a h m :
  same_documents a m →
  wp True (disposeContextsOf h) (λ _, same_documents a) (same_documents a) m.
Proof.
  intros Hsd. unfold disposeContextsOf. do 2 wp_step.
  apply wp_for_each with (I := same_documents a); [done| |done].
  intros c m' _ Hsd'. wp_step; [|by wp_step].
  do 2 wp_step. apply contextDestroyed_documents; eauto with sd.
Qed.

Lemma onFrameNavigated_documents fuel framePayload initial m :
  wp True (_onFrameNavigated fuel framePayload initial)
    (λ _ m',
       documentIds (calls m') = documentIds (calls m) ++
         [documentId_of (fp_loaderId framePayload)
            (js_increment (lastDocumentId m))]
       ∧ lastDocumentId m' = js_increment (lastDocumentId m))
    (same_documents m) m.
Proof.
  unfold _onFrameNavigated. do 2 wp_step.
  destruct (if negb _ then _ else _) as [h|]; [|wp_step; apply sd_refl].
  unfold childFrames. do 4 wp_step.
  wp_step. apply wp_for_each with (I := same_documents m); [apply sd_refl| |].
  { intros c m' _ ?. by apply removeFramesRecursively_documents. }
  intros m1 Hsd1. wp_step.
  apply wp_mono with (Q := λ _, same_documents m) (E := same_documents m);
    [| |done].
  { destruct (negb _); [|by wp_step].
    unfold _frameData. repeat wp_step; eauto 10 with sd. }
  intros u m2 Hsd2. wp_step.
  eapply wp_mono; [by apply disposeContextsOf_documents| |done].
  intros u' m3 [Hd3 Hl3]. simpl.
  unfold newDocumentId, _onExpectedNewDocumentNavigation,
    _onCommittedNewDocumentNavigation.
  repeat wp_step; simpl; rewrite ?documentIds_app, ?Hd3, ?Hl3; simpl;
    rewrite ?app_nil_r; done.
Qed.

Lemma call_documents op m :
  wp True (call op)
    (λ _ m',
       same_documents m m'
       ∨ ∃ loaderId,
           documentIds (calls m') = documentIds (calls m) ++
             [documentId_of loaderId (js_increment (lastDocumentId m))]
           ∧ lastDocumentId m' = js_increment (lastDocumentId m))
    (same_documents m) m.
Proof.
  destruct op; unfold call.
  - unfold _onFrameAttached, new_Frame.
    do 4 wp_step. apply wp_assert; [intros _|intros _; apply sd_refl].
    destruct (if truthy _ then _ else _); repeat wp_step; left;
      eauto 15 with sd.
  - do 2 wp_step.
    eapply wp_mono; [apply onFrameNavigated_documents| |done].
    intros u m' [? ?]. right. eauto.
  - unfold _onFrameNavigatedWithinDocument,
      _onCommittedSameDocumentNavigation.
    do 2 wp_step. destruct (_frames m !! _); repeat wp_step; left;
      eauto 10 with sd.
  - unfold _onFrameDetached. do 4 wp_step.
    destruct (_frames m !! _); [|wp_step; left; apply sd_refl].
    eapply wp_mono;
      [apply removeFramesRecursively_documents, sd_refl|by left|done].
  - unfold _onFrameStoppedLoading, _lifecycleEvent. do 2 wp_step.
    destruct (_frames m !! _); repeat wp_step; left; eauto 10 with sd.
  - unfold _onLifecycleEvent, _lifecycleEvent. do 2 wp_step.
    destruct (_frames m !! _); repeat wp_step; left; eauto 10 with sd.
  - unfold _onExecutionContextCreated, new_ExecutionContext,
      _contextCreated. do 3 wp_step; [wp_step; left; apply sd_refl|].
    destruct (_frames m !! _); repeat wp_step; left; eauto 10 with sd.
Qed.

(** *** The counter value can be read back from a document id *)

Lemma append_nil (s : string) : "" +:+ s = s.
Proof. reflexivity. Qed.

Lemma append_cons c (s t : string) : String c s +:+ t = String c (s +:+ t).
Proof. reflexivity. Qed.

Lemma has_colon_app s t : has_colon (s +:+ t) = has_colon s || has_colon t.
Proof.
  induction s as [|c s IH]; [done|].
  rewrite append_cons. simpl. by rewrite IH, orb_assoc.
Qed.

Lemma after_last_colon a b x y :
  has_colon x = false → has_colon y = false →
  a +:+ String ":" x = b +:+ String ":" y → x = y.
Proof.
  intros Hx Hy. revert b. induction a as [|c a IH]; intros [|c' b];
    rewrite ?append_nil, ?append_cons.
  - by intros [= ->].
  - intros [= <- ->]. rewrite has_colon_app in Hx. simpl in Hx.
    by rewrite orb_true_r in Hx.
  - intros [= -> <-]. rewrite has_colon_app in Hy. simpl in Hy.
    by rewrite orb_true_r in Hy.
  - intros [= _ H]. by apply IH in H.
Qed.

Lemma pretty_N_char_no_colon x : pretty_N_char x ≠ ":"%char.
Proof. unfold pretty_N_char. by repeat case_match. Qed.

Lemma pretty_N_go_no_colon x :
  ∀ s, has_colon s = false → has_colon (pretty_N_go x s) = false.
Proof.
  induction (N.lt_wf_0 x) as [x _ IH]. intros s Hs.
  destruct (decide (x = 0%N)) as [->|Hx].
  - by rewrite pretty_N_go_0.
  - rewrite pretty_N_go_step by lia. apply IH.
    + apply N.div_lt; lia.
    + simpl. rewrite Hs, orb_false_r.
      apply bool_decide_eq_false_2, pretty_N_char_no_colon.
Qed.

Lemma pretty_N_no_colon (n : N) : has_colon (pretty n) = false.
Proof.
  unfold pretty, pretty_N. case_decide; [done|].
  by apply pretty_N_go_no_colon.
Qed.

Lemma String_app_assoc (a b c : string) : (a +:+ b) +:+ c = a +:+ (b +:+ c).
Proof.
  induction a as [|x a IH]; [done|]. by rewrite !append_cons, IH.
Qed.

Lemma documentId_of_inj l1 n1 l2 n2 :
  documentId_of l1 n1 = documentId_of l2 n2 → n1 = n2.
Proof.
  unfold documentId_of. intros H.
  change (l1 +:+ (":" +:+ String ":" (pretty n1))
          = l2 +:+ (":" +:+ String ":" (pretty n2))) in H.
  rewrite <- !(String_app_assoc _ ":") in H.
  apply after_last_colon in H; auto using pretty_N_no_colon.
  by apply (inj pretty) in H.
Qed.

(** *** Along a run *)

Lemma after_documents op m :
  same_documents m (after op m)
  ∨ ∃ loaderId,
      documentIds (calls (after op m)) = documentIds (calls m) ++
        [documentId_of loaderId (js_increment (lastDocumentId m))]
      ∧ lastDocumentId (after op m) = js_increment (lastDocumentId m).
Proof.
  pose proof (call_documents op m) as H. unfold wp in H. unfold after.
  destruct (call op m); try done; first [by left|left; apply sd_refl].
Qed.

Lemma js_increment_below n : (n < 2 ^ 53)%N → js_increment n = (n + 1)%N.
Proof.
  intros H. unfold js_increment.
  destruct (N.ltb_spec n (2 ^ 53)); [done|lia].
Qed.

Lemma js_increment_le n : (js_increment n ≤ n + 1)%N.
Proof. unfold js_increment. destruct (n <? 2 ^ 53)%N; lia. Qed.

Lemma after_documents_ok op m :
  (lastDocumentId m < 2 ^ 53)%N → documents_ok m → documents_ok (after op m).
Proof.
  intros Hn [Hnd Hc].
  destruct (after_documents op m) as [[Hd Hl]|(l & Hd & Hl)].
  - split; rewrite Hd, ?Hl; done.
  - rewrite js_increment_below in Hd, Hl by done.
    split; rewrite Hd, ?Hl.
    + apply NoDup_app. split_and!; [done| |apply NoDup_singleton].
      intros d Hin ->%list_elem_of_singleton.
      destruct (Hc _ Hin) as (l' & k & Heq & Hk).
      apply documentId_of_inj in Heq. lia.
    + intros d [Hin| ->%list_elem_of_singleton]%elem_of_app.
      * destruct (Hc _ Hin) as (l' & k & Heq & Hk).
        exists l', k. split; [done|lia].
      * exists l, (lastDocumentId m + 1)%N. split; [done|lia].
Qed.

Lemma after_counter op m :
  (lastDocumentId (after op m) ≤ lastDocumentId m + 1)%N.
Proof.
  destruct (after_documents op m) as [[_ ->]|(l & _ & ->)];
    [lia|apply js_increment_le].
Qed.

Lemma run_documents_ok ops :
  ∀ m, (lastDocumentId m + N.of_nat (length ops) ≤ 2 ^ 53)%N →
    documents_ok m → documents_ok (run ops m).
Proof.
  induction ops as [|op ops IH]; intros m Hn Hok; [done|].
  simpl in *. apply IH.
  - pose proof (after_counter op m). lia.
  - apply after_documents_ok; [lia|done].
Qed.

Lemma documents_ok_new : documents_ok new_FrameManager.
Proof. split; simpl; [constructor|]. by intros d ?%elem_of_nil. Qed.

(** One manager on its own. *)
Lemma run_documentIds_distinct ops :
  (N.of_nat (length ops) ≤ 2 ^ 53)%N →
  NoDup (documentIds (calls (run ops new_FrameManager))).
Proof.
  intros Hn. apply do_nodup, run_documents_ok; [simpl; lia|].
  apply documents_ok_new.
Qed.

(** *** Across the pages of a process *)

Lemma mjoin_insert_snoc (ls : list (list string)) i l d :
  ls !! i = Some l → mjoin (<[i := l ++ [d]]> ls) ≡ₚ mjoin ls ++ [d].
Proof.
  revert i. induction ls as [|x ls IH]; intros [|i]; simpl; try done.
  - intros [= ->]. rewrite <- !app_assoc. f_equiv. apply Permutation_app_comm.
  - intros Hi. by rewrite (IH _ Hi), app_assoc.
Qed.

Lemma deliver_documents p event :
  (counter (deliver p event) = counter p
   ∧ process_documentIds (deliver p event) = process_documentIds p)
  ∨ ∃ loaderId,
      counter (deliver p event) = js_increment (counter p)
      ∧ process_documentIds (deliver p event)
          ≡ₚ process_documentIds p
             ++ [documentId_of loaderId (js_increment (counter p))].
Proof.
  unfold deliver, process_documentIds.
  destruct (managers p !! event.1) as [m|] eqn:Hm; [|by left].
  destruct (after_documents event.2 (set_lastDocumentId (counter p) m))
    as [[Hd Hl]|(l & Hd & Hl)]; simpl in *.
  - left. split; [done|]. rewrite list_fmap_insert, Hd.
    rewrite list_insert_id; [done|]. by rewrite list_lookup_fmap, Hm.
  - right. exists l. split; [done|]. rewrite list_fmap_insert, Hd.
    apply mjoin_insert_snoc. by rewrite list_lookup_fmap, Hm.
Qed.

Lemma deliver_all_documents events :
  ∀ p, (counter p + N.of_nat (length events) ≤ 2 ^ 53)%N →
    NoDup (process_documentIds p) →
    (∀ d, d ∈ process_documentIds p →
       ∃ loaderId n, d = documentId_of loaderId n ∧ (n ≤ counter p)%N) →
    NoDup (process_documentIds (deliver_all events p)).
Proof.
  induction events as [|event events IH]; intros p Hn Hnd Hc; [done|].
  simpl in *.
  destruct (deliver_documents p event) as [[Hl Hd]|(l & Hl & Hd)];
    apply IH; rewrite ?Hl.
  - lia.
  - by rewrite Hd.
  - by rewrite Hd.
  - pose proof (js_increment_le (counter p)). lia.
  - rewrite Hd. apply NoDup_app. split_and!; [done| |apply NoDup_singleton].
    intros d Hin ->%list_elem_of_singleton.
    destruct (Hc _ Hin) as (l' & k & Heq & Hk).
    apply documentId_of_inj in Heq.
    rewrite js_increment_below in Heq by lia. lia.
  - rewrite js_increment_below by lia. intros d Hin. rewrite Hd in Hin.
    apply elem_of_app in Hin as [Hin| ->%list_elem_of_singleton].
    + destruct (Hc _ Hin) as (l' & k & Heq & Hk).
      exists l', k. split; [done|lia].
    + exists l, (counter p + 1)%N.
      rewrite js_increment_below by lia. split; [done|lia].
Qed.

Lemma process_documentIds_fresh pages :
  process_documentIds (fresh_Process pages) = [].
Proof.
  unfold process_documentIds, fresh_Process. simpl.
  induction pages as [|n IH]; [done|].
  rewrite replicate_S, fmap_cons. simpl. exact IH.
Qed.

(** C4.  Along every sequence of protocol events delivered to the managers
    of a fresh process, as long as the counter stays within the integers a
    JavaScript number counts exactly (at most 2^53 events), the document
    ids [_onFrameNavigated] allocates are pairwise distinct, whatever the
    loader ids are and whichever page they belong to. *)
Theorem documentIds_distinct pages events :
  (N.of_nat (length events) ≤ 2 ^ 53)%N →
  NoDup (process_documentIds (deliver_all events (fresh_Process pages))).
Proof.
  intros Hn. apply deliver_all_documents.
  - simpl. lia.
  - rewrite process_documentIds_fresh. constructor.
  - rewrite process_documentIds_fresh. by intros d ?%elem_of_nil.
Qed.

(** C4 on two pages whose main frames navigate with the same loader id. *)
Lemma documentIds_distinct_witness :
  (N.of_nat (length
     [(0, OnFrameAttached "a" None); (1, OnFrameAttached "a" None);
      (0, OnFrameNavigated (example_payload "a" None "L") false);
      (1, OnFrameNavigated (example_payload "a" None "L") false);
      (0, OnFrameNavigated (example_payload "a" None "L") false)])
     ≤ 2 ^ 53)%N ∧
  NoDup (process_documentIds (deliver_all
    [(0, OnFrameAttached "a" None); (1, OnFrameAttached "a" None);
     (0, OnFrameNavigated (example_payload "a" None "L") false);
     (1, OnFrameNavigated (example_payload "a" None "L") false);
     (0, OnFrameNavigated (example_payload "a" None "L") false)]
    (fresh_Process 2))).
Proof.
  assert (N.of_nat 5 ≤ 2 ^ 53)%N as H by (vm_compute; discriminate).
  split; [exact H|].
  exact (documentIds_distinct 2
    [(0, OnFrameAttached "a" None); (1, OnFrameAttached "a" None);
     (0, OnFrameNavigated (example_payload "a" None "L") false);
     (1, OnFrameNavigated (example_payload "a" None "L") false);
     (0, OnFrameNavigated (example_payload "a" None "L") false)] H).
Defined.

Example documentIds_two_pages :
  process_documentIds (deliver_all
    [(0, OnFrameAttached "a" None); (1, OnFrameAttached "a" None);
     (0, OnFrameNavigated (example_payload "a" None "L") false);
     (1, OnFrameNavigated (example_payload "a" None "L") false);
     (0, OnFrameNavigated (example_payload "a" None "L") false)]
    (fresh_Process 2)) = ["L::1"; "L::3"; "L::2"].
Proof. vm_compute. reflexivity. Qed.

Example documentIds_same_loader :
  documentIds (calls (run
    [OnFrameAttached "a" None;
     OnFrameNavigated (example_payload "a" None "L") false;
     OnFrameNavigated (example_payload "a" None "L") false]
    new_FrameManager)) = ["L::1"; "L::2"].
Proof. vm_compute. reflexivity. Qed.

(** ** Lifecycle synthesis on stop *)

(** C6.  [_onFrameStoppedLoading] for the id of a registered main frame
    marks both [domcontentloaded] and [load] as fired on the frame and
    emits each page-level convenience event once exactly when its lifecycle
    event had not fired before; so for a frame that had [domcontentloaded]
    but not [load] it emits [Load] once and no [DOMContentLoaded]. *)
Theorem onFrameStoppedLoading_synthesizes m frameId F f :
  frame frameId m = Some F → mainFrame m = Some F → store m !! F = Some f →
  ∃ m' f',
    _onFrameStoppedLoading frameId m = Done () m'
    ∧ store m' !! F = Some f'
    ∧ _firedLifecycleEvents f'
        = {["load"]} ∪ ({["domcontentloaded"]} ∪ _firedLifecycleEvents f)
    ∧ page_emitted Page_Load (calls m')
        = page_emitted Page_Load (calls m)
          ++ (if bool_decide ("load" ∈ _firedLifecycleEvents f)
              then [] else [None])
    ∧ page_emitted Page_DOMContentLoaded (calls m')
        = page_emitted Page_DOMContentLoaded (calls m)
          ++ (if bool_decide ("domcontentloaded" ∈ _firedLifecycleEvents f)
              then [] else [None])
    ∧ ("domcontentloaded" ∈ _firedLifecycleEvents f →
       "load" ∉ _firedLifecycleEvents f →
       page_emitted Page_Load (calls m')
         = page_emitted Page_Load (calls m) ++ [None]
       ∧ page_emitted Page_DOMContentLoaded (calls m')
         = page_emitted Page_DOMContentLoaded (calls m)).
Proof.
  unfold frame, mainFrame. intros Hreg Hmain Hf.
  cut (wp False (_onFrameStoppedLoading frameId)
         (λ _ m', ∃ f', store m' !! F = Some f'
            ∧ _firedLifecycleEvents f'
                = {["load"]} ∪ ({["domcontentloaded"]} ∪ _firedLifecycleEvents f)
            ∧ page_emitted Page_Load (calls m')
                = page_emitted Page_Load (calls m)
                  ++ (if bool_decide ("load" ∈ _firedLifecycleEvents f)
                      then [] else [None])
            ∧ page_emitted Page_DOMContentLoaded (calls m')
                = page_emitted Page_DOMContentLoaded (calls m)
                  ++ (if bool_decide
                           ("domcontentloaded" ∈ _firedLifecycleEvents f)
                      then [] else [None]))
         (λ _, False) m).
  { intros ([] & m' & Hrun & f' & Hf' & Hfired & HL & HD)%wp_returns.
    exists m', f'. split_and!; try done.
    intros Hd Hl. rewrite HL, HD.
    rewrite bool_decide_eq_false_2, bool_decide_eq_true_2 by done.
    by rewrite app_nil_r. }
  pose proof (lookup_lt_Some _ _ _ Hf) as Hlt.
  unfold _onFrameStoppedLoading, _lifecycleEvent.
  do 2 wp_step. rewrite Hreg. do 2 wp_step.
  assert (f0 = f) as -> by congruence.
  do 4 wp_step. assert (f0 = f) as -> by congruence.
  do 2 wp_step. simpl in H1.
  rewrite list_lookup_insert_eq in H1 by done. injection H1 as <-.
  repeat wp_step.
  all: unfold mainFrame in *; simpl in *; rewrite Hmain in *.
  all: rewrite (bool_decide_eq_true_2 (Some F = Some F)) in * by done.
  all: destruct (bool_decide ("domcontentloaded" ∈ _)),
         (bool_decide ("load" ∈ _)); simpl in *; try discriminate.
  all: eexists; split;
         [by rewrite list_lookup_insert_eq by (by rewrite length_insert)|].
  all: rewrite ?page_emitted_app; simpl; rewrite ?app_nil_r; done.
Qed.

(** C6 at [example_loading]. *)
Lemma onFrameStoppedLoading_synthesizes_witness :
  frame "a" example_loading = Some 0 ∧
  mainFrame example_loading = Some 0 ∧
  ∃ f, store example_loading !! 0 = Some f
    ∧ "domcontentloaded" ∈ _firedLifecycleEvents f
    ∧ ("load" ∉ _firedLifecycleEvents f)
    ∧ ∃ m' f',
        _onFrameStoppedLoading "a" example_loading = Done () m'
        ∧ store m' !! 0 = Some f'
        ∧ _firedLifecycleEvents f'
            = {["load"]} ∪ ({["domcontentloaded"]} ∪ _firedLifecycleEvents f)
        ∧ page_emitted Page_Load (calls m')
            = page_emitted Page_Load (calls example_loading) ++ [None]
        ∧ page_emitted Page_DOMContentLoaded (calls m')
            = page_emitted Page_DOMContentLoaded (calls example_loading).
Proof.
  split; [reflexivity|]. split; [reflexivity|].
  destruct (store example_loading !! 0) as [f|] eqn:Hf; [|discriminate Hf].
  assert ("domcontentloaded" ∈ _firedLifecycleEvents f) as Hd.
  { vm_compute in Hf. injection Hf as <-. by vm_compute. }
  assert ("load" ∉ _firedLifecycleEvents f) as Hl.
  { vm_compute in Hf. injection Hf as <-. by vm_compute. }
  exists f. split_and!; [done..|].
  destruct (onFrameStoppedLoading_synthesizes example_loading "a" 0 f
              eq_refl eq_refl Hf)
    as (m' & f' & Hrun & Hf' & Hfired & _ & _ & Hspec).
  destruct (Hspec Hd Hl) as [HL HD].
  exists m', f'. split_and!; done.
Defined.

(** ** Execution contexts *)

(** C9.  [_onExecutionContextCreated] changes nothing when the payload's
    id is already registered (the registered context stays) and nothing
    when the payload's frame id is not registered; in particular a second
    delivery of the same payload changes nothing. *)
Theorem onExecutionContextCreated_idempotent m contextPayload :
  (is_Some (_contextIdToContext m !! ecd_id contextPayload) →
     _onExecutionContextCreated contextPayload m = Done () m)
  ∧ (frame (ecd_frameId contextPayload) m = None →
     _onExecutionContextCreated contextPayload m = Done () m)
  ∧ (∀ m', _onExecutionContextCreated contextPayload m = Done () m' →
     _onExecutionContextCreated contextPayload m' = Done () m').
Proof.
  assert (∀ m0, is_Some (_contextIdToContext m0 !! ecd_id contextPayload) →
            _onExecutionContextCreated contextPayload m0 = Done () m0)
    as Hreg.
  { intros m0 H. unfold _onExecutionContextCreated.
    rewrite (bind_run _ _ _ _ _ (eq_refl : get_state m0 = Done m0 m0)).
    by rewrite bool_decide_eq_true_2. }
  assert (∀ m0, frame (ecd_frameId contextPayload) m0 = None →
            _onExecutionContextCreated contextPayload m0 = Done () m0)
    as Hunk.
  { intros m0 H. unfold frame in H. unfold _onExecutionContextCreated.
    rewrite (bind_run _ _ _ _ _ (eq_refl : get_state m0 = Done m0 m0)).
    rewrite H. by destruct (bool_decide _). }
  split_and!; [apply Hreg|apply Hunk|].
  cut (wp True (_onExecutionContextCreated contextPayload)
         (λ _ m', _onExecutionContextCreated contextPayload m' = Done () m')
         (λ _, True) m).
  { intros H m' Hrun. unfold wp in H. by rewrite Hrun in H. }
  unfold _onExecutionContextCreated at 1. do 2 wp_step.
  case_bool_decide as Hid; [wp_step; by apply Hreg|].
  destruct (_frames m !! ecd_frameId contextPayload) as [h|] eqn:Hh;
    [|wp_step; by apply Hunk].
  unfold new_ExecutionContext, _contextCreated.
  repeat wp_step; apply Hreg; simpl; rewrite lookup_insert_eq; eauto.
Qed.

(** C9 at [example_contexts]: context 1 is registered, frame [x] is not. *)
Lemma onExecutionContextCreated_idempotent_witness :
  is_Some (_contextIdToContext example_contexts !! 1%Z) ∧
  frame "x" example_contexts = None ∧
  _onExecutionContextCreated (example_context 1 "b") example_contexts
    = Done () example_contexts ∧
  _onExecutionContextCreated (example_context 2 "x") example_contexts
    = Done () example_contexts.
Proof.
  assert (is_Some (_contextIdToContext example_contexts !! 1%Z)) as H1
    by (vm_compute; eauto).
  assert (frame "x" example_contexts = None) as H2 by reflexivity.
  split_and!; [exact H1|exact H2| |].
  - exact (proj1 (onExecutionContextCreated_idempotent example_contexts
                    (example_context 1 "b")) H1).
  - exact (proj1 (proj2 (onExecutionContextCreated_idempotent
                           example_contexts (example_context 2 "x"))) H2).
Defined.

(** ** Waiting for a navigation *)

(** C10.  When [options.waitUntil] is omitted the watcher of
    [navigateFrame] and of [waitForFrameNavigation] requires exactly
    [['load']], and when [options.timeout] is omitted its timeout is the
    page's navigation timeout; with the default requirement, a document for
    which [load] has not fired does not meet the lifecycle condition
    (whether or not [domcontentloaded] has). *)
Theorem navigation_defaults (navigationTimeout : Z) (Response : Type)
    frame url options sent raced (response : option Response) :
  let nav := navigateFrame navigationTimeout Response frame url options
               sent raced response in
  let wait := waitForFrameNavigation navigationTimeout Response frame options
                raced response in
  (opt_waitUntil options = None →
     lw_expectedLifecycle (nav_watchDog nav) = ["load"]
     ∧ lw_expectedLifecycle (nav_watchDog wait) = ["load"]
     ∧ ∀ fired : gset string, "load" ∉ fired →
         lifecycleSatisfied (nav_watchDog nav) fired = false
         ∧ lifecycleSatisfied (nav_watchDog wait) fired = false)
  ∧ (opt_timeout options = None →
     lw_timeout (nav_watchDog nav) = navigationTimeout
     ∧ lw_timeout (nav_watchDog wait) = navigationTimeout).
Proof.
  unfold navigateFrame, waitForFrameNavigation, lifecycleSatisfied.
  split; intros ->; destruct sent, raced; simpl; split_and!; try done;
    intros fired Hl; by rewrite bool_decide_eq_false_2.
Qed.

(** C10 with no option given, on a document that fired only
    [domcontentloaded]. *)
Lemma navigation_defaults_witness :
  opt_waitUntil default_options = None ∧
  opt_timeout default_options = None ∧
  let nav := navigateFrame 30000 unit 0 "about:blank" default_options
               (Resolved ()) None None in
  lw_expectedLifecycle (nav_watchDog nav) = ["load"]
  ∧ lw_timeout (nav_watchDog nav) = 30000%Z
  ∧ lifecycleSatisfied (nav_watchDog nav) {["domcontentloaded"]} = false.
Proof.
  split; [reflexivity|]. split; [reflexivity|].
  pose proof (navigation_defaults 30000 unit 0 "about:blank" default_options
                (Resolved ()) None None) as [Hw Ht].
  destruct (Hw eq_refl) as (He & _ & Hs). destruct (Ht eq_refl) as [Hn _].
  split; [exact He|]. split; [exact Hn|].
  refine (proj1 (Hs {["domcontentloaded"]} _)).
  intros H. apply elem_of_singleton in H. discriminate H.
Defined.

(** The watcher is disposed on the exits that follow the race, and on
    every exit of [waitForFrameNavigation]. *)
Lemma navigation_disposes_after_race (navigationTimeout : Z)
    (Response : Type) frame url html options raced
    (response : option Response) :
  lw_disposed (nav_watchDog (navigateFrame navigationTimeout Response frame
     url options (Resolved ()) raced response)) = true
  ∧ lw_disposed (nav_watchDog (waitForFrameNavigation navigationTimeout
     Response frame options raced response)) = true
  ∧ lw_disposed (nav_watchDog (setFrameContent navigationTimeout frame html
     options (Resolved ()) raced)) = true.
Proof. by destruct raced. Qed.

(** C3, where the code departs from it: when the awaited
    [Page.navigate] send (or the [frame.evaluate] of [setFrameContent])
    rejects, the method exits with that error and its watcher has not been
    disposed. *)
Theorem navigation_leaks_watcher_on_rejection (navigationTimeout : Z)
    (Response : Type) frame url html options error raced
    (response : option Response) :
  let nav := navigateFrame navigationTimeout Response frame url options
               (Rejected error) raced response in
  let set := setFrameContent navigationTimeout frame html options
               (Rejected error) raced in
  nav_result nav = Rejected error
  ∧ lw_disposed (nav_watchDog nav) = false
  ∧ nav_result set = Rejected error
  ∧ lw_disposed (nav_watchDog set) = false.
Proof. done. Qed.

(** ** Events for frames that are not registered *)

(** The handlers that guard with [if (!frame) return] change nothing for an
    unknown frame id. *)
Lemma unknown_frame_is_ignored m fuel frameId url event contextPayload :
  frame frameId m = None → ecd_frameId contextPayload = frameId →
  _onFrameNavigatedWithinDocument frameId url m = Done () m
  ∧ _onFrameDetached fuel frameId m = Done () m
  ∧ _onFrameStoppedLoading frameId m = Done () m
  ∧ _onLifecycleEvent frameId event m = Done () m
  ∧ _onExecutionContextCreated contextPayload m = Done () m.
Proof.
  unfold frame. intros H <-.
  unfold _onFrameNavigatedWithinDocument, _onFrameDetached,
    _onFrameStoppedLoading, _onLifecycleEvent, _onExecutionContextCreated.
  rewrite !(bind_run _ _ _ _ _ (eq_refl : get_state m = Done m m)), !H.
  split_and!; try done. by destruct (bool_decide _).
Qed.

(** C5, where the code departs from it: [_onFrameNavigated] for a subframe
    payload whose id is not registered throws (it reads [childFrames] of
    [undefined]) where the sibling handlers return. *)
Theorem onFrameNavigated_unknown_subframe_throws m fuel framePayload initial :
  truthy (fp_parentId framePayload) = true →
  frame (fp_id framePayload) m = None →
  _onFrameNavigated fuel framePayload initial m
    = Threw (TypeError "frame.childFrames: frame is undefined") m.
Proof.
  unfold frame. intros Hp Hf. unfold _onFrameNavigated.
  rewrite (bind_run _ _ _ _ _ (eq_refl : get_state m = Done m m)).
  by rewrite Hp, Hf.
Qed.

(** C5's failing input: a navigation of the unknown subframe [ghost]. *)
Lemma onFrameNavigated_unknown_subframe_throws_witness :
  truthy (fp_parentId (example_payload "ghost" (Some "a") "L")) = true ∧
  frame "ghost" example_tree = None ∧
  _onFrameNavigated 4 (example_payload "ghost" (Some "a") "L") false
    example_tree
    = Threw (TypeError "frame.childFrames: frame is undefined") example_tree.
Proof.
  split; [reflexivity|]. split; [reflexivity|].
  exact (onFrameNavigated_unknown_subframe_throws example_tree 4
           (example_payload "ghost" (Some "a") "L") false eq_refl eq_refl).
Defined.

(** ** Console routing *)

Section console_proofs.
Context (injectedScriptId : string → option (option Z)).

Lemma handleOf_run m c p h :
  hydrated injectedScriptId m c p = Some h →
  handleOf injectedScriptId c p m = Done h m.
Proof.
  unfold hydrated, handleOf, namedContext, contextOfObjectId.
  destruct (truthy (ro_objectId p)) eqn:Ht.
  - destruct (ro_objectId p) as [s|]; [|done]. simpl.
    destruct (injectedScriptId s) as [key|]; [|done]. simpl.
    rewrite (bind_run _ _ m _ m
               (eq_refl : (get_state ≫= λ m0, mret (key ≫= λ k,
                              _contextIdToContext m0 !! k)) m = Done _ m)).
    destruct (key ≫= λ k, _contextIdToContext m !! k) as [ctx|]; [|done].
    simpl. by intros [= <-].
  - simpl. by intros [= <-].
Qed.

Lemma map_M_run m c ps hs :
  mapM (hydrated injectedScriptId m c) ps = Some hs →
  map_M (handleOf injectedScriptId c) ps m = Done hs m.
Proof.
  revert hs. induction ps as [|p ps IH]; intros hs; simpl.
  - by intros [= <-].
  - destruct (hydrated _ _ _ p) as [h|] eqn:Hh; [|done]. simpl.
    destruct (mapM _ ps) as [hs'|]; [|done]. simpl. intros [= <-].
    rewrite (bind_run _ _ _ _ _ (handleOf_run _ _ _ _ Hh)).
    by rewrite (bind_run _ _ _ _ _ (IH _ eq_refl)).
Qed.

(** C7, as the code has it.  A console message of level [debug] whose
    first parameter is the binding sentinel is handed to the page's
    binding-call handler, with the context the second parameter's
    [objectId] names, and no console message is added.  Every other
    message (the sentinel at another level included) becomes a console
    message whose parameters are hydrated in the context their [objectId]
    names, or in the main frame's current context when they carry none. *)
Theorem onConsoleMessage_routes message m :
  (∀ p0 p1 p2 rest,
     cm_level message = "debug" →
     cm_parameters message = Some (p0 :: p1 :: p2 :: rest) →
     ro_value p0 = JsString BINDING_CALL_MESSAGE →
     (∃ s key, ro_objectId p1 = Some s ∧ injectedScriptId s = Some key) →
     _onConsoleMessage injectedScriptId message m
       = Done Finished (add_call (bindingCall injectedScriptId m p1 p2) m))
  ∧ (∀ F f c handles,
     (cm_level message ≠ "debug" ∨ cm_parameters message = None
      ∨ ∃ p0 rest, cm_parameters message = Some (p0 :: rest)
                   ∧ ro_value p0 ≠ JsString BINDING_CALL_MESSAGE) →
     mainFrame m = Some F → store m !! F = Some f →
     _mainContext f = Some c →
     mapM (hydrated injectedScriptId m c)
          (default [] (cm_parameters message)) = Some handles →
     _onConsoleMessage injectedScriptId message m
       = Done Finished (add_call (consoleCall message handles) m)).
Proof.
  split.
  - intros p0 p1 p2 rest Hlevel Hparams Hp0 (s & key & Hs & Hkey).
    unfold _onConsoleMessage, isBindingCall.
    rewrite Hlevel, Hparams. simpl. rewrite Hp0. simpl.
    unfold bindingCall, namedContext, contextOfObjectId.
    rewrite Hs. simpl. rewrite Hkey. reflexivity.
  - intros F f c handles Hother Hmain Hf Hc Hhandles.
    assert (isBindingCall message m = Done false m) as Hguard.
    { unfold isBindingCall.
      destruct Hother as [Hl|[Hp|(p0 & rest & Hp & Hv)]].
      - by rewrite bool_decide_eq_false_2.
      - rewrite Hp. by case_bool_decide.
      - rewrite Hp. simpl. case_bool_decide; [|done].
        unfold strict_eq_string. destruct (ro_value p0); try done.
        rewrite bool_decide_eq_false_2; [done|]. congruence. }
    unfold _onConsoleMessage.
    rewrite (bind_run _ _ _ _ _ Hguard).
    rewrite (bind_run _ _ _ _ _ (eq_refl : get_state m = Done m m)).
    rewrite Hmain.
    assert (executionContext F m = Done (Some c) m) as Hawait.
    { unfold executionContext.
      by rewrite (bind_run _ _ _ _ _ (read_run _ _ _ Hf)), Hc. }
    rewrite (bind_run _ _ _ _ _ Hawait).
    by rewrite (bind_run _ _ _ _ _ (map_M_run _ _ _ _ Hhandles)).
Qed.
End console_proofs.

Lemma Done_add_call_inj {A} (a b : A) c1 c2 m :
  Done a (add_call c1 m) = Done b (add_call c2 m) → c1 = c2.
Proof.
  intros H. assert (add_call c1 m = add_call c2 m) as Hm by congruence.
  apply (f_equal calls) in Hm. simpl in Hm.
  by apply app_inv_head in Hm as [= ->].
Qed.

(** C7 at [example_contexts]: the sentinel at level [debug] and at level
    [log]. *)
Lemma onConsoleMessage_routes_witness :
  _onConsoleMessage example_decoder (example_message "debug")
    example_contexts
    = Done Finished
        (add_call (BindingCalled (JsNumber 7) (Some example_main_context))
           example_contexts)
  ∧ _onConsoleMessage example_decoder (example_message "log")
      example_contexts
    = Done Finished
        (add_call (consoleCall (example_message "log") example_handles)
           example_contexts).
Proof.
  destruct (store example_contexts !! 0) as [f|] eqn:Hf; [|discriminate Hf].
  assert (_mainContext f = Some example_main_context) as Hc.
  { vm_compute in Hf. injection Hf as <-. reflexivity. }
  split.
  - refine (proj1 (onConsoleMessage_routes example_decoder
                     (example_message "debug") example_contexts)
                  _ _ _ _ eq_refl eq_refl eq_refl _).
    exists "ctx1", (Some 1%Z). split; reflexivity.
  - refine (proj2 (onConsoleMessage_routes example_decoder
                     (example_message "log") example_contexts)
                  0 f example_main_context example_handles
                  _ eq_refl Hf Hc eq_refl).
    left. discriminate.
Defined.

(** C7 as stated fails: a message of level [log] whose first parameter is
    the binding sentinel is not dispatched to the binding-call handler; it
    is added to the page as a console message. *)
Lemma onConsoleMessage_sentinel_at_level_log :
  (∃ p0 rest,
     cm_parameters (example_message "log") = Some (p0 :: rest)
     ∧ ro_value p0 = JsString BINDING_CALL_MESSAGE)
  ∧ (¬ ∃ payload context,
       _onConsoleMessage example_decoder (example_message "log")
         example_contexts
       = Done Finished
           (add_call (BindingCalled payload context) example_contexts))
  ∧ _onConsoleMessage example_decoder (example_message "log")
      example_contexts
    = Done Finished
        (add_call (consoleCall (example_message "log") example_handles)
           example_contexts).
Proof.
  assert (_onConsoleMessage example_decoder (example_message "log")
            example_contexts
          = Done Finished
              (add_call (consoleCall (example_message "log") example_handles)
                 example_contexts)) as Hrun
    by (vm_compute; reflexivity).
  split_and!; [by eexists _, _| |done].
  intros (payload & context & H). rewrite Hrun in H.
  apply Done_add_call_inj in H. discriminate H.
Qed.

(** ** One main frame *)

Section single_root.
Context (m : FrameManager) (Hwf : wf m) (Hsr : single_root m).

Lemma registered_inj id1 id2 h :
  _frames m !! id1 = Some h → _frames m !! id2 = Some h → id1 = id2.
Proof.
  intros H1%(sr_keys _ Hsr) H2%(sr_keys _ Hsr). congruence.
Qed.

Lemma registered_subtree p h :
  registered m p → in_subtree (store m) p h → registered m h.
Proof.
  intros Hp Hh. pattern h. revert h Hh. apply rtc_ind_r; [done|].
  intros x y _ Hxy Hx. eapply (sr_kids _ Hsr); [done|].
  by apply (wf_parent _ (wf_tree _ Hwf)).
Qed.

Lemma registered_under_main F h :
  _mainFrame m = Some F → registered m h → in_subtree (store m) F h.
Proof.
  intros HF. induction (lt_wf h) as [h _ IH]. intros Hh.
  destruct (decide (h = F)) as [->|Hne]; [constructor|].
  destruct (sr_others _ Hsr h Hh) as (p & Hp & Hpr); [congruence|].
  eapply rtc_r; [|done]. apply IH; [|done].
  by eapply (child_step_lt _ (wf_tree _ Hwf)).
Qed.

Lemma main_not_in_subtree F c :
  _mainFrame m = Some F → c ≠ F → ¬ in_subtree (store m) c F.
Proof.
  intros HF Hne [->|(x & _ & Hx)]%rtc_inv_r; [done|].
  destruct (sr_main _ Hsr _ HF) as [_ HpF]. unfold child_step in Hx.
  congruence.
Qed.

(** Removing registered frames that are closed under children and do not
    include the main frame keeps one tree. *)
Lemma single_root_removed D m' :
  removed m D m' →
  (∀ d, d ∈ D → registered m d) →
  (∀ F, _mainFrame m = Some F → F ∉ D) →
  (∀ p c, p ∈ D → parent (store m) c = Some p → c ∈ D) →
  single_root m'
  ∧ ∀ h, registered m' h ↔ registered m h ∧ h ∉ D.
Proof.
  intros Hrm HD HF Hclosed.
  assert (∀ id h, _frames m' !! id = Some h
                  ↔ _frames m !! id = Some h ∧ h ∉ D) as Hfr.
  { intros id h. rewrite (rm_frames _ _ _ Hrm). case_bool_decide as Hid.
    - split; [done|]. intros [Hh HhD].
      apply list_elem_of_fmap in Hid as (d & Hd & HdD).
      destruct (HD _ HdD) as [id' Hid'].
      pose proof (sr_keys _ Hsr _ _ Hid') as Hk.
      assert (id' = id) as -> by congruence.
      assert (d = h) as -> by congruence. done.
    - split; [|by intros [? _]]. intros Hh. split; [done|].
      intros HhD. apply Hid. apply list_elem_of_fmap. exists h.
      split; [|done]. symmetry. by apply (sr_keys _ Hsr). }
  assert (∀ h, registered m' h ↔ registered m h ∧ h ∉ D) as Hreg.
  { intros h. unfold registered. split.
    - intros [id [? ?]%Hfr]. eauto.
    - intros [[id ?] ?]. exists id. by apply Hfr. }
  split; [|done]. split.
  - intros id h [Hh _]%Hfr.
    rewrite (rm_store _ _ _ Hrm), frameId_of_prune. by apply (sr_keys _ Hsr).
  - rewrite (rm_mainFrame _ _ _ Hrm). intros Hn.
    apply map_eq. intros id. rewrite lookup_empty.
    rewrite (rm_frames _ _ _ Hrm), (sr_none _ Hsr Hn), lookup_empty.
    by case_bool_decide.
  - rewrite (rm_mainFrame _ _ _ Hrm). intros F HFm.
    destruct (sr_main _ Hsr _ HFm) as [HFr HFp]. split.
    + apply Hreg. split; [done|by apply HF].
    + rewrite (rm_store _ _ _ Hrm), parent_prune.
      by case_bool_decide.
  - rewrite (rm_mainFrame _ _ _ Hrm). intros h [Hh HhD]%Hreg Hne.
    destruct (sr_others _ Hsr h Hh Hne) as (p & Hp & Hpr).
    exists p. split.
    + rewrite (rm_store _ _ _ Hrm), parent_prune.
      by rewrite bool_decide_eq_false_2.
    + apply Hreg. split; [done|]. intros HpD. apply HhD. by eapply Hclosed.
  - intros p c [Hp HpD]%Hreg.
    rewrite (rm_store _ _ _ Hrm), children_prune.
    intros [HcD Hc]%list_elem_of_filter. apply Hreg. split; [|done].
    by eapply (sr_kids _ Hsr).
Qed.

Lemma single_root_same m' : same_registry m m' → single_root m'.
Proof.
  intros [Hf Hm Hl Hid Hp Hc]. destruct Hsr as [H1 H2 H3 H4 H5].
  assert (∀ h, registered m' h ↔ registered m h) as Hreg
    by (intros h; unfold registered; by rewrite Hf).
  split.
  - intros id h. rewrite Hf, Hid. apply H1.
  - rewrite Hf, Hm. apply H2.
  - intros F. rewrite Hm, Hp, Hreg. apply H3.
  - intros h. rewrite Hm, Hreg. intros Hh Hne.
    destruct (H4 h Hh Hne) as (p & ? & ?). exists p.
    by rewrite Hp, Hreg.
  - intros p c. rewrite !Hreg, Hc. apply H5.
Qed.
End single_root.

Lemma lifecycle_handlers_registry m :
  (∀ frameId url,
     wp True (_onFrameNavigatedWithinDocument frameId url)
       (λ _, same_registry m) (same_registry m) m)
  ∧ (∀ frameId,
     wp True (_onFrameStoppedLoading frameId)
       (λ _, same_registry m) (same_registry m) m)
  ∧ (∀ frameId event,
     wp True (_onLifecycleEvent frameId event)
       (λ _, same_registry m) (same_registry m) m)
  ∧ (∀ contextPayload,
     wp True (_onExecutionContextCreated contextPayload)
       (λ _, same_registry m) (same_registry m) m).
Proof.
  split_and!.
  - intros frameId url.
    unfold _onFrameNavigatedWithinDocument,
      _onCommittedSameDocumentNavigation.
    do 2 wp_step. destruct (_frames m !! _); repeat wp_step;
      eauto 10 with sr.
  - intros frameId. unfold _onFrameStoppedLoading, _lifecycleEvent.
    do 2 wp_step. destruct (_frames m !! _); repeat wp_step;
      eauto 10 with sr.
  - intros frameId event. unfold _onLifecycleEvent, _lifecycleEvent.
    do 2 wp_step. destruct (_frames m !! _); repeat wp_step;
      eauto 10 with sr.
  - intros contextPayload.
    unfold _onExecutionContextCreated, new_ExecutionContext,
      _contextCreated.
    do 3 wp_step; [wp_step; apply sr_refl|].
    destruct (_frames m !! _); repeat wp_step; eauto 10 with sr.
Qed.

Lemma onFrameDetached_single_root frameId m :
  wf m → single_root m → tame m (OnFrameDetached frameId) →
  wp False (_onFrameDetached (budget m) frameId)
    (λ _, single_root) single_root m.
Proof.
  intros Hwf Hsr Htame. unfold _onFrameDetached. do 2 wp_step.
  destruct (_frames m !! frameId) as [c|] eqn:Hc; [|by wp_step].
  destruct (removeFramesRecursively_spec (budget m) c m)
    as (m' & D & Hrun & Hrm & [_ Hel _]).
  { apply Hwf. }
  { by eapply wf_frames. }
  { unfold budget. lia. }
  eapply wp_Done; [done|].
  assert (registered m c) as Hcr by (by exists frameId).
  eapply proj1, (single_root_removed _ Hsr _ _ Hrm).
  - intros d Hd%Hel. by eapply registered_subtree.
  - intros F HF HFD%Hel. eapply main_not_in_subtree; [done..| |done].
    intros ->. by eapply (Htame F).
  - intros p x Hp%Hel Hx. apply Hel. by eapply in_subtree_child.
Qed.

Lemma remove_children_run_elem fuel F m :
  wf m → F < length (store m) → budget m ≤ fuel →
  ∃ m' D, for_each (children (store m) F)
            (_removeFramesRecursively fuel) m = Done () m'
          ∧ removed m D m'
          ∧ ∀ h, h ∈ D ↔ ∃ c, c ∈ children (store m) F
                              ∧ in_subtree (store m) c h.
Proof.
  intros Hwf HF Hfuel.
  destruct (remove_children_spec fuel F
              (removeFramesRecursively_spec fuel)
              (children (store m) F) m) as (m' & D & ? & ? & _ & ? & _);
    eauto.
  - apply Hwf.
  - apply (wf_nodup _ (wf_tree _ Hwf)).
  - apply (wf_child _ (wf_tree _ Hwf)).
  - unfold budget in Hfuel. lia.
Qed.

(** Rewriting the id of a main frame that is the only registered frame. *)
Lemma single_root_rename m F f newId :
  single_root m → _mainFrame m = Some F → store m !! F = Some f →
  (∀ h, registered m h → h = F) → children (store m) F = [] →
  single_root
    (set_frames (<[newId := F]>)
       (set_store (<[F := with_frameData newId f]>)
          (set_frames (delete (frameData_id f)) m))).
Proof.
  intros Hsr HF Hf Honly Hkids.
  pose proof (lookup_lt_Some _ _ _ Hf) as Hlt.
  assert (delete (frameData_id f) (_frames m) = ∅) as Hdel.
  { apply map_eq. intros id. rewrite lookup_empty.
    apply lookup_delete_None.
    destruct (_frames m !! id) as [h|] eqn:Hh; [left|by right].
    pose proof (sr_keys _ Hsr _ _ Hh) as Hk.
    assert (h = F) as -> by (apply Honly; by exists id).
    unfold frameId_of in Hk. rewrite Hf in Hk. simpl in Hk. congruence. }
  assert (∀ h, registered
            (set_frames (<[newId := F]>)
               (set_store (<[F := with_frameData newId f]>)
                  (set_frames (delete (frameData_id f)) m))) h → h = F)
    as Honly'.
  { intros h [id Hid]. simpl in Hid. rewrite Hdel in Hid.
    apply lookup_insert_Some in Hid as [[_ <-]|[_ Hid]]; [done|].
    by rewrite lookup_empty in Hid. }
  split; simpl.
  - intros id h. rewrite Hdel.
    intros [[<- <-]|[_ Hid]]%lookup_insert_Some;
      [|by rewrite lookup_empty in Hid].
    unfold frameId_of. by rewrite list_lookup_insert_eq.
  - congruence.
  - intros F' HF'. assert (F' = F) as -> by congruence. split.
    + exists newId. simpl. apply lookup_insert_eq.
    + destruct (sr_main _ Hsr _ HF) as [_ Hp]. unfold parent in *.
      rewrite list_lookup_insert_eq by done. rewrite Hf in Hp. done.
  - intros h Hh%Honly' Hne. congruence.
  - intros p c Hp%Honly'. subst p. unfold children in *.
    rewrite list_lookup_insert_eq by done. rewrite Hf in Hkids.
    simpl in *. rewrite Hkids. by intros ?%elem_of_nil.
Qed.

Lemma onFrameNavigated_single_root framePayload initial m :
  wf m → single_root m →
  wp False (_onFrameNavigated (budget m) framePayload initial)
    (λ _, single_root) single_root m.
Proof.
  intros Hwf Hsr. unfold _onFrameNavigated. do 2 wp_step.
  set (isMainFrame := negb (truthy (fp_parentId framePayload))).
  set (target := if isMainFrame then _mainFrame m
                 else _frames m !! fp_id framePayload).
  assert (∀ h, target = Some h →
            registered m h ∧ (isMainFrame = true → _mainFrame m = Some h))
    as Htarget.
  { intros h. unfold target. destruct isMainFrame.
    - intros Hh. split; [|done]. by apply (sr_main _ Hsr).
    - intros Hh. split; [by eexists|done]. }
  clearbody target. destruct target as [h|]; [|by wp_step].
  destruct (Htarget h eq_refl) as [Hreg Hmain]. clear Htarget.
  assert (h < length (store m)) as Hh.
  { destruct Hreg as [id Hid]. by eapply wf_frames. }
  destruct (lookup_lt_is_Some_2 _ _ Hh) as [f Hf].
  wp_step. eapply wp_Done; [by eapply childFrames_run|].
  destruct (remove_children_run_elem (budget m) h m Hwf Hh)
    as (m1 & D & Hrun & Hrm & Hel); [done|].
  wp_step. eapply wp_Done; [done|].
  pose proof (wf_removed _ _ _ Hwf Hrm) as Hwf1.
  assert (h < length (store m1)) as Hh1
    by (by rewrite (removed_length _ _ _ Hrm)).
  destruct (single_root_removed _ Hsr _ _ Hrm) as [Hsr1 Hreg1].
  { intros d (c & Hc & Hd)%Hel.
    eapply registered_subtree; [done..| |done]. by eapply (sr_kids _ Hsr). }
  { intros F HF (c & Hc & HcF)%Hel.
    eapply main_not_in_subtree; [done..| |done].
    intros ->. apply (wf_child _ (wf_tree _ Hwf)) in Hc.
    destruct (sr_main _ Hsr _ HF) as [_ HpF]. congruence. }
  { intros p x (c & Hc & Hp)%Hel Hx. apply Hel. exists c.
    split; [done|]. by eapply in_subtree_child. }
  wp_step.
  apply wp_mono with
    (Q := λ _ m', single_root m' ∧ h < length (store m'))
    (E := single_root); [| |done].
  { destruct isMainFrame; [|by wp_step].
    specialize (Hmain eq_refl).
    unfold _frameData. do 8 wp_step.
    simpl in H0. assert (f1 = f0) as -> by congruence.
    wp_step. split; [|simpl; by rewrite length_insert].
    apply single_root_rename; try done.
    - by rewrite (rm_mainFrame _ _ _ Hrm).
    - intros x [Hx HxD]%Hreg1.
      destruct (decide (x = h)) as [|Hne]; [done|]. exfalso. apply HxD.
      pose proof (registered_under_main _ Hwf Hsr _ _ Hmain Hx) as Hsub.
      apply in_subtree_inv in Hsub as [?|(c & Hc & Hcx)]; [done|].
      apply Hel. exists c. split; [|done].
      by apply (wf_parent _ (wf_tree _ Hwf)).
    - rewrite (rm_store _ _ _ Hrm), children_prune.
      destruct (filter _ _) as [|c l] eqn:Hfl; [done|]. exfalso.
      assert (c ∈ filter (λ c, c ∉ D) (children (store m) h)) as Hc
        by (rewrite Hfl; left).
      apply list_elem_of_filter in Hc as [HcD Hc].
      apply HcD, Hel. exists c. split; [done|constructor]. }
  intros u m2 [Hsr2 Hh2]. simpl.
  eapply wp_mono; [by apply navigated_tail_registry| |done].
  intros u' m3 Hsame. by eapply single_root_same.
Qed.

(** *** The store after an attach *)

Lemma lookup_snoc_ne (s : list Frame) nf x :
  x ≠ length s → (s ++ [nf]) !! x = s !! x.
Proof.
  intros Hx. destruct (decide (x < length s)).
  - by rewrite lookup_app_l.
  - rewrite !lookup_ge_None_2; [done|lia|rewrite length_app; simpl; lia].
Qed.

Lemma attach_child_lookup s p fp nf g x :
  s !! p = Some fp →
  <[length s := g nf]> (<[p := with_childFrames (set_add (length s)) fp]>
                          (s ++ [nf])) !! x
  = if decide (x = length s) then Some (g nf)
    else if decide (x = p)
         then Some (with_childFrames (set_add (length s)) fp)
         else s !! x.
Proof.
  intros Hp. pose proof (lookup_lt_Some _ _ _ Hp) as Hlt.
  case_decide as Hx.
  - subst. rewrite list_lookup_insert_eq; [done|].
    rewrite length_insert, length_app. simpl. lia.
  - rewrite list_lookup_insert_ne by done. case_decide as Hxp.
    + subst. rewrite list_lookup_insert_eq; [done|].
      rewrite length_app. lia.
    + rewrite list_lookup_insert_ne by done. by apply lookup_snoc_ne.
Qed.

Lemma attach_root_lookup (s : list Frame) nf g x :
  <[length s := g nf]> (s ++ [nf]) !! x
  = if decide (x = length s) then Some (g nf) else s !! x.
Proof.
  case_decide as Hx.
  - subst. rewrite list_lookup_insert_eq; [done|].
    rewrite length_app. simpl. lia.
  - rewrite list_lookup_insert_ne by done. by apply lookup_snoc_ne.
Qed.

Lemma onFrameAttached_single_root frameId parentFrameId m :
  wf m → single_root m → tame m (OnFrameAttached frameId parentFrameId) →
  wp False (_onFrameAttached frameId parentFrameId)
    (λ _, single_root) single_root m.
Proof.
  intros Hwf Hsr Htame. unfold _onFrameAttached. do 2 wp_step.
  wp_step. apply wp_assert; [intros Hfree|done].
  apply negb_true_iff, bool_decide_eq_false in Hfree.
  assert (_frames m !! frameId = None) as Hnone.
  { destruct (_frames m !! frameId); [|done]. exfalso. eauto. }
  clear Hfree. simpl in Htame. unfold resolvedParent, mainFrame in Htame.
  set (parentFrame := if truthy parentFrameId
                      then _frames m !! default "" parentFrameId else None)
    in *.
  assert (∀ p, parentFrame = Some p → registered m p) as Hp.
  { intros p. unfold parentFrame. destruct (truthy _); [|done].
    intros ?. by eexists. }
  clearbody parentFrame. unfold new_Frame.
  destruct parentFrame as [p|].
  - specialize (Hp p eq_refl).
    assert (p < length (store m)) as Hlt.
    { destruct Hp as [idp Hidp]. by eapply wf_frames. }
    repeat wp_step.
    simpl in H. rewrite lookup_app_l in H by done.
    simpl in H0. rewrite list_lookup_insert_ne in H0 by lia.
    rewrite lookup_app_r, Nat.sub_diag in H0 by lia. injection H0 as <-.
    apply single_root_same with
      (m := set_frames (<[frameId := length (store m)]>)
              (set_store (λ _,
                 <[length (store m) :=
                     with_frameData frameId (fresh_Frame (Some p))]>
                   (<[p := with_childFrames (set_add (length (store m))) f]>
                      (store m ++ [fresh_Frame (Some p)]))) m));
      [|by split].
    destruct Hsr as [Hk Hn Hm Ho Hc].
    assert (∀ x, registered
              (set_frames (<[frameId := length (store m)]>)
                 (set_store (λ _,
                    <[length (store m) :=
                        with_frameData frameId (fresh_Frame (Some p))]>
                      (<[p := with_childFrames
                                (set_add (length (store m))) f]>
                         (store m ++ [fresh_Frame (Some p)]))) m)) x
            ↔ x = length (store m) ∨ registered m x) as Hreg.
    { intros x. unfold registered. simpl. split.
      - intros [id [[_ <-]|[_ ?]]%lookup_insert_Some]; eauto.
      - intros [->|[id Hid]].
        + exists frameId. apply lookup_insert_eq.
        + exists id. rewrite lookup_insert_ne; [done|]. congruence. }
    assert (∀ x, registered m x → x < length (store m)) as Hrlt.
    { intros x [id Hid]. by eapply wf_frames. }
    split; simpl.
    + intros id x [[<- <-]|[_ Hx]]%lookup_insert_Some; unfold frameId_of;
        rewrite (attach_child_lookup _ _ _ _ _ _ H).
      * by rewrite decide_True.
      * pose proof (wf_frames _ Hwf _ _ Hx).
        rewrite decide_False by lia. specialize (Hk _ _ Hx).
        unfold frameId_of in Hk. case_decide; [|done].
        subst. rewrite H in Hk. done.
    + intros Hmn. destruct Hp as [idp Hidp].
      rewrite (Hn Hmn) in Hidp. by rewrite lookup_empty in Hidp.
    + intros F HF. destruct (Hm _ HF) as [HFr HFp]. rewrite Hreg.
      split; [by right|]. unfold parent in *.
      rewrite (attach_child_lookup _ _ _ _ _ _ H).
      specialize (Hrlt _ HFr). rewrite decide_False by lia.
      case_decide; [|done]. subst. by rewrite H in HFp.
    + intros x [->|Hx]%Hreg Hne.
      * exists p. rewrite Hreg. split; [|by right]. unfold parent.
        rewrite (attach_child_lookup _ _ _ _ _ _ H).
        by rewrite decide_True.
      * destruct (Ho _ Hx Hne) as (q & Hq & Hqr). exists q.
        rewrite Hreg. split; [|by right]. unfold parent in *.
        rewrite (attach_child_lookup _ _ _ _ _ _ H).
        specialize (Hrlt _ Hx). rewrite decide_False by lia.
        case_decide; [|done]. subst. by rewrite H in Hq.
    + intros q c [->|Hq]%Hreg; unfold children;
        rewrite (attach_child_lookup _ _ _ _ _ _ H).
      * rewrite decide_True by done. simpl. by intros ?%elem_of_nil.
      * specialize (Hrlt _ Hq) as Hqlt. rewrite decide_False by lia.
        rewrite Hreg. case_decide as Hqp.
        -- subst. simpl. unfold set_add. case_bool_decide.
           ++ intros Hc'. right. eapply Hc; [done|].
              unfold children. by rewrite H.
           ++ intros [Hc'| ->%list_elem_of_singleton]%elem_of_app;
                [|by left].
              right. eapply Hc; [done|]. unfold children. by rewrite H.
        -- intros Hc'. right. by eapply Hc.
  - destruct Htame as [Hmn|[? ?]]; [|done].
    destruct Hsr as [Hk Hn Hm Ho Hc]. specialize (Hn Hmn).
    repeat wp_step.
    simpl in H. rewrite lookup_app_r, Nat.sub_diag in H by lia.
    injection H as <-.
    apply single_root_same with
      (m := set_mainFrame (length (store m))
              (set_frames (<[frameId := length (store m)]>)
                 (set_store (λ _,
                    <[length (store m) :=
                        with_frameData frameId (fresh_Frame None)]>
                      (store m ++ [fresh_Frame None])) m)));
      [|by split].
    assert (∀ x, registered
              (set_mainFrame (length (store m))
                 (set_frames (<[frameId := length (store m)]>)
                    (set_store (λ _,
                       <[length (store m) :=
                           with_frameData frameId (fresh_Frame None)]>
                         (store m ++ [fresh_Frame None])) m))) x
            → x = length (store m)) as Hreg.
    { intros x [id Hid]. simpl in Hid. rewrite Hn in Hid.
      apply lookup_insert_Some in Hid as [[_ <-]|[_ Hid]]; [done|].
      by rewrite lookup_empty in Hid. }
    split; simpl.
    + intros id x. rewrite Hn.
      intros [[<- <-]|[_ Hx]]%lookup_insert_Some;
        [|by rewrite lookup_empty in Hx].
      unfold frameId_of. rewrite attach_root_lookup.
      by rewrite decide_True.
    + done.
    + intros F [= <-]. split.
      * exists frameId. simpl. apply lookup_insert_eq.
      * unfold parent. rewrite attach_root_lookup.
        by rewrite decide_True.
    + intros x ->%Hreg Hne. done.
    + intros q c ->%Hreg. unfold children. rewrite attach_root_lookup.
      rewrite decide_True by done. simpl. by intros ?%elem_of_nil.
Qed.

Lemma single_root_new : single_root new_FrameManager.
Proof.
  split; simpl; try done.
  - intros h [id Hid]. simpl in Hid. by rewrite lookup_empty in Hid.
  - intros p c [id Hid]. simpl in Hid. by rewrite lookup_empty in Hid.
Qed.

Lemma after_single_root op m :
  wf m → single_root m → tame m op → single_root (after op m).
Proof.
  intros Hwf Hsr Htame.
  assert (wp False (call op) (λ _, single_root) single_root m) as H.
  { destruct (lifecycle_handlers_registry m) as (H1 & H2 & H3 & H4).
    pose proof (call_returns_or_throws op m Hwf) as Hret.
    destruct op; unfold call in *.
    - wp_step. eapply wp_mono; [by apply onFrameAttached_single_root| |done].
      intros h m' ?. by wp_step.
    - do 2 wp_step. by apply onFrameNavigated_single_root.
    - specialize (H1 frameId url). unfold wp in *.
      destruct (_onFrameNavigatedWithinDocument _ _ _); try done;
        by eapply single_root_same.
    - do 2 wp_step. by apply onFrameDetached_single_root.
    - specialize (H2 frameId). unfold wp in *.
      destruct (_onFrameStoppedLoading _ _); try done;
        by eapply single_root_same.
    - specialize (H3 frameId event). unfold wp in *.
      destruct (_onLifecycleEvent _ _ _); try done;
        by eapply single_root_same.
    - specialize (H4 contextPayload). unfold wp in *.
      destruct (_onExecutionContextCreated _ _); try done;
        by eapply single_root_same. }
  unfold wp in H. unfold after. by destruct (call op m).
Qed.

Lemma run_single_root ops :
  ∀ m, wf m → single_root m → tame_run m ops → single_root (run ops m).
Proof.
  induction ops as [|op ops IH]; intros m Hwf Hsr Htame; [done|].
  destruct Htame as [Hop Hrest]. simpl. apply IH; [|by apply after_single_root|done].
  by apply after_wf.
Qed.

(** ** Calls that attach no frame *)

Lemma mirrored_nil : mirrored [].
Proof. by split_and!. Qed.

Lemma mirrored_app cs cs' : mirrored cs → mirrored cs' → mirrored (cs ++ cs').
Proof.
  intros (H1 & H2 & H3) (H1' & H2' & H3'). unfold mirrored.
  rewrite !page_emitted_app, !emitted_app, !fmap_app.
  by rewrite H1, H2, H3, H1', H2', H3'.
Qed.

Lemma q_refl m : quiet m m.
Proof.
  split; [done..|]. exists []. rewrite app_nil_r.
  split_and!; [done..|apply mirrored_nil].
Qed.

Lemma q_ext a b b' :
  calls b' = calls b → length (store b') = length (store b) →
  _mainFrame b' = _mainFrame b →
  quiet a b → quiet a b'.
Proof. intros Hc Hl Hm [? ? ?]. split; rewrite ?Hc, ?Hl, ?Hm; done. Qed.

Lemma q_set_frames a b g : quiet a b → quiet a (set_frames g b).
Proof. by apply q_ext. Qed.

Lemma q_set_contexts a b g : quiet a b → quiet a (set_contexts g b).
Proof. by apply q_ext. Qed.

Lemma q_set_lastDocumentId a b n :
  quiet a b → quiet a (set_lastDocumentId n b).
Proof. by apply q_ext. Qed.

Lemma q_set_contextsCreated a b n :
  quiet a b → quiet a (set_contextsCreated n b).
Proof. by apply q_ext. Qed.

Lemma q_insert a b h (f : Frame) :
  quiet a b → quiet a (set_store (<[h := f]>) b).
Proof. apply q_ext; [done| |done]. simpl. by rewrite length_insert. Qed.

Lemma q_calls_app a b cs :
  emitted FrameAttached cs = [] → mirrored cs →
  quiet a b → calls b ++ cs = calls b ++ cs →
  ∀ b', calls b' = calls b ++ cs → length (store b') = length (store b) →
  _mainFrame b' = _mainFrame b →
  quiet a b'.
Proof.
  intros He Hm [Hl Hmf (extra & Hc & He' & Hm')] _ b' Hc' Hl' Hmf'.
  split; [congruence..|]. exists (extra ++ cs).
  rewrite Hc', Hc, <- app_assoc, emitted_app, He, He'.
  split_and!; [done..|by apply mirrored_app].
Qed.

Lemma q_single a b c :
  emitted FrameAttached [c] = [] → mirrored [c] →
  quiet a b → quiet a (add_call c b).
Proof. intros He Hm Hq. by eapply (q_calls_app a b [c]). Qed.

Lemma q_pair a b c1 c2 :
  emitted FrameAttached [c1; c2] = [] → mirrored [c1; c2] →
  quiet a b → quiet a (add_call c2 (add_call c1 b)).
Proof.
  intros He Hm Hq. eapply (q_calls_app a b [c1; c2]); try done.
  simpl. by rewrite <- app_assoc.
Qed.

Create HintDb quiet.
#[local] Hint Resolve q_refl q_set_frames q_set_contexts
  q_set_lastDocumentId q_set_contextsCreated q_insert : quiet.
#[local] Hint Extern 1 (quiet _ (add_call (PageEmit _ (Some _))
                                  (add_call (Emit _ _) _))) =>
  apply q_pair; [reflexivity|by split_and!|] : quiet.
#[local] Hint Extern 2 (quiet _ (add_call _ _)) =>
  apply q_single; [reflexivity|by split_and!|] : quiet.

Lemma removeFramesRecursively_quiet a fuel :
  ∀ F m, quiet a m →
    wp True (_removeFramesRecursively fuel F) (λ _, quiet a) (quiet a) m.
Proof.
  induction fuel as [|fuel IH]; intros F m Hq; [done|].
  simpl. unfold childFrames. do 4 wp_step.
  wp_step. apply wp_for_each with (I := quiet a); [done| |].
  { intros c m' _ ?. by apply IH. }
  intros m' Hq'. unfold _onDetached, _frameData.
  do 3 wp_step. destruct (_parentFrame f0); repeat wp_step;
    eauto 10 with quiet.
Qed.

Lemma disposeContextsOf_quiet a h m :
  quiet a m →
  wp True (disposeContextsOf h) (λ _, quiet a) (quiet a) m.
Proof.
  intros Hq. unfold disposeContextsOf. do 2 wp_step.
  apply wp_for_each with (I := quiet a); [done| |done].
  intros c m' _ Hq'. wp_step; [|by wp_step].
  unfold _contextDestroyed. repeat wp_step; eauto 10 with quiet.
Qed.

Lemma onFrameNavigated_quiet fuel framePayload initial m :
  wp True (_onFrameNavigated fuel framePayload initial)
    (λ _, quiet m) (quiet m) m.
Proof.
  unfold _onFrameNavigated. do 2 wp_step.
  destruct (if negb _ then _ else _) as [h|]; [|wp_step; apply q_refl].
  unfold childFrames. do 4 wp_step.
  wp_step. apply wp_for_each with (I := quiet m); [apply q_refl| |].
  { intros c m' _ ?. by apply removeFramesRecursively_quiet. }
  intros m1 Hq1. wp_step.
  apply wp_mono with (Q := λ _, quiet m) (E := quiet m); [| |done].
  { destruct (negb _); [|by wp_step].
    unfold _frameData. repeat wp_step; eauto 10 with quiet. }
  intros u m2 Hq2. wp_step.
  eapply wp_mono; [by apply disposeContextsOf_quiet| |done].
  intros u' m3 Hq3. simpl.
  unfold newDocumentId, _onExpectedNewDocumentNavigation,
    _onCommittedNewDocumentNavigation.
  repeat wp_step; eauto 12 with quiet.
Qed.

Lemma call_quiet op m :
  (∀ frameId parentFrameId, op ≠ OnFrameAttached frameId parentFrameId) →
  wp True (call op) (λ _, quiet m) (quiet m) m.
Proof.
  intros Hop. destruct op; unfold call.
  - by destruct (Hop frameId parentFrameId).
  - do 2 wp_step. apply onFrameNavigated_quiet.
  - unfold _onFrameNavigatedWithinDocument,
      _onCommittedSameDocumentNavigation.
    do 2 wp_step. destruct (_frames m !! _); repeat wp_step;
      eauto 10 with quiet.
  - unfold _onFrameDetached. do 4 wp_step.
    destruct (_frames m !! _); [|wp_step; apply q_refl].
    apply removeFramesRecursively_quiet, q_refl.
  - unfold _onFrameStoppedLoading, _lifecycleEvent. do 2 wp_step.
    destruct (_frames m !! _); repeat wp_step; eauto 10 with quiet.
  - unfold _onLifecycleEvent, _lifecycleEvent. do 2 wp_step.
    destruct (_frames m !! _); repeat wp_step; eauto 10 with quiet.
  - unfold _onExecutionContextCreated, new_ExecutionContext,
      _contextCreated. do 3 wp_step; [wp_step; apply q_refl|].
    destruct (_frames m !! _); repeat wp_step; eauto 10 with quiet.
Qed.

(** ** Once a frame was attached there is a main frame *)

Lemma onFrameAttached_has_main frameId parentFrameId m :
  wf m → has_main m →
  wp True (_onFrameAttached frameId parentFrameId) (λ _, has_main)
    has_main m.
Proof.
  intros Hwf Hm. unfold _onFrameAttached, new_Frame.
  do 3 wp_step. apply wp_assert; [intros _|done].
  destruct (if truthy _ then _ else _) as [p|] eqn:Hp; repeat wp_step.
  - intros _. simpl. apply Hm.
    assert (p < length (store m)) as Hlt.
    { destruct (truthy _); [by eapply wf_frames|done]. }
    destruct (store m); simpl in *; [lia|done].
  - intros _. simpl. by eexists.
Qed.

Lemma after_has_main op m : wf m → has_main m → has_main (after op m).
Proof.
  intros Hwf Hm. unfold after.
  destruct op as [frameId parentFrameId| | | | | |].
  { pose proof (onFrameAttached_has_main frameId parentFrameId m Hwf Hm)
      as H.
    unfold call, wp, mbind, M_bind in *.
    by destruct (_onFrameAttached frameId parentFrameId m). }
  all: match goal with |- context [call ?op ?m0] =>
         pose proof (call_quiet op m0 ltac:(done)) as H end;
       unfold wp in H; destruct (call _ m); try done;
       destruct H as [Hl Hmf _]; unfold has_main; rewrite Hmf;
       intros Hs; apply Hm; intros Hnil; apply Hs, nil_length_inv;
       by rewrite Hl, Hnil.
Qed.

Lemma run_has_main ops : ∀ m, wf m → has_main m → has_main (run ops m).
Proof.
  induction ops as [|op ops IH]; intros m Hwf Hm; [done|].
  simpl. apply IH; [by apply after_wf|by apply after_has_main].
Qed.

Lemma onFrameAttached_registered_throws m frameId parentFrameId :
  is_Some (frame frameId m) →
  _onFrameAttached frameId parentFrameId m = Threw AssertionError m.
Proof.
  unfold frame. intros H. unfold _onFrameAttached.
  rewrite (bind_run _ _ _ _ _ (eq_refl : get_state m = Done m m)).
  by rewrite bool_decide_eq_true_2.
Qed.

(** C8, as the code has it.  After every sequence of events from a fresh
    manager in which each attach but the first names a registered parent
    and no detach names the main frame: once a frame has been attached (the
    manager has made a Frame object, or the registry holds an id)
    [mainFrame()] returns a frame; the frame it returns is registered and
    has no parent, no other registered frame is without a parent, and every
    registered id maps to one frame, which carries that id.  In every
    state, attaching an id that is registered throws the assertion error
    and changes nothing. *)
Theorem tame_run_one_main_frame ops :
  tame_run new_FrameManager ops →
  let m := run ops new_FrameManager in
  (store m ≠ [] → is_Some (mainFrame m))
  ∧ (_frames m ≠ ∅ → is_Some (mainFrame m))
  ∧ (∀ F, mainFrame m = Some F →
     (∃ id, frame id m = Some F) ∧ parent (store m) F = None
     ∧ ∀ id h, frame id m = Some h → parent (store m) h = None → h = F)
  ∧ (∀ id h, frame id m = Some h → frameId_of (store m) h = Some id)
  ∧ (∀ id1 id2 h, frame id1 m = Some h → frame id2 m = Some h → id1 = id2)
  ∧ (∀ id parentFrameId, is_Some (frame id m) →
       _onFrameAttached id parentFrameId m = Threw AssertionError m).
Proof.
  intros Htame m.
  assert (single_root m) as Hsr.
  { apply run_single_root; [apply wf_new|apply single_root_new|done]. }
  unfold mainFrame, frame. split_and!.
  - apply (run_has_main ops new_FrameManager wf_new).
    intros H. by destruct H.
  - intros Hne. destruct (_mainFrame m) eqn:HF; [by eexists|].
    by destruct Hne; apply (sr_none _ Hsr).
  - intros F HF. destruct (sr_main _ Hsr _ HF) as [HFr HFp].
    split_and!; [done..|]. intros id h Hh Hp.
    destruct (decide (h = F)) as [|Hne]; [done|].
    destruct (sr_others _ Hsr h) as (p & Hp' & _);
      [by exists id|congruence|congruence].
  - apply (sr_keys _ Hsr).
  - intros id1 id2 h. by apply registered_inj.
  - intros id parentFrameId. apply onFrameAttached_registered_throws.
Qed.

(** C8 on the events that build [example_tree]. *)
Lemma tame_run_one_main_frame_witness :
  tame_run new_FrameManager
    [OnFrameAttached "a" None; OnFrameAttached "b" (Some "a");
     OnFrameAttached "c" (Some "b"); OnFrameAttached "d" (Some "a")]
  ∧ is_Some (mainFrame example_tree)
  ∧ mainFrame example_tree = Some 0
  ∧ frame "a" example_tree = Some 0
  ∧ parent (store example_tree) 0 = None
  ∧ (∀ id h, frame id example_tree = Some h →
       parent (store example_tree) h = None → h = 0)
  ∧ _onFrameAttached "b" None example_tree
    = Threw AssertionError example_tree.
Proof.
  assert (tame_run new_FrameManager
            [OnFrameAttached "a" None; OnFrameAttached "b" (Some "a");
             OnFrameAttached "c" (Some "b"); OnFrameAttached "d" (Some "a")])
    as Ht.
  { cbn [tame_run tame].
    repeat split; first [left; reflexivity|right; vm_compute; eauto]. }
  destruct (tame_run_one_main_frame _ Ht)
    as (Hsome & _ & Hmain & _ & _ & Hthrow).
  destruct (Hmain 0 eq_refl) as (_ & Hp & Hone).
  split_and!;
    [exact Ht|apply Hsome; vm_compute; discriminate|reflexivity|reflexivity
    |exact Hp|exact Hone|].
  apply Hthrow. vm_compute. eauto.
Defined.

(** C8 as stated fails: after an attach whose parent id is not registered
    two registered frames have no parent (the older one is no longer what
    [mainFrame()] returns). *)
Lemma orphan_attach_second_parentless_frame :
  frame "a" example_orphan = Some 0
  ∧ frame "b" example_orphan = Some 1
  ∧ parent (store example_orphan) 0 = None
  ∧ parent (store example_orphan) 1 = None
  ∧ mainFrame example_orphan = Some 1
  ∧ ¬ ∃ F, ∀ id h, frame id example_orphan = Some h →
           parent (store example_orphan) h = None → h = F.
Proof.
  split_and!; try reflexivity.
  intros (F & HF).
  pose proof (HF "a" 0 eq_refl eq_refl) as H0.
  pose proof (HF "b" 1 eq_refl eq_refl) as H1. congruence.
Qed.

(** Detaching the main frame leaves no registered frame, and [mainFrame()]
    still returns the detached frame. *)
Example detach_main_frame_leaves_none :
  let m := run [OnFrameAttached "a" None; OnFrameDetached "a"]
             new_FrameManager in
  _frames m = ∅ ∧ mainFrame m = Some 0
  ∧ (_detached <$> store m !! 0) = Some true.
Proof. vm_compute. done. Qed.

(** * More of the manager *)

(** ** What the call log always looks like *)

Lemma log_ok_quiet m m' : log_ok m → quiet m m' → log_ok m'.
Proof.
  intros [Hm Ha] [Hl _ (extra & Hc & He & Hm')]. split.
  - rewrite Hc. by apply mirrored_app.
  - by rewrite Hc, emitted_app, He, app_nil_r, Hl.
Qed.

Lemma onFrameAttached_log_ok frameId parentFrameId m :
  log_ok m →
  wp True (_onFrameAttached frameId parentFrameId) (λ _, log_ok) log_ok m.
Proof.
  intros [Hm Ha]. unfold _onFrameAttached, new_Frame.
  do 3 wp_step. apply wp_assert; [intros _|done].
  assert (∀ (s : list Frame) f,
            seq 0 (length (s ++ [f])) = seq 0 (length s) ++ [length s])
    as Hseq.
  { intros s f. by rewrite length_app, Nat.add_comm, seq_S. }
  destruct (if truthy _ then _ else _); repeat wp_step; split; simpl;
    rewrite ?length_insert, ?Hseq, <- ?app_assoc;
    try (apply mirrored_app; [done|by split_and!]);
    by rewrite emitted_app, Ha.
Qed.

Lemma after_log_ok op m : log_ok m → log_ok (after op m).
Proof.
  intros Hok. unfold after.
  destruct op as [frameId parentFrameId| | | | | |].
  { pose proof (onFrameAttached_log_ok frameId parentFrameId m Hok) as H.
    unfold call, wp, mbind, M_bind in *.
    by destruct (_onFrameAttached frameId parentFrameId m). }
  all: match goal with |- context [call ?op ?m0] =>
         pose proof (call_quiet op m0 ltac:(done)) as H end;
       unfold wp in H; destruct (call _ m); try done;
       by eapply log_ok_quiet.
Qed.

Lemma log_ok_new : log_ok new_FrameManager.
Proof. split; [apply mirrored_nil|done]. Qed.

Lemma reachable_log_ok m : reachable m → log_ok m.
Proof.
  intros [ops ->]. generalize new_FrameManager, log_ok_new.
  induction ops as [|op ops IH]; intros m Hok; [done|].
  simpl. by apply IH, after_log_ok.
Qed.

(** X1.  In every reachable state, [FrameAttached] has been emitted exactly
    once for each Frame object the manager has made, in the order the
    objects were made: no other method makes a frame, and none is made
    without the event. *)
Theorem frameAttached_once_per_frame m :
  reachable m →
  emitted FrameAttached (calls m) = seq 0 (length (store m)).
Proof. intros Hr. by apply lo_attached, reachable_log_ok. Qed.

(** X1 at [example_tree]. *)
Lemma frameAttached_once_per_frame_witness :
  reachable example_tree ∧
  emitted FrameAttached (calls example_tree) = [0; 1; 2; 3].
Proof.
  assert (reachable example_tree) as Hr by (eexists; reflexivity).
  split; [exact Hr|]. exact (frameAttached_once_per_frame example_tree Hr).
Defined.

(** X2.  In every reachable state, the page-level [FrameAttached],
    [FrameDetached] and [FrameNavigated] events were emitted for the same
    frames, in the same order, as the manager-level events of the same
    name. *)
Theorem page_events_mirror_manager_events m :
  reachable m → mirrored (calls m).
Proof. intros Hr. by apply lo_mirrored, reachable_log_ok. Qed.

(** X2 at [example_tree]. *)
Lemma page_events_mirror_manager_events_witness :
  reachable example_tree ∧ mirrored (calls example_tree).
Proof.
  assert (reachable example_tree) as Hr by (eexists; reflexivity).
  split; [exact Hr|].
  exact (page_events_mirror_manager_events example_tree Hr).
Defined.


(** ** What the registry always looks like *)

Lemma ro_ext m m' :
  _frames m' = _frames m → _mainFrame m' = _mainFrame m →
  _contextIdToContext m' = _contextIdToContext m → store m' = store m →
  registry_ok m → registry_ok m'.
Proof. intros Hf Hm Hc Hs [? ? ? ?]. split; rewrite ?Hf, ?Hm, ?Hc, ?Hs; done. Qed.

Lemma ro_add_call c m : registry_ok m → registry_ok (add_call c m).
Proof. by apply ro_ext. Qed.

Lemma ro_set_lastDocumentId n m :
  registry_ok m → registry_ok (set_lastDocumentId n m).
Proof. by apply ro_ext. Qed.

Lemma ro_set_contextsCreated n m :
  registry_ok m → registry_ok (set_contextsCreated n m).
Proof. by apply ro_ext. Qed.

Lemma ro_delete_frame id m :
  registry_ok m → registry_ok (set_frames (delete id) m).
Proof.
  intros [Hk ? ? ?]. split; simpl; try done.
  intros id' h [_ H]%lookup_delete_Some. by apply Hk.
Qed.

Lemma lookup_insert_inv (s : list Frame) h x h' f' :
  <[h := x]> s !! h' = Some f' →
  (h' = h ∧ f' = x ∧ h < length s) ∨ (h' ≠ h ∧ s !! h' = Some f').
Proof. rewrite list_lookup_insert_Some. naive_solver. Qed.

Lemma lookup_insert_fwd (s : list Frame) h g f h' f' :
  s !! h = Some f → s !! h' = Some f' →
  ∃ f'', <[h := g f]> s !! h' = Some f''
         ∧ (h' = h ∧ f' = f ∧ f'' = g f ∨ h' ≠ h ∧ f'' = f').
Proof.
  intros Hh Hh'. destruct (decide (h' = h)) as [->|Hne].
  - exists (g f). rewrite list_lookup_insert_eq by by eapply lookup_lt_Some.
    split; [done|]. left. naive_solver.
  - exists f'. rewrite list_lookup_insert_ne by done. naive_solver.
Qed.

Lemma ro_update h f g m :
  keeps_registry g → store m !! h = Some f →
  registry_ok m → registry_ok (set_store (<[h := g f]>) m).
Proof.
  intros Hg Hf [Hk Hm Hc Hcur]. split; simpl; try done.
  - intros id h' (f' & Hf' & <-)%Hk.
    destruct (lookup_insert_fwd (store m) h g f h' f' Hf Hf')
      as (f'' & -> & [(-> & -> & ->)|[? ->]]); eexists; split; try done.
    apply Hg.
  - intros F (f' & Hf' & Hp)%Hm.
    destruct (lookup_insert_fwd (store m) h g f F f' Hf Hf')
      as (f'' & -> & [(-> & -> & ->)|[? ->]]); eexists; split; try done.
    destruct (Hg f) as (_ & [-> | ->] & _); done.
  - intros h' f' c [(-> & -> & _)|[? Hf']]%lookup_insert_inv Hc'.
    + apply (Hcur h f c Hf). unfold current in *.
      destruct (Hg f) as (_ & _ & <- & <-). done.
    + by apply (Hcur h' f' c).
Qed.

Lemma keeps_registry_with_childFrames g :
  keeps_registry (with_childFrames g).
Proof. intros f. simpl. eauto. Qed.
Lemma keeps_registry_with_fired g : keeps_registry (with_fired g).
Proof. intros f. simpl. eauto. Qed.
Lemma keeps_registry_with_detached : keeps_registry with_detached.
Proof. intros f. simpl. eauto. Qed.
Lemma keeps_registry_with_document url name documentId :
  keeps_registry (with_document url name documentId).
Proof. intros f. simpl. eauto. Qed.
Lemma keeps_registry_with_url url : keeps_registry (with_url url).
Proof. intros f. simpl. eauto. Qed.

Lemma ro_push p m :
  registry_ok m → registry_ok (set_store (λ s, s ++ [fresh_Frame p]) m).
Proof.
  intros [Hk Hm Hc Hcur]. split; simpl; try done.
  - intros id h (f & Hf & <-)%Hk. exists f.
    split; [by apply lookup_app_l_Some|done].
  - intros F (f & Hf & Hp)%Hm. exists f.
    split; [by apply lookup_app_l_Some|done].
  - intros h f c [Hf|[_ Hf]]%lookup_app_Some Hc'; [by eapply Hcur|].
    apply list_lookup_singleton_Some in Hf as [_ <-].
    by destruct Hc'.
Qed.

Lemma ro_rename new h f m :
  store m !! h = Some f → (∀ id, _frames m !! id ≠ Some h) →
  registry_ok m →
  registry_ok (set_frames (<[new := h]>)
                 (set_store (<[h := with_frameData new f]>) m)).
Proof.
  intros Hf Hun [Hk Hm Hc Hcur]. split; simpl; try done.
  - intros id h' [[<- <-]|[? Hh']]%lookup_insert_Some.
    + eexists. rewrite list_lookup_insert_eq by by eapply lookup_lt_Some.
      done.
    + destruct (Hk _ _ Hh') as (f' & Hf' & <-). exists f'.
      rewrite list_lookup_insert_ne; [done|]. intros <-. by eapply Hun.
  - intros F (f' & Hf' & Hp)%Hm.
    destruct (lookup_insert_fwd (store m) h (with_frameData new) f F f'
                Hf Hf') as (f'' & -> & [(-> & -> & ->)|[? ->]]);
      eexists; split; done.
  - intros h' f' c [(-> & -> & _)|[? Hf']]%lookup_insert_inv Hc'.
    + by apply (Hcur h f c Hf).
    + by apply (Hcur h' f' c).
Qed.

Lemma ro_set_mainFrame h f m :
  store m !! h = Some f → _parentFrame f = None →
  registry_ok m → registry_ok (set_mainFrame h m).
Proof.
  intros Hf Hp [Hk Hm Hc Hcur]. split; simpl; try done.
  intros F [= <-]. eauto.
Qed.

Lemma ro_insert_context c m :
  _contextIdToContext m !! _contextId c = None →
  registry_ok m → registry_ok (set_contexts (<[_contextId c := c]>) m).
Proof.
  intros Hnew [Hk Hm Hc Hcur]. split; simpl; try done.
  - intros k c' [[<- <-]|[? ?]]%lookup_insert_Some; eauto.
  - intros h f c' Hf Hc'. destruct (Hcur h f c' Hf Hc') as [? Hin].
    split; [done|]. rewrite lookup_insert_ne; [done|]. congruence.
Qed.

Lemma ro_context_created w c h f m :
  store m !! h = Some f → ctx_frame c = h →
  _contextIdToContext m !! _contextId c = None →
  registry_ok m →
  registry_ok (set_contexts (<[_contextId c := c]>)
                 (set_store (<[h := with_context w (Some c) f]>) m)).
Proof.
  intros Hf Hfr Hnew [Hk Hm Hc Hcur]. split; simpl.
  - intros id h' (f' & Hf' & <-)%Hk.
    destruct (lookup_insert_fwd (store m) h (with_context w (Some c)) f
                h' f' Hf Hf') as (f'' & -> & [(-> & -> & ->)|[? ->]]);
      eexists; split; done.
  - intros F (f' & Hf' & Hp)%Hm.
    destruct (lookup_insert_fwd (store m) h (with_context w (Some c)) f
                F f' Hf Hf') as (f'' & -> & [(-> & -> & ->)|[? ->]]);
      eexists; split; done.
  - intros k c' [[<- <-]|[? ?]]%lookup_insert_Some; eauto.
  - assert (∀ h' f' c', store m !! h' = Some f' → current f' c' →
              ctx_frame c' = h'
              ∧ <[_contextId c := c]> (_contextIdToContext m)
                  !! _contextId c' = Some c') as Hold.
    { intros h' f' c' Hf' Hc'. destruct (Hcur h' f' c' Hf' Hc') as [? Hin].
      split; [done|]. rewrite lookup_insert_ne; [done|]. congruence. }
    intros h' f' c' [(-> & -> & _)|[? Hf']]%lookup_insert_inv Hc';
      [|by eapply Hold].
    destruct w, Hc' as [Hc'|Hc']; simpl in Hc';
      try (injection Hc' as <-; by rewrite lookup_insert_eq);
      eapply Hold; first [exact Hf | by left | by right].
Qed.

Create HintDb ro.
#[local] Hint Resolve ro_add_call ro_set_lastDocumentId ro_set_contextsCreated
  ro_delete_frame ro_update keeps_registry_with_childFrames
  keeps_registry_with_fired keeps_registry_with_detached
  keeps_registry_with_document keeps_registry_with_url : ro.

Lemma ro_disposing x m :
  (∀ c, _contextIdToContext m !! _contextId x = Some c → c = x) →
  registry_ok m → disposing x (set_contexts (delete (_contextId x)) m).
Proof.
  intros Hx [Hk Hm Hc Hcur]. split; simpl; try done.
  - intros k c [_ ?]%lookup_delete_Some. by apply Hc.
  - intros h f c Hf Hc'. destruct (Hcur h f c Hf Hc') as [? Hin].
    split; [done|]. destruct (decide (_contextId c = _contextId x)) as [e|?].
    + left. apply Hx. by rewrite <- e.
    + right. by rewrite lookup_delete_ne.
Qed.

Lemma disposing_clear w x h f m :
  store m !! h = Some f →
  disposing x m → disposing x (set_store (<[h := with_context w None f]>) m).
Proof.
  intros Hf [Hk Hm Hc Hcur]. split; simpl; try done.
  - intros id h' (f' & Hf' & <-)%Hk.
    destruct (lookup_insert_fwd (store m) h (with_context w None) f
                h' f' Hf Hf') as (f'' & -> & [(-> & -> & ->)|[? ->]]);
      eexists; split; done.
  - intros F (f' & Hf' & Hp)%Hm.
    destruct (lookup_insert_fwd (store m) h (with_context w None) f
                F f' Hf Hf') as (f'' & -> & [(-> & -> & ->)|[? ->]]);
      eexists; split; done.
  - intros h' f' c [(-> & -> & _)|[? Hf']]%lookup_insert_inv Hc';
      [|by eapply Hcur].
    apply (Hcur h f c Hf).
    destruct w, Hc' as [Hc'|Hc']; simpl in Hc'; try done;
      first [by left|by right].
Qed.

Lemma disposing_done x m :
  (∀ f, store m !! ctx_frame x = Some f → ¬ current f x) →
  disposing x m → registry_ok m.
Proof.
  intros Hx [Hk Hm Hc Hcur]. split; try done.
  intros h f c Hf Hc'. destruct (Hcur h f c Hf Hc') as [<- [->|?]]; [|done].
  by destruct (Hx f Hf).
Qed.

Lemma contextDestroyed_ro x m :
  disposing x m →
  wp True (_contextDestroyed (ctx_frame x) x)
    (λ _ m', registry_ok m'
             ∧ _contextIdToContext m' = _contextIdToContext m)
    (λ _, False) m.
Proof.
  intros Hd. unfold _contextDestroyed. do 2 wp_step. wp_step.
  apply wp_mono with
    (Q := λ _ m1, disposing x m1
                  ∧ _contextIdToContext m1 = _contextIdToContext m
                  ∧ ∀ f, store m1 !! ctx_frame x = Some f →
                         _mainContext f ≠ Some x)
    (E := λ _, False); [| |done].
  { case_bool_decide as Hmain; repeat wp_step.
    - split_and!; [by apply disposing_clear|done|]. simpl.
      intros g0. rewrite list_lookup_insert_eq by by eapply lookup_lt_Some.
      by intros [= <-].
    - split_and!; [done..|]. congruence. }
  intros u m1 (Hd1 & Hc1 & Hmain). do 2 wp_step.
  case_bool_decide as Hut; repeat wp_step.
  - split; [|done]. eapply disposing_done; [|by apply disposing_clear].
    simpl. intros g0.
    rewrite list_lookup_insert_eq by by eapply lookup_lt_Some.
    intros [= <-] [Hc|Hc]; simpl in Hc; [|done]. by eapply Hmain.
  - split; [|done]. eapply disposing_done; [|done].
    intros g0 Hg0 [Hc|Hc]; [by eapply Hmain|congruence].
Qed.

Lemma disposeContextsOf_ro h m :
  registry_ok m →
  wp True (disposeContextsOf h) (λ _, registry_ok) registry_ok m.
Proof.
  intros Hok. unfold disposeContextsOf. do 2 wp_step.
  apply wp_for_each with
    (I := λ m', registry_ok m'
                ∧ _contextIdToContext m' ⊆ _contextIdToContext m);
    [done| |by intros ? []].
  intros x m' Hx [Hok' Hsub].
  apply wp_mono with
    (Q := λ _ m'', registry_ok m''
                   ∧ _contextIdToContext m'' ⊆ _contextIdToContext m)
    (E := λ _, False); [|done..].
  case_bool_decide as Hfr; [|by wp_step]. do 2 wp_step. subst h.
  eapply wp_mono; [apply contextDestroyed_ro| |done].
  - apply ro_disposing; [|done]. intros c Hc.
    apply list_elem_of_fmap in Hx as ([k x'] & -> & Hin%elem_of_map_to_list).
    simpl in *. pose proof (ro_contexts _ Hok _ _ Hin) as <-.
    eapply lookup_weaken in Hc; [|done]. congruence.
  - simpl. intros u m'' [? ->]. split; [done|].
    etrans; [apply delete_subseteq|done].
Qed.

Lemma removeFramesRecursively_ro fuel :
  ∀ F m, registry_ok m →
    wp True (_removeFramesRecursively fuel F) (λ _, registry_ok)
      registry_ok m.
Proof.
  induction fuel as [|fuel IH]; intros F m Hok; [done|].
  simpl. unfold childFrames. do 4 wp_step.
  wp_step. apply wp_for_each with (I := registry_ok); [done| |].
  { intros c m' _ ?. by apply IH. }
  intros m' Hok'. unfold _onDetached, _frameData.
  do 3 wp_step. destruct (_parentFrame f0); repeat wp_step;
    eauto 10 with ro.
Qed.

Lemma ro_unregistered_after_delete h f m :
  registry_ok m → store m !! h = Some f →
  ∀ id, delete (frameData_id f) (_frames m) !! id ≠ Some h.
Proof.
  intros Hok Hf id [Hne Hin]%lookup_delete_Some.
  destruct (ro_keys _ Hok _ _ Hin) as (f' & Hf' & <-). congruence.
Qed.

Lemma onFrameNavigated_ro fuel framePayload initial m :
  registry_ok m →
  wp True (_onFrameNavigated fuel framePayload initial)
    (λ _, registry_ok) registry_ok m.
Proof.
  intros Hok. unfold _onFrameNavigated. do 2 wp_step.
  destruct (if negb _ then _ else _) as [h|]; [|by wp_step].
  unfold childFrames. do 4 wp_step.
  wp_step. apply wp_for_each with (I := registry_ok); [done| |].
  { intros c m' _ ?. by apply removeFramesRecursively_ro. }
  intros m1 Hok1. wp_step.
  apply wp_mono with (Q := λ _, registry_ok) (E := registry_ok); [| |done].
  { destruct (negb _); [|by wp_step].
    unfold _frameData. repeat wp_step.
    apply ro_rename; [done| |by apply ro_delete_frame].
    by apply ro_unregistered_after_delete. }
  intros u m2 Hok2. wp_step.
  eapply wp_mono; [by apply disposeContextsOf_ro| |done].
  intros u' m3 Hok3. simpl.
  unfold newDocumentId, _onExpectedNewDocumentNavigation,
    _onCommittedNewDocumentNavigation.
  repeat wp_step; eauto 12 with ro.
Qed.

Lemma onFrameAttached_ro frameId parentFrameId m :
  registry_ok m →
  wp True (_onFrameAttached frameId parentFrameId) (λ _, registry_ok)
    registry_ok m.
Proof.
  intros Hok. unfold _onFrameAttached, new_Frame.
  do 3 wp_step. apply wp_assert; [intros _|done].
  assert (∀ id, _frames m !! id ≠ Some (length (store m))) as Hun.
  { intros id (f & Hf%lookup_lt_Some & _)%(ro_keys _ Hok). lia. }
  destruct (if truthy _ then _ else _) as [p|]; repeat wp_step.
  - do 2 apply ro_add_call. apply ro_rename; [done..|].
    apply ro_update; [apply keeps_registry_with_childFrames|done|].
    by apply ro_push.
  - do 2 apply ro_add_call.
    eapply ro_set_mainFrame;
      [simpl; apply list_lookup_insert_eq;
       rewrite length_app; simpl; lia| |].
    + simpl. simpl in *.
      match goal with H : (_ ++ _) !! _ = Some ?f |- _ =>
        rewrite lookup_app_r, Nat.sub_diag in H by done;
        by injection H as <- end.
    + apply ro_rename; [done..|]. by apply ro_push.
Qed.

Lemma call_ro op m :
  registry_ok m → wp True (call op) (λ _, registry_ok) registry_ok m.
Proof.
  intros Hok. destruct op; unfold call.
  - wp_step. eapply wp_mono; [by apply onFrameAttached_ro| |done].
    intros h m' ?. by wp_step.
  - do 2 wp_step. by apply onFrameNavigated_ro.
  - unfold _onFrameNavigatedWithinDocument,
      _onCommittedSameDocumentNavigation.
    do 2 wp_step. destruct (_frames m !! _); repeat wp_step;
      eauto 10 with ro.
  - unfold _onFrameDetached. do 4 wp_step.
    destruct (_frames m !! _); [|by wp_step].
    by apply removeFramesRecursively_ro.
  - unfold _onFrameStoppedLoading, _lifecycleEvent. do 2 wp_step.
    destruct (_frames m !! _); repeat wp_step; eauto 10 with ro.
  - unfold _onLifecycleEvent, _lifecycleEvent. do 2 wp_step.
    destruct (_frames m !! _); repeat wp_step; eauto 10 with ro.
  - unfold _onExecutionContextCreated, new_ExecutionContext,
      _contextCreated. do 2 wp_step.
    case_bool_decide as Hnew; [by wp_step|].
    apply eq_None_not_Some in Hnew.
    destruct (_frames m !! _) as [h|]; [|by wp_step].
    repeat wp_step.
    + apply (ro_context_created main (Build_ExecutionContext _ _ h));
        [done..|by apply ro_set_contextsCreated].
    + apply (ro_context_created utility (Build_ExecutionContext _ _ h));
        [done..|by apply ro_set_contextsCreated].
    + apply (ro_insert_context (Build_ExecutionContext _ _ h));
        [done|by apply ro_set_contextsCreated].
Qed.

Lemma after_ro op m : registry_ok m → registry_ok (after op m).
Proof.
  intros Hok. pose proof (call_ro op m Hok) as H.
  unfold after, wp in *. by destruct (call op m).
Qed.

Lemma ro_new : registry_ok new_FrameManager.
Proof. by split. Qed.

Lemma reachable_ro m : reachable m → registry_ok m.
Proof.
  intros [ops ->]. generalize new_FrameManager, ro_new.
  induction ops as [|op ops IH]; intros m Hok; [done|].
  simpl. by apply IH, after_ro.
Qed.

(** X3.  In every reachable state a frame is registered under the id it
    carries, and so under no second id: [frame(id)] and [frame(id')] are
    the same Frame only when [id = id']. *)
Theorem registered_under_own_id m id h :
  reachable m → frame id m = Some h →
  frameId_of (store m) h = Some id
  ∧ ∀ id', frame id' m = Some h → id' = id.
Proof.
  intros Hok%reachable_ro Hh. unfold frame, frameId_of in *.
  destruct (ro_keys _ Hok _ _ Hh) as (f & Hf & <-).
  rewrite Hf. split; [done|]. intros id' Hh'.
  destruct (ro_keys _ Hok _ _ Hh') as (f' & Hf' & <-). congruence.
Qed.

(** X3 at [example_tree], where [b] names the second frame. *)
Lemma registered_under_own_id_witness :
  reachable example_tree ∧ frame "b" example_tree = Some 1
  ∧ frameId_of (store example_tree) 1 = Some "b"
  ∧ ∀ id', frame id' example_tree = Some 1 → id' = "b".
Proof.
  assert (reachable example_tree) as Hr by (eexists; reflexivity).
  assert (frame "b" example_tree = Some 1) as Hb by reflexivity.
  split; [exact Hr|]. split; [exact Hb|].
  exact (registered_under_own_id example_tree "b" 1 Hr Hb).
Defined.

(** X4.  In every reachable state the current context of either world of a
    frame belongs to that frame and is registered under its own id:
    [executionContextById] returns it. *)
Theorem current_context_is_registered m h f c :
  reachable m → store m !! h = Some f → current f c →
  ctx_frame c = h ∧ executionContextById (_contextId c) m = Done c m.
Proof.
  intros Hok%reachable_ro Hf Hc.
  destruct (ro_current _ Hok h f c Hf Hc) as [? Hin]. split; [done|].
  unfold executionContextById, mbind, M_bind, get_state. by rewrite Hin.
Qed.

(** X4 at [example_contexts]: the main-world context of frame [a]. *)
Lemma current_context_is_registered_witness :
  ∃ f, store example_contexts !! 0 = Some f
       ∧ current f example_main_context
       ∧ executionContextById 1 example_contexts
         = Done example_main_context example_contexts.
Proof.
  assert (reachable example_contexts) as Hr.
  { apply reachable_run. eexists; reflexivity. }
  eexists. split; [reflexivity|]. split; [by left|].
  refine (proj2 (current_context_is_registered example_contexts 0 _
                   example_main_context Hr _ _)); [reflexivity|by left].
Defined.

(** X5.  In every reachable state the main frame, when there is one, has no
    parent frame: [_mainFrame] is only ever assigned a frame that was
    attached without a resolved parent, and a parent link is never set
    later. *)
Theorem mainFrame_has_no_parent m F :
  reachable m → mainFrame m = Some F →
  is_Some (store m !! F) ∧ parent (store m) F = None.
Proof.
  intros Hok%reachable_ro HF.
  destruct (ro_main _ Hok _ HF) as (f & Hf & Hp).
  unfold parent. rewrite Hf. split; [by eexists|done].
Qed.

(** X5 at [example_orphan], after a second parentless frame took over. *)
Lemma mainFrame_has_no_parent_witness :
  reachable example_orphan ∧ mainFrame example_orphan = Some 1
  ∧ parent (store example_orphan) 1 = None.
Proof.
  assert (reachable example_orphan) as Hr by (eexists; reflexivity).
  assert (mainFrame example_orphan = Some 1) as Hm by reflexivity.
  split; [exact Hr|]. split; [exact Hm|].
  exact (proj2 (mainFrame_has_no_parent example_orphan 1 Hr Hm)).
Defined.


(** ** What a detach leaves alone *)

(** X6.  In every reachable state [_onFrameDetached] returns and never
    touches the execution contexts: the map of contexts is the same, also
    for the contexts of the frames it removed, every Frame keeps the current
    contexts of its worlds, and [mainFrame()] returns what it returned
    before, also when the main frame itself was detached. *)
Theorem onFrameDetached_keeps_contexts m fuel frameId :
  reachable m → budget m ≤ fuel →
  ∃ m', _onFrameDetached fuel frameId m = Done () m'
    ∧ _contextIdToContext m' = _contextIdToContext m
    ∧ mainFrame m' = mainFrame m
    ∧ ∀ h, (_mainContext <$> store m' !! h) = (_mainContext <$> store m !! h)
           ∧ (_utilityContext <$> store m' !! h)
             = (_utilityContext <$> store m !! h).
Proof.
  intros Hwf%reachable_wf Hfuel. unfold _onFrameDetached, mainFrame.
  rewrite (bind_run _ _ _ _ _ (eq_refl : get_state m = Done m m)).
  destruct (_frames m !! frameId) as [F|] eqn:HF; [|by exists m].
  destruct (removeFramesRecursively_spec fuel F m)
    as (m' & D & Hrun & Hrm & _).
  { apply Hwf. }
  { by eapply wf_frames. }
  { unfold budget in Hfuel. lia. }
  exists m'. split_and!; [done|apply Hrm..|].
  intros h. rewrite (rm_store _ _ _ Hrm), prune_lookup.
  destruct (store m !! h) as [f|]; [|done]. simpl.
  by case_bool_decide.
Qed.

(** X6 at [example_contexts]: detaching the main frame [a], which holds
    context 1. *)
Lemma onFrameDetached_keeps_contexts_witness :
  ∃ m', _onFrameDetached 4 "a" example_contexts = Done () m'
    ∧ _contextIdToContext m' = _contextIdToContext example_contexts
    ∧ mainFrame m' = Some 0.
Proof.
  assert (reachable example_contexts) as Hr.
  { apply reachable_run. eexists; reflexivity. }
  assert (budget example_contexts ≤ 4) as Hb by (vm_compute; lia).
  destruct (onFrameDetached_keeps_contexts example_contexts 4 "a" Hr Hb)
    as (m' & Hrun & Hc & Hm & _).
  exists m'. split_and!; [exact Hrun|exact Hc|].
  etrans; [exact Hm|reflexivity].
Defined.

(** ** Registering an execution context *)

(** X7.  For a payload whose id is not registered and whose frame is,
    [_onExecutionContextCreated] returns and registers a new context of
    that frame: [executionContextById] returns it, the other ids keep their
    contexts, and the context becomes the frame's current main-world
    context when the payload is a page context, its current utility-world
    context when it is not a page context and carries the utility world's
    name, and is current in no world otherwise. *)
Theorem onExecutionContextCreated_registers m contextPayload h f :
  _contextIdToContext m !! ecd_id contextPayload = None →
  frame (ecd_frameId contextPayload) m = Some h →
  store m !! h = Some f →
  let c := {| ctx_serial := contextsCreated m;
              ctx_payload := contextPayload; ctx_frame := h |} in
  ∃ m' f',
    _onExecutionContextCreated contextPayload m = Done () m'
    ∧ executionContextById (ecd_id contextPayload) m' = Done c m'
    ∧ (∀ k, k ≠ ecd_id contextPayload →
         _contextIdToContext m' !! k = _contextIdToContext m !! k)
    ∧ store m' !! h = Some f'
    ∧ _mainContext f'
      = (if ecd_isPageContext contextPayload then Some c
         else _mainContext f)
    ∧ _utilityContext f'
      = (if ecd_isPageContext contextPayload then _utilityContext f
         else if bool_decide (ecd_name contextPayload = UTILITY_WORLD_NAME)
         then Some c else _utilityContext f).
Proof.
  intros Hnew Hh Hf c. unfold frame in Hh.
  unfold _onExecutionContextCreated, new_ExecutionContext, _contextCreated,
    executionContextById, update, read, modify, get_state, mbind, M_bind,
    mret, M_ret.
  rewrite bool_decide_eq_false_2 by (rewrite Hnew; by intros [? ?]).
  rewrite Hh. simpl.
  destruct (ecd_isPageContext contextPayload); simpl;
    [|case_bool_decide; simpl]; rewrite ?Hf; simpl;
    eexists _, _; (split; [reflexivity|]); simpl;
    rewrite ?lookup_insert_eq;
    (split_and!; [reflexivity
                 |by intros k Hk; rewrite lookup_insert_ne
                 |first [apply list_lookup_insert_eq;
                         by eapply lookup_lt_Some|exact Hf]
                 |done..]).
Qed.

(** X7 at [example_tree]: a utility-world context for frame [b]. *)
Lemma onExecutionContextCreated_registers_witness :
  let p := {| ecd_id := 7; ecd_isPageContext := false;
              ecd_name := UTILITY_WORLD_NAME; ecd_frameId := "b" |} in
  let c := {| ctx_serial := 0; ctx_payload := p; ctx_frame := 1 |} in
  ∃ m' f',
    _onExecutionContextCreated p example_tree = Done () m'
    ∧ executionContextById 7 m' = Done c m'
    ∧ store m' !! 1 = Some f'
    ∧ _mainContext f' = None ∧ _utilityContext f' = Some c.
Proof.
  intros p c.
  destruct (onExecutionContextCreated_registers example_tree p 1
              (with_childFrames (λ _, [2])
                 (with_frameData "b" (fresh_Frame (Some 0)))))
    as (m' & f' & Hrun & Hby & _ & Hf' & Hmain & Hut);
    [reflexivity..|].
  exists m', f'. split_and!; [exact Hrun|exact Hby|exact Hf'|..].
  - etrans; [exact Hmain|reflexivity].
  - etrans; [exact Hut|reflexivity].
Defined.


(** ** The contexts a navigation disposes of *)

Lemma wp_and T {A} (c : M A) Q1 Q2 E1 E2 m :
  wp T c Q1 E1 m → wp T c Q2 E2 m →
  wp T c (λ a m', Q1 a m' ∧ Q2 a m') (λ m', E1 m' ∧ E2 m') m.
Proof. unfold wp. by destruct (c m). Qed.

Lemma wp_for_each_prefix T {A} (body : A → M unit)
    (I : list A → FrameManager → Prop) E (all : list A) :
  (∀ pre x post m', all = pre ++ x :: post → I pre m' →
     wp T (body x) (λ _, I (pre ++ [x])) E m') →
  ∀ xs pre m, all = pre ++ xs → I pre m →
    wp T (for_each xs body) (λ _, I all) E m.
Proof.
  intros Hbody. induction xs as [|x xs IH]; intros pre m Hall HI; simpl.
  - apply wp_ret. by rewrite Hall, app_nil_r.
  - apply wp_bind. eapply wp_mono; [by eapply Hbody| |done].
    intros u m' HI'. apply (IH (pre ++ [x])); [|done].
    by rewrite <- app_assoc.
Qed.

Lemma removeFramesRecursively_contexts C fuel :
  ∀ F m, _contextIdToContext m = C →
    wp True (_removeFramesRecursively fuel F)
      (λ _ m', _contextIdToContext m' = C) (λ _, False) m.
Proof.
  induction fuel as [|fuel IH]; intros F m HC; [done|].
  simpl. unfold childFrames. do 4 wp_step.
  wp_step. apply wp_for_each with (I := λ m', _contextIdToContext m' = C);
    [done| |].
  { intros c m' _ ?. by apply IH. }
  intros m' HC'. unfold _onDetached, _frameData.
  do 3 wp_step. destruct (_parentFrame f0); repeat wp_step; done.
Qed.

Lemma contextDestroyed_contexts h x m :
  wp True (_contextDestroyed h x)
    (λ _ m', _contextIdToContext m' = _contextIdToContext m)
    (λ _, False) m.
Proof. unfold _contextDestroyed. repeat wp_step; done. Qed.

Lemma elem_of_values (C : gmap Z ExecutionContext) c :
  c ∈ map snd (map_to_list C) ↔ ∃ k, C !! k = Some c.
Proof.
  change (map snd (map_to_list C)) with ((map_to_list C).*2).
  rewrite list_elem_of_fmap. split.
  - intros ([k c'] & -> & Hin%elem_of_map_to_list). by exists k.
  - intros [k Hk]. exists (k, c). by rewrite elem_of_map_to_list.
Qed.

Lemma disposeContextsOf_contexts F m :
  (∀ k c, _contextIdToContext m !! k = Some c → _contextId c = k) →
  wp True (disposeContextsOf F)
    (λ _ m', ∀ k c, _contextIdToContext m' !! k = Some c ↔
               _contextIdToContext m !! k = Some c ∧ ctx_frame c ≠ F)
    (λ _, False) m.
Proof.
  intros Hkey. unfold disposeContextsOf. do 2 wp_step.
  set (all := map snd (map_to_list (_contextIdToContext m))).
  eapply wp_mono with
    (Q := λ _ m', ∀ k c, _contextIdToContext m' !! k = Some c ↔
            _contextIdToContext m !! k = Some c
            ∧ ¬ (ctx_frame c = F ∧ c ∈ all))
    (E := λ _, False); [| |done].
  - apply (wp_for_each_prefix True _
      (λ pre m', ∀ k c, _contextIdToContext m' !! k = Some c ↔
         _contextIdToContext m !! k = Some c
         ∧ ¬ (ctx_frame c = F ∧ c ∈ pre)) _ all) with (pre := []);
      [|done|].
    + intros pre x post m' Hall HI.
      assert (_contextIdToContext m !! _contextId x = Some x) as Hx.
      { assert (x ∈ all) as [k Hk]%elem_of_values
          by (rewrite Hall; set_solver).
        by rewrite (Hkey _ _ Hk). }
      case_bool_decide as Hfr.
      * do 2 wp_step.
        eapply wp_mono; [apply contextDestroyed_contexts| |done].
        simpl. intros u m'' -> k c.
        rewrite lookup_delete_Some, HI, elem_of_app, list_elem_of_singleton.
        split.
        -- intros (Hne & Hk & Hpre). split; [done|].
           intros (Hc & [?| ->]); [by apply Hpre|].
           by rewrite (Hkey _ _ Hk) in Hne.
        -- intros (Hk & Hpre). split_and!; [|done|naive_solver].
           intros <-. apply Hpre. split; [|right]; congruence.
      * wp_step. intros k c. rewrite HI, elem_of_app, list_elem_of_singleton.
        naive_solver.
    + intros k c. rewrite elem_of_nil. naive_solver.
  - simpl. intros u m' H k c. rewrite H. split.
    + intros [Hk Hn]. split; [done|]. intros Hc. apply Hn.
      split; [done|]. apply elem_of_values. eauto.
    + intros [Hk Hne]. split; [done|]. by intros [? _].
Qed.

Lemma onFrameNavigated_contexts fuel framePayload initial F m :
  (∀ k c, _contextIdToContext m !! k = Some c → _contextId c = k) →
  (if negb (truthy (fp_parentId framePayload)) then _mainFrame m
   else _frames m !! fp_id framePayload) = Some F →
  wp True (_onFrameNavigated fuel framePayload initial)
    (λ _ m', ∀ k c, _contextIdToContext m' !! k = Some c ↔
               _contextIdToContext m !! k = Some c ∧ ctx_frame c ≠ F)
    (λ _, False) m.
Proof.
  intros Hkey HF. unfold _onFrameNavigated. do 2 wp_step. rewrite HF.
  unfold childFrames. do 4 wp_step.
  wp_step.
  apply wp_mono with
    (Q := λ _ m', _contextIdToContext m' = _contextIdToContext m)
    (E := λ _, False); [| |done].
  { apply wp_for_each with
      (I := λ m', _contextIdToContext m' = _contextIdToContext m);
      [done| |done].
    intros c m' _ ?. by apply removeFramesRecursively_contexts. }
  intros u m1 HC1. wp_step.
  apply wp_mono with
    (Q := λ _ m', _contextIdToContext m' = _contextIdToContext m)
    (E := λ _, False); [| |done].
  { destruct (negb _); [|by wp_step].
    unfold _frameData. repeat wp_step. done. }
  intros u' m2 HC2. wp_step.
  eapply wp_mono; [apply disposeContextsOf_contexts| |done].
  { by rewrite HC2. }
  intros u'' m3 H3. simpl in H3. simpl.
  unfold newDocumentId, _onExpectedNewDocumentNavigation,
    _onCommittedNewDocumentNavigation.
  repeat wp_step; simpl; intros k c; by rewrite H3, HC2.
Qed.

(** X8.  In every reachable state, [_onFrameNavigated] for a frame [F]
    that it finds returns and disposes of exactly the contexts of [F]: the
    contexts registered afterwards are those registered before that belong
    to another frame (the contexts of the child frames it detached among
    them), and [F] has no current context in either world. *)
Theorem onFrameNavigated_disposes_contexts m framePayload initial F :
  reachable m →
  (if negb (truthy (fp_parentId framePayload)) then mainFrame m
   else frame (fp_id framePayload) m) = Some F →
  ∃ m' f,
    _onFrameNavigated (budget m) framePayload initial m = Done () m'
    ∧ (∀ k c, _contextIdToContext m' !! k = Some c ↔
         _contextIdToContext m !! k = Some c ∧ ctx_frame c ≠ F)
    ∧ store m' !! F = Some f
    ∧ _mainContext f = None ∧ _utilityContext f = None.
Proof.
  intros Hr HF. unfold mainFrame, frame in HF.
  pose proof (reachable_wf _ Hr) as Hwf.
  pose proof (reachable_ro _ Hr) as Hro.
  assert (F < length (store m)) as HFlt.
  { destruct (negb _); [by eapply wf_mainFrame|by eapply wf_frames]. }
  pose proof (onFrameNavigated_wf framePayload initial m Hwf) as H1.
  pose proof (onFrameNavigated_ro (budget m) framePayload initial m Hro)
    as H2.
  pose proof (onFrameNavigated_contexts (budget m) framePayload initial F m
                (ro_contexts _ Hro) HF) as H3.
  pose proof (onFrameNavigated_quiet (budget m) framePayload initial m)
    as H4.
  unfold wp in H1, H2, H3, H4.
  destruct (_onFrameNavigated (budget m) framePayload initial m)
    as [[] m'| | |]; try done.
  destruct (lookup_lt_is_Some_2 (store m') F) as [f Hf].
  { by rewrite (q_length _ _ H4). }
  assert (∀ c, ¬ current f c) as Hnone.
  { intros c Hc. destruct (ro_current _ H2 F f c Hf Hc) as [Hfr Hin].
    by apply H3 in Hin as [_ ?]. }
  exists m', f. split_and!; [done..| |].
  - destruct (_mainContext f) as [c|] eqn:Hc; [|done].
    destruct (Hnone c). by left.
  - destruct (_utilityContext f) as [c|] eqn:Hc; [|done].
    destruct (Hnone c). by right.
Qed.

(** X8 at [example_contexts]: navigating the main frame [a] drops its
    context 1. *)
Lemma onFrameNavigated_disposes_contexts_witness :
  ∃ m' f,
    _onFrameNavigated (budget example_contexts)
      (example_payload "a" None "L") false example_contexts = Done () m'
    ∧ _contextIdToContext m' !! 1%Z = None
    ∧ store m' !! 0 = Some f
    ∧ _mainContext f = None ∧ _utilityContext f = None.
Proof.
  assert (reachable example_contexts) as Hr.
  { apply reachable_run. eexists; reflexivity. }
  destruct (onFrameNavigated_disposes_contexts example_contexts
              (example_payload "a" None "L") false 0 Hr eq_refl)
    as (m' & f & Hrun & Hc & Hf & Hmain & Hut).
  exists m', f. split_and!; [exact Hrun| |exact Hf|exact Hmain|exact Hut].
  destruct (_contextIdToContext m' !! 1%Z) as [c|] eqn:H1; [|reflexivity].
  apply Hc in H1 as [H1 Hne]. vm_compute in H1.
  injection H1 as <-. by destruct Hne.
Defined.


(** ** Leaving the target *)

Lemma current_clear w f c : current (with_context w None f) c → current f c.
Proof.
  destruct w; intros [H|H]; simpl in H; try done;
    first [by left|by right].
Qed.

Lemma contextDestroyed_clears x (S : ExecutionContext → Prop) m :
  (∀ h f c, store m !! h = Some f → current f c → ctx_frame c = h ∧ S c) →
  wp True (_contextDestroyed (ctx_frame x) x)
    (λ _ m', (∀ h f c, store m' !! h = Some f → current f c →
                ctx_frame c = h ∧ S c ∧ c ≠ x)
             ∧ _contextIdToContext m' = _contextIdToContext m
             ∧ calls m' = calls m)
    (λ _, False) m.
Proof.
  intros HS. unfold _contextDestroyed. do 2 wp_step. wp_step.
  assert (∀ h1 g m1,
    (∀ h f c, store m1 !! h = Some f → current f c → ctx_frame c = h ∧ S c)
    → ∀ w h f c, store m1 !! h1 = Some g →
      <[h1 := with_context w None g]> (store m1) !! h = Some f →
      current f c → ctx_frame c = h ∧ S c) as Hclear.
  { intros h1 g m1 H1 w h f0 c Hg
      [(-> & -> & _)|[? Hf']]%lookup_insert_inv Hc; [|by eapply H1].
    eapply H1; [done|]. by eapply current_clear. }
  apply wp_mono with
    (Q := λ _ m1,
       (∀ h f c, store m1 !! h = Some f → current f c →
          ctx_frame c = h ∧ S c)
       ∧ (∀ f, store m1 !! ctx_frame x = Some f → _mainContext f ≠ Some x)
       ∧ _contextIdToContext m1 = _contextIdToContext m
       ∧ calls m1 = calls m)
    (E := λ _, False); [| |done].
  { case_bool_decide as Hmain; repeat wp_step.
    - split_and!; [|simpl|done..].
      + intros h g c. by eapply Hclear.
      + intros g.
        rewrite list_lookup_insert_eq by by eapply lookup_lt_Some.
        by intros [= <-].
    - split_and!; [done| |done..]. congruence. }
  intros u m1 (H1 & Hmain & Hc1 & Hl1). do 2 wp_step.
  assert (∀ m2, (∀ h f c, store m2 !! h = Some f → current f c →
                   ctx_frame c = h ∧ S c) →
                (∀ f, store m2 !! ctx_frame x = Some f → ¬ current f x) →
                ∀ h f c, store m2 !! h = Some f → current f c →
                  ctx_frame c = h ∧ S c ∧ c ≠ x) as Hdone.
  { intros m2 H2 Hx h g c Hg Hc. destruct (H2 h g c Hg Hc) as [<- ?].
    split_and!; [done..|]. intros ->. by eapply Hx. }
  case_bool_decide as Hut; repeat wp_step.
  - split_and!; [|done..]. apply Hdone.
    + intros h g c. by eapply Hclear.
    + simpl. intros g.
      rewrite list_lookup_insert_eq by by eapply lookup_lt_Some.
      intros [= <-] [Hc|Hc]; simpl in Hc; [|done]. by eapply Hmain.
  - split_and!; [|done..]. apply Hdone; [done|].
    intros g Hg [Hc|Hc]; [by eapply Hmain|congruence].
Qed.

Lemma disconnectFromTarget_clears m :
  registry_ok m →
  wp True disconnectFromTarget
    (λ _ m', (∀ h f c, store m' !! h = Some f → ¬ current f c)
             ∧ _contextIdToContext m' = _contextIdToContext m
             ∧ calls m' = calls m)
    (λ _, False) m.
Proof.
  intros Hro. unfold disconnectFromTarget. do 2 wp_step.
  set (all := map snd (map_to_list (_contextIdToContext m))).
  eapply wp_mono with
    (Q := λ _ m',
       (∀ h f c, store m' !! h = Some f → current f c →
          ctx_frame c = h ∧ c ∈ all ∧ c ∉ all)
       ∧ _contextIdToContext m' = _contextIdToContext m
       ∧ calls m' = calls m)
    (E := λ _, False); [| |done].
  - apply (wp_for_each_prefix True _
      (λ pre m',
         (∀ h f c, store m' !! h = Some f → current f c →
            ctx_frame c = h ∧ c ∈ all ∧ c ∉ pre)
         ∧ _contextIdToContext m' = _contextIdToContext m
         ∧ calls m' = calls m) _ all) with (pre := []); [|done|].
    + intros pre x post m' Hall (HI & HC & HL).
      eapply wp_mono;
        [apply (contextDestroyed_clears x (λ c, c ∈ all ∧ c ∉ pre) m' HI)
        | |done].
      simpl. intros u m'' (H & -> & ->). split_and!; [|done..].
      intros h f c Hf Hc. destruct (H h f c Hf Hc) as (? & [? ?] & ?).
      split_and!; [done..|]. set_solver.
    + split_and!; [|done..]. intros h f c Hf Hc.
      destruct (ro_current _ Hro h f c Hf Hc) as [? Hin].
      split_and!; [done| |set_solver]. apply elem_of_values. eauto.
  - simpl. intros u m' (H & ? & ?). split_and!; [|done..].
    intros h f c Hf Hc. by destruct (H h f c Hf Hc) as (_ & ? & ?).
Qed.

Lemma disconnectFromTarget_registry m :
  wf m →
  wp False disconnectFromTarget (λ _, same_registry m) (λ _, False) m.
Proof.
  intros Hwf. unfold disconnectFromTarget. do 2 wp_step.
  apply wp_for_each with (I := same_registry m); [apply sr_refl| |done].
  intros c m' [k Hk]%elem_of_values Hsr.
  apply contextDestroyed_registry; [done|]. by eapply wf_contexts.
Qed.

(** X9.  In every reachable state [disconnectFromTarget] returns; afterwards
    no Frame has a current context in either world, while the map of
    contexts is what it was (every context is still registered), and so are
    the registry of frames, the main frame and the events emitted. *)
Theorem disconnectFromTarget_keeps_contexts_registered m :
  reachable m →
  ∃ m', disconnectFromTarget m = Done () m'
    ∧ (∀ h f, store m' !! h = Some f →
         _mainContext f = None ∧ _utilityContext f = None)
    ∧ _contextIdToContext m' = _contextIdToContext m
    ∧ same_registry m m' ∧ calls m' = calls m.
Proof.
  intros Hr.
  pose proof (disconnectFromTarget_registry m (reachable_wf _ Hr)) as H1.
  pose proof (disconnectFromTarget_clears m (reachable_ro _ Hr)) as H2.
  unfold wp in H1, H2.
  destruct (disconnectFromTarget m) as [[] m'| | |]; try done.
  destruct H2 as (Hnone & HC & HL). exists m'. split_and!; try done.
  intros h f Hf. split.
  - destruct (_mainContext f) as [c|] eqn:Hc; [|done].
    destruct (Hnone h f c Hf). by left.
  - destruct (_utilityContext f) as [c|] eqn:Hc; [|done].
    destruct (Hnone h f c Hf). by right.
Qed.

(** X9 at [example_contexts]: context 1 stays registered and frame [a]
    loses it. *)
Lemma disconnectFromTarget_keeps_contexts_registered_witness :
  ∃ m' f, disconnectFromTarget example_contexts = Done () m'
    ∧ executionContextById 1 m' = Done example_main_context m'
    ∧ store m' !! 0 = Some f ∧ _mainContext f = None.
Proof.
  assert (reachable example_contexts) as Hr.
  { apply reachable_run. eexists; reflexivity. }
  destruct (disconnectFromTarget_keeps_contexts_registered
              example_contexts Hr) as (m' & Hrun & Hnone & HC & Hsr & _).
  destruct (lookup_lt_is_Some_2 (store m') 0) as [f Hf].
  { rewrite (sr_length _ _ Hsr). vm_compute. lia. }
  exists m', f. split_and!; [exact Hrun| |exact Hf|].
  - unfold executionContextById, mbind, M_bind, get_state.
    rewrite HC. reflexivity.
  - exact (proj1 (Hnone 0 f Hf)).
Defined.


(** ** Seeding from the resource tree *)

Lemma handleFrameTree_unfold frame childFrames :
  _handleFrameTree (Build_FrameTree frame childFrames)
  = (_onFrameAttached (fp_id frame) (fp_parentId frame);;
     (m ← get_state; _onFrameNavigated (budget m) frame true);;
     match childFrames with
     | None => mret ()
     | Some children => for_each children _handleFrameTree
     end).
Proof.
  simpl. destruct childFrames as [children|]; [|done].
  assert ((fix for_of (children : list FrameTree) : M unit :=
             match children with
             | [] => mret ()
             | child :: rest => _handleFrameTree child;; for_of rest
             end) children = for_each children _handleFrameTree) as ->; [|done].
  induction children as [|child rest IH]; [done|]. simpl. by rewrite IH.
Qed.

Lemma tree_events_unfold frame childFrames :
  tree_events (Build_FrameTree frame childFrames)
  = OnFrameAttached (fp_id frame) (fp_parentId frame)
    :: OnFrameNavigated frame true
    :: mjoin (tree_events <$> default [] childFrames).
Proof.
  simpl. do 2 f_equal. destruct childFrames as [children|]; [|done].
  induction children as [|child rest IH]; [done|]. simpl. by rewrite IH.
Qed.

Lemma tree_ids_unfold frame childFrames :
  tree_ids (Build_FrameTree frame childFrames)
  = fp_id frame :: mjoin (tree_ids <$> default [] childFrames).
Proof.
  simpl. f_equal. destruct childFrames as [children|]; [|done].
  induction children as [|child rest IH]; [done|]. simpl. by rewrite IH.
Qed.

Lemma FrameTree_ind (P : FrameTree → Prop) :
  (∀ frame, P (Build_FrameTree frame None)) →
  (∀ frame children, Forall P children →
     P (Build_FrameTree frame (Some children))) →
  ∀ frameTree, P frameTree.
Proof.
  intros Hleaf Hnode. fix IH 1. intros [frame [children|]]; [|apply Hleaf].
  apply Hnode. induction children as [|child rest IHrest]; constructor.
  - apply IH.
  - apply IHrest.
Qed.

Lemma onFrameAttached_fresh frameId parentFrameId m :
  wf m → _frames m !! frameId = None →
  wp True (_onFrameAttached frameId parentFrameId)
    (λ F m', _frames m' = <[frameId := F]> (_frames m)
             ∧ (∃ f, store m' !! F = Some f ∧ frameData_id f = frameId
                     ∧ _childFrames f = [])
             ∧ (truthy parentFrameId = false → _mainFrame m' = Some F))
    (λ _, False) m.
Proof.
  intros Hwf Hnone. unfold _onFrameAttached, new_Frame.
  do 3 wp_step. apply wp_assert; [intros _|].
  2:{ rewrite Hnone. by intros [=]. }
  destruct (if truthy _ then _ else _) as [p|] eqn:Hp; repeat wp_step.
  - assert (p < length (store m)) as Hlt.
    { destruct (truthy _); [by eapply wf_frames|done]. }
    simpl in *. split_and!; [done| |by destruct (truthy parentFrameId)].
    eexists. split; [apply list_lookup_insert_eq|].
    { rewrite length_insert, length_app. simpl. lia. }
    match goal with H : <[p := _]> _ !! _ = Some ?f |- _ =>
      rewrite list_lookup_insert_ne, lookup_app_r, Nat.sub_diag in H
        by lia; by injection H as <- end.
  - simpl in *. split_and!; [done| |done].
    eexists. split; [apply list_lookup_insert_eq|].
    { rewrite length_app. simpl. lia. }
    match goal with H : (_ ++ _) !! _ = Some ?f |- _ =>
      rewrite lookup_app_r, Nat.sub_diag in H by done;
      by injection H as <- end.
Qed.

Lemma disposeContextsOf_frames h m :
  wp True (disposeContextsOf h) (λ _ m', _frames m' = _frames m)
    (λ _, False) m.
Proof.
  unfold disposeContextsOf. do 2 wp_step.
  apply wp_for_each with (I := λ m', _frames m' = _frames m); [done| |done].
  intros c m' _ Hfr. unfold _contextDestroyed. repeat wp_step; done.
Qed.

Lemma onFrameNavigated_fresh fuel framePayload F f m :
  _frames m !! fp_id framePayload = Some F →
  store m !! F = Some f → frameData_id f = fp_id framePayload →
  _childFrames f = [] →
  (truthy (fp_parentId framePayload) = false → _mainFrame m = Some F) →
  wp True (_onFrameNavigated fuel framePayload true)
    (λ _ m', _frames m' = _frames m) (λ _, False) m.
Proof.
  intros HF Hf Hid Hkids Hmain. unfold _onFrameNavigated. do 2 wp_step.
  assert ((if negb (truthy (fp_parentId framePayload)) then _mainFrame m
           else _frames m !! fp_id framePayload) = Some F) as ->.
  { destruct (truthy _); simpl; [done|by apply Hmain]. }
  unfold childFrames. do 4 wp_step.
  assert (f0 = f) as -> by congruence. rewrite Hkids. simpl.
  do 3 wp_step.
  apply wp_mono with (Q := λ _ m', _frames m' = _frames m)
                     (E := λ _, False); [| |done].
  { destruct (negb _); [|by wp_step].
    unfold _frameData. repeat wp_step. simpl.
    assert (f0 = f) as -> by congruence.
    by rewrite Hid, insert_delete_eq, insert_id. }
  intros u m1 H1. wp_step.
  eapply wp_mono; [apply disposeContextsOf_frames| |done].
  intros u' m2 H2. simpl in *.
  unfold newDocumentId, _onCommittedNewDocumentNavigation.
  repeat wp_step; simpl; congruence.
Qed.

Lemma seed_frame framePayload m :
  wf m → _frames m !! fp_id framePayload = None →
  ∃ F m1 m2,
    _onFrameAttached (fp_id framePayload) (fp_parentId framePayload) m
    = Done F m1
    ∧ _onFrameNavigated (budget m1) framePayload true m1 = Done () m2
    ∧ wf m2 ∧ _frames m2 = <[fp_id framePayload := F]> (_frames m).
Proof.
  intros Hwf Hnone.
  pose proof (onFrameAttached_wf (fp_id framePayload)
                (fp_parentId framePayload) m Hwf) as H1.
  pose proof (onFrameAttached_fresh (fp_id framePayload)
                (fp_parentId framePayload) m Hwf Hnone) as H2.
  unfold wp in H1, H2.
  destruct (_onFrameAttached _ _ m) as [F m1| | |]; try done.
  destruct H2 as (Hfr & (f & Hf & Hid & Hkids) & Hmain).
  pose proof (onFrameNavigated_wf framePayload true m1 H1) as H3.
  pose proof (onFrameNavigated_fresh (budget m1) framePayload F f m1) as H4.
  unfold wp in H3, H4.
  destruct (_onFrameNavigated (budget m1) framePayload true m1)
    as [[] m2| | |] eqn:Hnav; try done.
  - exists F, m1, m2. split_and!; [done..|].
    rewrite <- Hfr. apply H4; try done. rewrite Hfr. apply lookup_insert_eq.
  - destruct H4; try done. rewrite Hfr. apply lookup_insert_eq.
Qed.

Lemma run_app ops ops' m : run (ops ++ ops') m = run ops' (run ops m).
Proof. apply foldl_app. Qed.

Lemma handleFrameTree_run frameTree :
  ∀ m, wf m → NoDup (tree_ids frameTree) →
    (∀ id, id ∈ tree_ids frameTree → _frames m !! id = None) →
    ∃ m', _handleFrameTree frameTree m = Done () m'
          ∧ wf m' ∧ m' = run (tree_events frameTree) m
          ∧ ∀ id, is_Some (_frames m' !! id) ↔
                  is_Some (_frames m !! id) ∨ id ∈ tree_ids frameTree.
Proof.
  assert (∀ children, Forall (λ t, ∀ m, wf m → NoDup (tree_ids t) →
      (∀ id, id ∈ tree_ids t → _frames m !! id = None) →
      ∃ m', _handleFrameTree t m = Done () m'
            ∧ wf m' ∧ m' = run (tree_events t) m
            ∧ ∀ id, is_Some (_frames m' !! id) ↔
                    is_Some (_frames m !! id) ∨ id ∈ tree_ids t) children →
    ∀ m, wf m → NoDup (mjoin (tree_ids <$> children)) →
      (∀ id, id ∈ mjoin (tree_ids <$> children) → _frames m !! id = None) →
      ∃ m', for_each children _handleFrameTree m = Done () m'
            ∧ wf m' ∧ m' = run (mjoin (tree_events <$> children)) m
            ∧ ∀ id, is_Some (_frames m' !! id) ↔
                    is_Some (_frames m !! id)
                    ∨ id ∈ mjoin (tree_ids <$> children)) as Hlist.
  { induction 1 as [|t rest Ht _ IH]; intros m Hwf Hnd Hfree.
    { exists m. split_and!; [done..|]. set_solver. }
    simpl in Hnd, Hfree. apply NoDup_app in Hnd as (Hnd1 & Hdisj & Hnd2).
    destruct (Ht m Hwf Hnd1) as (m1 & Hrun1 & Hwf1 & Hev1 & Hdom1).
    { intros id Hid. apply Hfree. set_solver. }
    destruct (IH m1 Hwf1 Hnd2) as (m2 & Hrun2 & Hwf2 & Hev2 & Hdom2).
    { intros id Hid. apply eq_None_not_Some. rewrite Hdom1.
      intros [Hin|Hin]; [|by eapply Hdisj].
      rewrite Hfree in Hin by set_solver. by destruct Hin. }
    exists m2. split_and!; [|done|..].
    - simpl. by rewrite (bind_run _ _ _ _ _ Hrun1).
    - simpl. by rewrite run_app, <- Hev1.
    - intros id. rewrite Hdom2, Hdom1. simpl. set_solver. }
  induction frameTree as [frame|frame children IH] using FrameTree_ind;
    intros m Hwf Hnd Hfree;
    rewrite handleFrameTree_unfold, tree_events_unfold, tree_ids_unfold;
    rewrite tree_ids_unfold in Hnd, Hfree; simpl in *;
    apply NoDup_cons in Hnd as [Hroot Hnd];
    destruct (seed_frame frame m Hwf) as (F & m1 & m2 & Hat & Hnav & Hwf2 & Hfr);
    try (apply Hfree; set_solver);
    assert (after (OnFrameNavigated frame true)
              (after (OnFrameAttached (fp_id frame) (fp_parentId frame)) m)
            = m2) as Hafter
      by (unfold after at 2; unfold call;
          rewrite (bind_run _ _ _ _ _ Hat); simpl;
          unfold after, call;
          rewrite (bind_run _ _ _ _ _ (eq_refl : get_state m1 = Done m1 m1));
          by rewrite Hnav);
    rewrite (bind_run _ _ _ _ _ Hat);
    rewrite (bind_run _ _ _ _ _
      (eq_trans (bind_run _ _ _ _ _ (eq_refl : get_state m1 = Done m1 m1))
         Hnav)).
  - exists m2. split_and!; [done..|by rewrite Hafter|].
    intros id. rewrite Hfr, lookup_insert_is_Some, elem_of_cons, elem_of_nil.
    destruct (decide (fp_id frame = id)); naive_solver.
  - destruct (Hlist children IH m2 Hwf2 Hnd) as (m3 & Hrun & Hwf3 & Hev & Hdom).
    { intros id Hid. rewrite Hfr, lookup_insert_ne; [|set_solver].
      apply Hfree. set_solver. }
    exists m3. split_and!; [done..|by rewrite Hafter|].
    intros id. rewrite Hdom, Hfr, lookup_insert_is_Some, elem_of_cons.
    destruct (decide (fp_id frame = id)); naive_solver.
Qed.

(** X10.  In every reachable state, [_handleFrameTree] for a tree whose
    frame ids are pairwise distinct and not registered returns; it leaves
    the state that delivering the events of the tree leaves (attach, then
    navigate, a parent before its children), which is reachable again, and
    afterwards the registered ids are those registered before and the ids
    of the tree. *)
Theorem handleFrameTree_seeds m frameTree :
  reachable m → NoDup (tree_ids frameTree) →
  (∀ id, id ∈ tree_ids frameTree → frame id m = None) →
  ∃ m', _handleFrameTree frameTree m = Done () m'
        ∧ m' = run (tree_events frameTree) m ∧ reachable m'
        ∧ ∀ id, is_Some (frame id m') ↔
                is_Some (frame id m) ∨ id ∈ tree_ids frameTree.
Proof.
  intros Hr Hnd Hfree.
  destruct (handleFrameTree_run frameTree m (reachable_wf _ Hr) Hnd Hfree)
    as (m' & Hrun & _ & Hev & Hdom).
  exists m'. split_and!; [done..| |done].
  rewrite Hev. by apply reachable_run.
Qed.

(** X10 for [example_frameTree] on a fresh manager. *)
Lemma handleFrameTree_seeds_witness :
  ∃ m', _handleFrameTree example_frameTree new_FrameManager = Done () m'
        ∧ m' = run (tree_events example_frameTree) new_FrameManager
        ∧ is_Some (frame "c" m').
Proof.
  assert (reachable new_FrameManager) as Hr by (by exists []).
  assert (NoDup (tree_ids example_frameTree)) as Hnd.
  { apply (bool_decide_unpack (NoDup (tree_ids example_frameTree))).
    by vm_compute. }
  assert (∀ id, id ∈ tree_ids example_frameTree →
                frame id new_FrameManager = None) as Hfree.
  { intros id _. reflexivity. }
  destruct (handleFrameTree_seeds new_FrameManager example_frameTree
              Hr Hnd Hfree) as (m' & Hrun & Hev & _ & Hdom).
  exists m'. split_and!; [exact Hrun|exact Hev|].
  apply Hdom. right.
  apply (bool_decide_unpack ("c" ∈ tree_ids example_frameTree)).
  by vm_compute.
Defined.

(** X11.  [_handleFrameTree] for a tree whose root id is registered throws
    the assertion error of [_onFrameAttached] and changes nothing: no frame
    of the tree is attached or navigated. *)
Theorem handleFrameTree_registered_root_throws m framePayload childFrames :
  is_Some (frame (fp_id framePayload) m) →
  _handleFrameTree (Build_FrameTree framePayload childFrames) m
  = Threw AssertionError m.
Proof.
  intros Hreg. rewrite handleFrameTree_unfold.
  apply (onFrameAttached_registered_throws m (fp_id framePayload)
           (fp_parentId framePayload)) in Hreg.
  unfold mbind, M_bind. by rewrite Hreg.
Qed.

(** X11 for [example_frameTree] on [example_tree], where [a] is
    registered. *)
Lemma handleFrameTree_registered_root_throws_witness :
  _handleFrameTree example_frameTree example_tree
  = Threw AssertionError example_tree.
Proof.
  apply (handleFrameTree_registered_root_throws example_tree
           (example_payload "a" None "L")).
  vm_compute. eauto.
Defined.


(** ** Isolated worlds and bootstrap scripts *)

(** X12.  [_ensureIsolatedWorld] records the name before it awaits the
    command: however the command settles, the name is in the set
    afterwards, and a later call for the same name sends nothing, resolves
    and leaves the state as it is; so a world whose creation was rejected
    is not created again. *)
Theorem ensureIsolatedWorld_never_retries url name sent sent' s :
  let s1 := (_ensureIsolatedWorld url name sent s).2 in
  name ∈ _isolatedWorlds s1
  ∧ _ensureIsolatedWorld url name sent' s1 = (Resolved (), s1).
Proof.
  assert (name ∈ _isolatedWorlds (_ensureIsolatedWorld url name sent s).2)
    as Hin.
  { unfold _ensureIsolatedWorld. case_bool_decide; simpl; set_solver. }
  simpl. split; [done|].
  unfold _ensureIsolatedWorld at 1. by rewrite bool_decide_eq_true_2.
Qed.

Lemma bootstrap_calls_snoc cs c s :
  bootstrap_calls (cs ++ [c]) s = bootstrap_call (bootstrap_calls cs s) c.
Proof. unfold bootstrap_calls. by rewrite foldl_app. Qed.

Lemma bootstrap_calls_scripts cs s :
  _bootstrapScripts (bootstrap_calls cs s)
  = rev (exposed cs) ++ _bootstrapScripts s ++ added cs.
Proof.
  induction cs as [|c cs IH] using rev_ind.
  { simpl. by rewrite app_nil_r. }
  rewrite bootstrap_calls_snoc. unfold exposed, added in *.
  rewrite !omap_app.
  destruct c as [name bindingFunction [[]|e] frames|script sent]; simpl;
    rewrite IH, ?rev_app_distr, ?app_nil_r; simpl;
    by rewrite <- ?app_assoc.
Qed.

(** X13.  After any calls of [exposeBinding] and [evaluateOnNewDocument],
    however their commands settled, the bootstrap scripts are the binding
    scripts, the latest first, then the scripts that were there, then the
    scripts given to [evaluateOnNewDocument] in the order they were given:
    a binding always comes before every plain script. *)
Theorem bootstrapScripts_bindings_first cs s :
  _bootstrapScripts (bootstrap_calls cs s)
  = rev (exposed cs) ++ _bootstrapScripts s ++ added cs.
Proof. apply bootstrap_calls_scripts. Qed.

Lemma bootstrap_call_commands s c :
  commands (bootstrap_call s c)
  = commands s ++
      [Page_setBootstrapScript
         (join ";" (_bootstrapScripts (bootstrap_call s c)))].
Proof.
  by destruct c as [name bindingFunction [[]|e] frames|script sent].
Qed.

(** X14.  Each call of [exposeBinding] or [evaluateOnNewDocument] gives the
    session exactly one command, and after any calls the last command given
    is [Page.setBootstrapScript] with all the scripts registered so far
    joined by [;], bindings first, also the scripts of calls whose command
    was rejected. *)
Theorem bootstrap_calls_send_all_scripts cs c s :
  let s' := bootstrap_calls (cs ++ [c]) s in
  length (commands s') = length (commands s) + length (cs ++ [c])
  ∧ last (commands s')
    = Some (Page_setBootstrapScript
              (join ";" (rev (exposed (cs ++ [c])) ++ _bootstrapScripts s
                         ++ added (cs ++ [c])))).
Proof.
  simpl. split.
  - generalize (cs ++ [c]). intros l.
    induction l as [|x l IH] using rev_ind; [simpl; lia|].
    rewrite bootstrap_calls_snoc, bootstrap_call_commands, !length_app, IH.
    simpl. lia.
  - rewrite <- bootstrap_calls_scripts, bootstrap_calls_snoc,
      bootstrap_call_commands. by rewrite last_snoc.
Qed.

(** X15.  In every reachable state [setSession] returns and itself sends
    neither [Page.setBootstrapScript] nor [Page.createIsolatedWorld]; it
    keeps the bootstrap scripts and forgets the isolated worlds, so that
    the next [_ensureIsolatedWorld] sends [Page.createIsolatedWorld] again,
    also for a world made before. *)
Theorem setSession_forgets_isolated_worlds url m s name sent :
  reachable m →
  ∃ m' s', setSession s m = Done s' m'
    ∧ commands s' = commands s
    ∧ _bootstrapScripts s' = _bootstrapScripts s
    ∧ commands (_ensureIsolatedWorld url name sent s').2
      = commands s ++
          [Page_createIsolatedWorld name ("//# sourceURL=" +:+ url)].
Proof.
  intros Hr.
  pose proof (disconnectFromTarget_registry m (reachable_wf _ Hr)) as H.
  unfold wp in H. unfold setSession, mbind, M_bind.
  destruct (disconnectFromTarget m) as [[] m'| | |]; try done.
  eexists _, _. split; [reflexivity|]. by split_and!.
Qed.

(** X15 at [example_contexts], after the utility world was made once. *)
Lemma setSession_forgets_isolated_worlds_witness :
  let s := (_ensureIsolatedWorld "url" UTILITY_WORLD_NAME (Resolved ())
              new_SessionSide).2 in
  ∃ m' s', setSession s example_contexts = Done s' m'
    ∧ length (commands (_ensureIsolatedWorld "url" UTILITY_WORLD_NAME
                          (Resolved ()) s').2) = 2.
Proof.
  intros s.
  assert (reachable example_contexts) as Hr.
  { apply reachable_run. eexists; reflexivity. }
  destruct (setSession_forgets_isolated_worlds "url" example_contexts s
              UTILITY_WORLD_NAME (Resolved ()) Hr)
    as (m' & s' & Hrun & _ & _ & Hc).
  exists m', s'. split; [exact Hrun|]. by rewrite Hc.
Defined.


(** ** Lifecycle events across handlers *)

Lemma onFrameStoppedLoading_calls frameId F f m :
  _frames m !! frameId = Some F → store m !! F = Some f →
  ∃ m', _onFrameStoppedLoading frameId m = Done () m'
    ∧ calls m' = calls m ++ Emit LifecycleEvent F
        :: (if bool_decide (Some F = _mainFrame m)
               && negb (bool_decide
                          ("domcontentloaded" ∈ _firedLifecycleEvents f))
            then [PageEmit Page_DOMContentLoaded None] else [])
        ++ (if bool_decide (Some F = _mainFrame m)
               && negb (bool_decide ("load" ∈ _firedLifecycleEvents f))
            then [PageEmit Page_Load None] else []).
Proof.
  intros HF Hf. pose proof (lookup_lt_Some _ _ _ Hf) as Hlt.
  unfold _onFrameStoppedLoading, _lifecycleEvent, update, read, log, modify,
    get_state, mainFrame, mbind, M_bind, mret, M_ret.
  rewrite HF, Hf. simpl. rewrite Hf. simpl.
  rewrite list_lookup_insert_eq by done. simpl.
  destruct (bool_decide (Some F = _mainFrame m)); simpl;
    [|eexists; split; [reflexivity|done]].
  do 2 case_bool_decide; simpl; eexists; (split; [reflexivity|]); simpl;
    by rewrite <- ?app_assoc.
Qed.

Lemma onLifecycleEvent_calls frameId event F f m :
  _frames m !! frameId = Some F → store m !! F = Some f →
  ∃ m' f', _onLifecycleEvent frameId event m = Done () m'
    ∧ _frames m' = _frames m ∧ _mainFrame m' = _mainFrame m
    ∧ store m' !! F = Some f'
    ∧ _firedLifecycleEvents f' = {[event]} ∪ _firedLifecycleEvents f
    ∧ calls m' = calls m ++ Emit LifecycleEvent F
        :: (if bool_decide (Some F = _mainFrame m)
            then (if bool_decide (event = "load")
                  then [PageEmit Page_Load None] else [])
                 ++ (if bool_decide (event = "domcontentloaded")
                     then [PageEmit Page_DOMContentLoaded None] else [])
            else []).
Proof.
  intros HF Hf. pose proof (lookup_lt_Some _ _ _ Hf) as Hlt.
  unfold _onLifecycleEvent, _lifecycleEvent, update, read, log, modify,
    get_state, mainFrame, mbind, M_bind, mret, M_ret.
  rewrite HF, Hf. simpl.
  destruct (bool_decide (Some F = _mainFrame m)); simpl;
    [do 2 case_bool_decide; simpl|];
    eexists _, _; (split; [reflexivity|]); simpl;
    (split_and!; [done..|by apply list_lookup_insert_eq|done|]);
    by rewrite <- ?app_assoc.
Qed.

Lemma onFrameNavigated_fresh_document fuel framePayload initial F m :
  _mainFrame m = Some F → truthy (fp_parentId framePayload) = false →
  wp True (_onFrameNavigated fuel framePayload initial)
    (λ _ m', _frames m' !! fp_id framePayload = Some F
             ∧ ∃ f, store m' !! F = Some f ∧ _firedLifecycleEvents f = ∅)
    (λ _, False) m.
Proof.
  intros HF Hp. unfold _onFrameNavigated. do 2 wp_step. rewrite Hp, HF.
  simpl. unfold childFrames. do 4 wp_step. wp_step.
  apply wp_for_each with (I := λ _, True); [done| |].
  { intros c m' _ _. clear.
    revert c m'. generalize fuel. clear fuel.
    induction fuel as [|fuel IH]; intros F m; [done|].
    simpl. unfold childFrames. do 4 wp_step.
    wp_step. apply wp_for_each with (I := λ _, True); [done| |].
    { intros c m' _ _. apply IH. }
    intros m' _. unfold _onDetached, _frameData.
    do 3 wp_step. destruct (_parentFrame f0); repeat wp_step; done. }
  intros m1 _. unfold _frameData. wp_step.
  apply wp_mono with
    (Q := λ _ m', _frames m' !! fp_id framePayload = Some F)
    (E := λ _, False); [| |done].
  { repeat wp_step. simpl. apply lookup_insert_eq. }
  intros u m1' H1'. wp_step.
  apply wp_mono with
    (Q := λ _ m', _frames m' !! fp_id framePayload = Some F)
    (E := λ _, False); [| |done].
  { eapply wp_mono; [apply disposeContextsOf_frames| |done].
    simpl. by intros u' m2 ->. }
  intros u2 m2 H2. simpl.
  unfold newDocumentId, _onExpectedNewDocumentNavigation,
    _onCommittedNewDocumentNavigation.
  repeat wp_step; simpl; (split; [done|]); eexists;
    (split; [apply list_lookup_insert_eq; by eapply lookup_lt_Some|done]).
Qed.

(** X16.  In every reachable state with a main frame, a navigation of the
    main frame followed by [_onFrameStoppedLoading] for the new id makes the
    page emit [DOMContentLoaded] and then [Load], once each: the new
    document starts with no lifecycle event fired, whatever had fired for
    the document before. *)
Theorem navigation_then_stoppedLoading m framePayload initial F :
  reachable m → mainFrame m = Some F →
  truthy (fp_parentId framePayload) = false →
  ∃ m1 m2,
    _onFrameNavigated (budget m) framePayload initial m = Done () m1
    ∧ _onFrameStoppedLoading (fp_id framePayload) m1 = Done () m2
    ∧ calls m2 = calls m1 ++
        [Emit LifecycleEvent F; PageEmit Page_DOMContentLoaded None;
         PageEmit Page_Load None].
Proof.
  unfold mainFrame. intros Hr HF Hp.
  pose proof (onFrameNavigated_wf framePayload initial m
                (reachable_wf _ Hr)) as H1.
  pose proof (onFrameNavigated_fresh_document (budget m) framePayload
                initial F m HF Hp) as H2.
  pose proof (onFrameNavigated_quiet (budget m) framePayload initial m)
    as H3.
  unfold wp in H1, H2, H3.
  destruct (_onFrameNavigated (budget m) framePayload initial m)
    as [[] m1| | |]; try done.
  destruct H2 as (Hreg & f & Hf & Hfired).
  destruct (onFrameStoppedLoading_calls _ _ _ _ Hreg Hf)
    as (m2 & Hrun & Hcalls).
  exists m1, m2. split_and!; [done..|].
  rewrite Hcalls, (q_mainFrame _ _ H3), HF, Hfired.
  by rewrite bool_decide_eq_true_2.
Qed.

(** X16 at [example_loading], where [domcontentloaded] had fired. *)
Lemma navigation_then_stoppedLoading_witness :
  ∃ m1 m2,
    _onFrameNavigated (budget example_loading)
      (example_payload "z" None "M") false example_loading = Done () m1
    ∧ _onFrameStoppedLoading "z" m1 = Done () m2
    ∧ calls m2 = calls m1 ++
        [Emit LifecycleEvent 0; PageEmit Page_DOMContentLoaded None;
         PageEmit Page_Load None].
Proof.
  assert (reachable example_loading) as Hr by (eexists; reflexivity).
  exact (navigation_then_stoppedLoading example_loading
           (example_payload "z" None "M") false 0 Hr eq_refl eq_refl).
Defined.

(** X17.  In every reachable state, for the id of a registered frame [F]:
    [_onLifecycleEvent] emits [LifecycleEvent] and, for the main frame, the
    page-level event each time it is called, whether or not the event had
    fired before; and once [domcontentloaded] and [load] were delivered,
    [_onFrameStoppedLoading] emits [LifecycleEvent] and no page-level
    event. *)
Theorem lifecycle_then_stoppedLoading m frameId F :
  reachable m → frame frameId m = Some F →
  ∃ m1 m2 m3,
    _onLifecycleEvent frameId "domcontentloaded" m = Done () m1
    ∧ _onLifecycleEvent frameId "load" m1 = Done () m2
    ∧ _onFrameStoppedLoading frameId m2 = Done () m3
    ∧ calls m2 = calls m ++
        (if bool_decide (Some F = mainFrame m)
         then [Emit LifecycleEvent F; PageEmit Page_DOMContentLoaded None;
               Emit LifecycleEvent F; PageEmit Page_Load None]
         else [Emit LifecycleEvent F; Emit LifecycleEvent F])
    ∧ calls m3 = calls m2 ++ [Emit LifecycleEvent F].
Proof.
  unfold frame, mainFrame. intros Hr HF.
  destruct (lookup_lt_is_Some_2 (store m) F) as [f Hf].
  { by eapply wf_frames; [apply reachable_wf|]. }
  destruct (onLifecycleEvent_calls frameId "domcontentloaded" F f m HF Hf)
    as (m1 & f1 & Hrun1 & Hfr1 & Hm1 & Hf1 & Hfired1 & Hc1).
  rewrite <- Hfr1 in HF.
  destruct (onLifecycleEvent_calls frameId "load" F f1 m1 HF Hf1)
    as (m2 & f2 & Hrun2 & Hfr2 & Hm2 & Hf2 & Hfired2 & Hc2).
  rewrite <- Hfr2 in HF.
  destruct (onFrameStoppedLoading_calls frameId F f2 m2 HF Hf2)
    as (m3 & Hrun3 & Hc3).
  exists m1, m2, m3. split_and!; [done..| |].
  - rewrite Hc2, Hc1, Hm1.
    destruct (bool_decide (Some F = _mainFrame m)); simpl;
      by rewrite <- app_assoc.
  - rewrite Hc3, Hfired2, Hfired1.
    rewrite (bool_decide_eq_true_2 ("domcontentloaded" ∈ _))
      by set_solver.
    rewrite (bool_decide_eq_true_2 ("load" ∈ _)) by set_solver.
    by rewrite !andb_false_r.
Qed.

(** X17 at [example_tree], for the main frame [a]. *)
Lemma lifecycle_then_stoppedLoading_witness :
  ∃ m1 m2 m3,
    _onLifecycleEvent "a" "domcontentloaded" example_tree = Done () m1
    ∧ _onLifecycleEvent "a" "load" m1 = Done () m2
    ∧ _onFrameStoppedLoading "a" m2 = Done () m3
    ∧ calls m3 = calls example_tree ++
        [Emit LifecycleEvent 0; PageEmit Page_DOMContentLoaded None;
         Emit LifecycleEvent 0; PageEmit Page_Load None;
         Emit LifecycleEvent 0].
Proof.
  assert (reachable example_tree) as Hr by (eexists; reflexivity).
  destruct (lifecycle_then_stoppedLoading example_tree "a" 0 Hr eq_refl)
    as (m1 & m2 & m3 & H1 & H2 & H3 & Hc2 & Hc3).
  exists m1, m2, m3. split_and!; [exact H1|exact H2|exact H3|].
  rewrite Hc3, Hc2. by rewrite <- app_assoc.
Defined.


(** ** History navigation *)

Lemma startsWith_app s post : startsWith (s +:+ post) s = true.
Proof.
  induction s as [|a s IH]; [done|].
  rewrite append_cons. simpl. rewrite bool_decide_eq_true_2 by done.
  apply IH.
Qed.

Lemma includes_app pre s post : includes (pre +:+ s +:+ post) s = true.
Proof.
  induction pre as [|a pre IH].
  - rewrite append_nil. destruct (s +:+ post) eqn:E; simpl;
      rewrite <- E, startsWith_app; done.
  - rewrite append_cons. simpl. rewrite IH. apply orb_true_r.
Qed.

Lemma go_own_failure (Response : Type) command pre post :
  _go Response command
    (RejectedWith
       (ErrorObject
          (pre +:+ ("Protocol error (" +:+ command +:+ "): Failed to go")
           +:+ post)))
  = Fulfilled None.
Proof. unfold _go. by rewrite includes_app. Qed.

